(** * Kryvos gate library: wires, gates, Montgomery curve and IRV

    A shallow embedding of the Python sources under [src/groups] and
    [src/gates], and the properties of the written specification that
    are checked against it.

    Conventions of the embedding.

    - A Python [int] is a [Z]; [a % m] is [Z.modulo] (both round towards
      minus infinity, so they agree for every non-zero [m]).  A zero
      modulus makes Python raise [ZeroDivisionError] where [Z.modulo]
      returns [a]: the properties below that say what a call returns
      are stated for wires of positive modulus.
    - A Python [str] is a list of characters where the code walks over
      its characters ([bin], [zfill]) and a [string] where it is a
      dictionary key.
    - The class attributes [Wire.n_mul] and [Wire.n_wires] are process
      wide mutable state: they are the state of the monad [M].  A
      raised exception keeps the counters as they were when it was
      raised, as in Python.
    - An operand that Python accepts as either an [int] or a [Wire] has
      type [num]. *)

From Stdlib Require Import ZArith List Bool Lia String Ascii.
From Stdlib Require Import Zdivisibility Zcong DecimalString DecimalZ.
Import ListNotations.

#[local] Open Scope Z_scope.

(* ===================================================================== *)
(** ** Exceptions, counters and the construction monad *)
(* ===================================================================== *)

(** The messages of the [ValueError]s the library raises. *)
Inductive message : Type :=
| BitsTooLarge (bits max_bits_allowed : Z)  (* 'Value of bits (..) is too large (must be at most ..)' *)
| NotGreater            (* 'Value of the first wire is not greater than (or equal) ...' *)
| EqualityFails         (* 'Equality does not hold.' *)
| NotABit               (* 'Value of the wire is not a bit.' *)
| DivisorZero           (* 'Divisor is zero.' *)
| NotInvertible         (* pow(x, -1, m): 'base is not invertible for the given modulus' *)
| InvalidLiteral        (* int(s): 'invalid literal for int() with base 10' *)
| EmptySequence.        (* min(()): 'min() arg is an empty sequence' *)

Inductive exn : Type :=
| ValueError (m : message)
| KeyError (key : string)
| TypeError
| AttributeError
| IndexError.

Record Counters : Type := mkCounters { n_mul : Z; n_wires : Z }.

Definition M (A : Type) : Type := Counters -> (exn + A) * Counters.

Definition ret {A} (a : A) : M A := fun s => (inr a, s).

Definition bind {A B} (m : M A) (k : A -> M B) : M B :=
  fun s => match m s with
           | (inr a, s') => k a s'
           | (inl e, s') => (inl e, s')
           end.

Definition raise {A} (e : exn) : M A := fun s => (inl e, s).

Declare Scope py_scope.
Delimit Scope py_scope with py.
Notation "x <- c ;; k" := (bind c (fun x => k))
  (at level 61, c at next level, right associativity) : py_scope.
Notation "c ;;; k" := (bind c (fun _ => k))
  (at level 61, right associativity) : py_scope.
#[local] Open Scope py_scope.

(** [Wire.n_mul += 1; Wire.n_wires += 1] *)
Definition count_mul : M unit :=
  fun s => (inr tt, mkCounters (n_mul s + 1) (n_wires s + 1)).

(** [Wire.n_mul += 1] alone, as [r1cs_constraint_single_output] does. *)
Definition count_mul_only : M unit :=
  fun s => (inr tt, mkCounters (n_mul s + 1) (n_wires s)).

(** Lifting an optional value: [None] raises [e]. *)
Definition from_option {A} (e : exn) (o : option A) : M A :=
  match o with Some a => ret a | None => raise e end.

(** A [for] loop that builds a list, left to right. *)
Fixpoint mapM {A B} (f : A -> M B) (l : list A) : M (list B) :=
  match l with
  | [] => ret []
  | a :: l' => b <- f a ;; bs <- mapM f l' ;; ret (b :: bs)
  end.

(** A [for] loop run for its effects only. *)
Fixpoint forM_ {A} (f : A -> M unit) (l : list A) : M unit :=
  match l with
  | [] => ret tt
  | a :: l' => f a ;;; forM_ f l'
  end.

(** A [for] loop threading an accumulator. *)
Fixpoint foldM {A B} (f : B -> A -> M B) (b : B) (l : list A) : M B :=
  match l with
  | [] => ret b
  | a :: l' => b' <- f b a ;; foldM f b' l'
  end.

(* ===================================================================== *)
(** ** Python builtins used by the sources *)
(* ===================================================================== *)

Module Py.

(** [pow(x, -1, m)] for a positive [m]: the inverse of [x] modulo [m]
    in [[0, m)], or [ValueError] when [x] is not invertible. *)
Definition pow_inv (x m : Z) : M Z :=
  if Z.gcd x m =? 1 then ret (Z.invmod x m)
  else raise (ValueError NotInvertible).

(** Binary digits of a positive number, most significant first. *)
Fixpoint bin_pos (p : positive) : list ascii :=
  match p with
  | xH => ["1"%char]
  | xO q => bin_pos q ++ ["0"%char]
  | xI q => bin_pos q ++ ["1"%char]
  end.

(** [bin(n)]: ['0b101'], ['0b0'], ['-0b101']. *)
Definition bin (n : Z) : list ascii :=
  match n with
  | Z0 => ["0"; "b"; "0"]%char
  | Zpos p => ["0"; "b"]%char ++ bin_pos p
  | Zneg p => ["-"; "0"; "b"]%char ++ bin_pos p
  end.

(** [s[2:]] *)
Definition drop2 (s : list ascii) : list ascii := skipn 2 s.

Definition is_sign (c : ascii) : bool :=
  (Ascii.eqb c "+" || Ascii.eqb c "-")%bool.

(** [s.zfill(width)]: zeros are inserted on the left, after a leading
    sign if there is one, until the string is [width] long. *)
Definition zfill (s : list ascii) (width : Z) : list ascii :=
  let fill := repeat "0"%char (Z.to_nat (width - Z.of_nat (List.length s))) in
  match s with
  | c :: rest => if is_sign c then c :: fill ++ rest else fill ++ s
  | [] => fill
  end.

(** [int(c)] for a one-character string. *)
Definition int_of_char (c : ascii) : M Z :=
  let n := Z.of_nat (nat_of_ascii c) in
  if (48 <=? n) && (n <=? 57) then ret (n - 48)
  else raise (ValueError InvalidLiteral).

(** [str(n)] for an [int]. *)
Definition str (n : Z) : string := NilZero.string_of_int (Z.to_int n).

(** [int(s)] for a decimal literal as [str] writes it: digits, after a
    [-] for a negative number.  (Python also reads a leading [+],
    surrounding blanks and underscores between digits; the code applies
    [int] only to the pieces of keys that [str] has written.) *)
Definition int (s : string) : M Z :=
  match NilZero.int_of_string s with
  | Some d => ret (Z.of_int d)
  | None => raise (ValueError InvalidLiteral)
  end.

(** [sep.join(parts)] *)
Fixpoint join (sep : string) (parts : list string) : string :=
  match parts with
  | [] => EmptyString
  | [s] => s
  | s :: rest => (s ++ sep ++ join sep rest)%string
  end.

(** [s.split(sep)] for a one-character separator: the pieces between
    the occurrences of [sep]; always at least one piece. *)
Fixpoint split_on (sep : ascii) (s : string) : list string :=
  match s with
  | EmptyString => [EmptyString]
  | String c s' =>
      if Ascii.eqb c sep then EmptyString :: split_on sep s'
      else match split_on sep s' with
           | piece :: pieces => String c piece :: pieces
           | [] => [String c EmptyString]
           end
  end.

(** [range(n)] *)
Definition range (n : Z) : list Z := map Z.of_nat (seq 0 (Z.to_nat n)).

End Py.

(* ===================================================================== *)
(** ** src/groups/wiregroup.py *)
(* ===================================================================== *)

(** [class Wire]; [Wire.create(value, modulus, is_const)] is the record
    constructor. *)
Record Wire : Type := create { value : Z; modulus : Z; is_const : bool }.

(** An operand that is either a Python [int] or a [Wire]. *)
Inductive num : Type :=
| Int (n : Z)
| W (w : Wire).

(** [int(other)] *)
Definition int_of (x : num) : Z :=
  match x with Int n => n | W w => value w end.

(** [isinstance(other, Wire) and not other.is_const] *)
Definition nonconst_wire (x : num) : bool :=
  match x with Int _ => false | W w => negb (is_const w) end.

Definition __neg__ (self : Wire) : Wire :=
  create (modulus self - value self) (modulus self) (is_const self).

(** [other.__neg__()] for an operand of either kind. *)
Definition neg_num (x : num) : num :=
  match x with Int n => Int (- n) | W w => W (__neg__ w) end.

Definition __add__ (self : Wire) (other : num) : Wire :=
  let is_const := if nonconst_wire other then false else is_const self in
  let s := (value self + int_of other) mod modulus self in
  create s (modulus self) is_const.

Definition __radd__ (self : Wire) (other : num) : Wire := __add__ self other.

Definition __sub__ (self : Wire) (other : num) : Wire :=
  __add__ self (neg_num other).

(** [other + self.__neg__()] with an [int] on the left: the addition is
    dispatched to [Wire.__radd__]. *)
Definition __rsub__ (self : Wire) (other : Z) : Wire :=
  __radd__ (__neg__ self) (Int other).

Definition __mul__ (self : Wire) (other : num) : M Wire :=
  (if nonconst_wire other then count_mul else ret tt) ;;;
  let is_const := if nonconst_wire other then false else is_const self in
  let s := (value self * int_of other) mod modulus self in
  ret (create s (modulus self) is_const).

Definition __rmul__ (self : Wire) (other : num) : M Wire := __mul__ self other.

Definition invert (self : Wire) : M Wire :=
  (if is_const self then ret tt else count_mul) ;;;
  inv_val <- Py.pow_inv (value self) (modulus self) ;;
  ret (create inv_val (modulus self) (is_const self)).

(** [self / other]: [other.invert()] for a wire, and on
    [AttributeError] (an [int]) [pow(int(other), -1, self.modulus)]. *)
Definition __truediv__ (self : Wire) (other : num) : M Wire :=
  other_inv <- match other with
               | W w => w' <- invert w ;; ret (W w')
               | Int n => n' <- Py.pow_inv n (modulus self) ;; ret (Int n')
               end ;;
  __mul__ self other_inv.

(** Binary operators on operands of either kind, as Python dispatches
    them: [int op int] is integer arithmetic, [int op Wire] falls to the
    reflected method of the wire. *)
Definition py_add (a b : num) : num :=
  match a, b with
  | Int x, Int y => Int (x + y)
  | Int x, W w => W (__radd__ w (Int x))
  | W w, _ => W (__add__ w b)
  end.

Definition py_mul (a b : num) : M num :=
  match a, b with
  | Int x, Int y => ret (Int (x * y))
  | Int x, W w => r <- __rmul__ w (Int x) ;; ret (W r)
  | W w, _ => r <- __mul__ w b ;; ret (W r)
  end.

(** [sum(xs)]: starts from the integer [0]. *)
Definition py_sum (xs : list num) : num := fold_left py_add xs (Int 0).

(** [class WireGroup] *)
Record WireGroup : Type := mkWireGroup { group_modulus : Z }.

Definition bit_length (g : WireGroup) : Z :=
  Z.of_nat (List.length (Py.drop2 (Py.bin (group_modulus g)))).

Definition gen (g : WireGroup) (x : Z) (is_const : bool) : Wire :=
  create x (group_modulus g) is_const.

Definition gen_list (g : WireGroup) (values : list Z) : list Wire :=
  map (fun v => gen g v false) values.

(* ===================================================================== *)
(** ** src/gates/assertgates.py, src/gates/bits.py (first part) *)
(* ===================================================================== *)

(** [assert_equal(group, wires_one, wires_two)].  The lists hold wires
    or, as in [split], plain integers. *)
Definition assert_equal (g : WireGroup) (wires_one wires_two : list num) : M unit :=
  wires_a_sum <- py_mul (py_sum wires_one) (W (gen g 1 false)) ;;
  let wires_b_sum := py_sum wires_two in
  if int_of wires_a_sum =? int_of wires_b_sum then ret tt
  else raise (ValueError EqualityFails).

Definition assert_bit (wire : Wire) : M unit :=
  res_wire <- __mul__ wire (W (__rsub__ wire 1)) ;;
  if value res_wire =? 0 then ret tt else raise (ValueError NotABit).

(** The loop of [split] over [reversed(bits)]: the pair is
    [(bit_values_sum, two_exp)]. *)
Definition split_step (acc : Z * Z) (bit : ascii) : Z * Z :=
  let '(bit_values_sum, two_exp) := acc in
  ((if Ascii.eqb bit "1" then bit_values_sum + two_exp else bit_values_sum),
   two_exp * 2).

(** [split(group, wire, bit_length=None)] *)
Definition split (g : WireGroup) (wire : Wire) (bit_length_arg : option Z)
  : M (list Wire) :=
  let bit_length :=
    match bit_length_arg with None => bit_length g | Some l => l end in
  let input_val := value wire in
  let bits := Py.zfill (Py.drop2 (Py.bin input_val)) bit_length in
  let bit_values_sum := fst (fold_left split_step (rev bits) (0, 1)) in
  bit_wires <- mapM (fun bit => v <- Py.int_of_char bit ;; ret (gen g v false)) bits ;;
  assert_equal g [Int bit_values_sum] [W wire] ;;;
  forM_ assert_bit bit_wires ;;;
  ret bit_wires.

Definition assert_gt (g : WireGroup) (wire_one wire_two : Wire) (bits : Z) : M unit :=
  let max_bits_allowed := bit_length g / 2 in
  if bits >? max_bits_allowed
  then raise (ValueError (BitsTooLarge bits max_bits_allowed))
  else
    let diff_wire := __sub__ wire_one (W wire_two) in
    value_b_wire <- (if value wire_one >=? value wire_two
                     then ret (value diff_wire)
                     else raise (ValueError NotGreater)) ;;
    let wire_b := gen g value_b_wire false in
    split g wire_b (Some bits) ;;;
    twice <- __rmul__ diff_wire (Int 2) ;;
    assert_equal g [W twice] [W (__add__ diff_wire (W wire_b))].

(* ===================================================================== *)
(** ** src/gates/comparison.py *)
(* ===================================================================== *)

Module comparison.

Definition eq_zero (g : WireGroup) (wire : Wire) : M Wire :=
  hr <- (if value wire =? 0
         then ret (gen g 0 false, gen g 1 false)
         else h <- Py.pow_inv (value wire) (modulus wire) ;;
              ret (gen g h false, gen g 0 false)) ;;
  let '(helper_wire, result_wire) := hr in
  t1 <- __mul__ result_wire (W wire) ;;
  assert_equal g [W t1] [W (gen g 0 false)] ;;;
  t2 <- __mul__ wire (W helper_wire) ;;
  assert_equal g [W t2] [W (__rsub__ result_wire 1)] ;;;
  ret result_wire.

(** [sum(wires).value]: the sum of an empty list is the integer [0],
    which has no attribute [value]. *)
Definition eq_zero_multiple (g : WireGroup) (wires : list Wire) : M Wire :=
  sum_value <- match py_sum (map W wires) with
               | W w => ret (value w)
               | Int _ => raise AttributeError
               end ;;
  hr <- (if sum_value =? 0
         then ret (gen g 0 false, gen g 1 false)
         else h <- Py.pow_inv sum_value (group_modulus g) ;;
              ret (gen g h false, gen g 0 false)) ;;
  let '(helper_wire, result_wire) := hr in
  t1 <- __mul__ result_wire (Int sum_value) ;;
  assert_equal g [W t1] [W (gen g 0 false)] ;;;
  t2 <- __rmul__ helper_wire (Int sum_value) ;;
  assert_equal g [W t2] [W (__rsub__ result_wire 1)] ;;;
  ret result_wire.

Definition eq (g : WireGroup) (wire_one wire_two : Wire) : M Wire :=
  eq_zero g (__sub__ wire_one (W wire_two)).

Definition eq_multiple (g : WireGroup) (wires_one wires_two : list Wire) : M Wire :=
  let wires := wires_one ++ map __neg__ wires_two in
  eq_zero_multiple g wires.

Definition gt (g : WireGroup) (wire_one wire_two : Wire) (bits : Z) : M Wire :=
  let max_bits_allowed := bit_length g / 2 in
  if bits >? max_bits_allowed
  then raise (ValueError (BitsTooLarge bits max_bits_allowed))
  else
    let diff_wire := __sub__ wire_one (W wire_two) in
    let '(value_res_wire, value_b_wire) :=
      if value wire_one >=? value wire_two
      then (1, value diff_wire)
      else (0, group_modulus g - value diff_wire - 1) in
    let wire_res := gen g value_res_wire false in
    let wire_b := gen g value_b_wire false in
    split g wire_b (Some bits) ;;;
    assert_bit wire_res ;;;
    twice <- __rmul__ wire_res (Int 2) ;;
    lhs <- __mul__ twice (W diff_wire) ;;
    let rhs := __sub__ (__add__ (__add__ diff_wire (W wire_b)) (Int 1)) (W wire_res) in
    assert_equal g [W lhs] [W rhs] ;;;
    ret wire_res.

Definition lt (g : WireGroup) (wire_one wire_two : Wire) (bits : Z) : M Wire :=
  gt g wire_two wire_one bits.

End comparison.

(* ===================================================================== *)
(** ** src/gates/bits.py (second part), src/gates/branching.py *)
(* ===================================================================== *)

(** The boolean gates log a warning for a non-binary input and go on;
    logging is not modelled. *)
Definition and_gate_two_inputs (g : WireGroup) (wire_one wire_two : Wire) : M Wire :=
  __mul__ wire_one (W wire_two).

Definition and_gate_multiple_inputs (g : WireGroup) (wires : list Wire) : M Wire :=
  let sum_wire := gen g (Z.of_nat (List.length wires)) true in
  comparison.eq_multiple g wires [sum_wire].

Definition and_gate (g : WireGroup) (wires : list Wire) : M Wire :=
  match wires with
  | [wire_one; wire_two] => and_gate_two_inputs g wire_one wire_two
  | _ => and_gate_multiple_inputs g wires
  end.

(** [verify_bit(group, wire)]: the indicator that [assert_bit] would
    pass. *)
Definition verify_bit (g : WireGroup) (wire : Wire) : M Wire :=
  mul_wire <- __mul__ wire (W (__rsub__ wire 1)) ;;
  comparison.eq_zero g mul_wire.

(** [wire_one + wire_two - wire_one * wire_two]: the sum is built
    first, then the product, then the difference. *)
Definition or_gate_two_inputs (g : WireGroup) (wire_one wire_two : Wire) : M Wire :=
  let sum_wire := __add__ wire_one (W wire_two) in
  prod_wire <- __mul__ wire_one (W wire_two) ;;
  ret (__sub__ sum_wire (W prod_wire)).

(** [1 - comparison.eq_zero_multiple(group, wires)].  The comparison of
    [len(wires)] with [len(group)] before it only decides whether a
    warning is logged ([len(group)] is the modulus, positive for the
    groups of this development). *)
Definition or_gate_multiple_inputs (g : WireGroup) (wires : list Wire) : M Wire :=
  none_set <- comparison.eq_zero_multiple g wires ;;
  ret (__rsub__ none_set 1).

Definition or_gate (g : WireGroup) (wires : list Wire) : M Wire :=
  match wires with
  | [wire_one; wire_two] => or_gate_two_inputs g wire_one wire_two
  | _ => or_gate_multiple_inputs g wires
  end.

Definition xor_gate_two_inputs (g : WireGroup) (wire_one wire_two : Wire) : M Wire :=
  or_val <- or_gate g [wire_one; wire_two] ;;
  and_val <- and_gate g [wire_one; wire_two] ;;
  and_gate g [or_val; __rsub__ and_val 1].

(** [condition_wire * if_wire + (1 - condition_wire) * else_wire] *)
Definition if_then_else (condition_wire : Wire) (if_wire : num) (else_wire : Wire)
  : M Wire :=
  a <- __mul__ condition_wire if_wire ;;
  b <- __mul__ (__rsub__ condition_wire 1) (W else_wire) ;;
  ret (__add__ a (W b)).

(** [(1 - condition_wire) * input_wire] *)
Definition if_then_set_zero (condition_wire input_wire : Wire) : M Wire :=
  __mul__ (__rsub__ condition_wire 1) (W input_wire).

(* ===================================================================== *)
(** ** src/gates/arithmetic.py *)
(* ===================================================================== *)

Definition division (dividend divisor : Wire) : M Wire :=
  if value divisor =? 0 then raise (ValueError DivisorZero)
  else inv <- invert divisor ;; __mul__ dividend (W inv).

Definition division_safe (g : WireGroup) (dividend divisor : Wire) : M Wire :=
  condition_wire <- comparison.eq_zero g divisor ;;
  divisor_safe <- if_then_else condition_wire (Int 1) divisor ;;
  division dividend divisor_safe.

(** [division(None, divisor)]: the dividend of a point without [y].
    The check of the divisor and [divisor.invert()] come first; the
    product [None * inverse] is then reflected to [Wire.__rmul__], where
    [int(None)] raises [TypeError]. *)
Definition division_none (divisor : Wire) : M Wire :=
  if value divisor =? 0 then raise (ValueError DivisorZero)
  else inv <- invert divisor ;; raise TypeError.

(** [division_safe_multiple(group, dividends, divisor)]; a dividend is
    [None] when it is the [y] of a point that has none. *)
Definition division_safe_multiple (g : WireGroup) (dividends : list (option Wire))
  (divisor : Wire) : M (list Wire) :=
  condition_wire <- comparison.eq_zero g divisor ;;
  divisor_safe <- if_then_else condition_wire (Int 1) divisor ;;
  mapM (fun dividend =>
          match dividend with
          | Some d => division d divisor_safe
          | None => division_none divisor_safe
          end) dividends.

(** The loops of [r1cs_constraint_single_output]:
    [value += factor * wire.value] from the const wire [group.gen(0)]. *)
Definition weighted_sum (g : WireGroup) (wires : list (Z * Wire)) : Wire :=
  fold_left (fun acc fw => __add__ acc (Int (fst fw * value (snd fw))))
            wires (gen g 0 true).

(** [r1cs_constraint_single_output(group, wires_a, wires_b)]: the
    product of two const wires is not counted by [Wire.__mul__]; the
    function then marks the result as not const and adds one to
    [Wire.n_mul] (and nothing to [Wire.n_wires]). *)
Definition r1cs_constraint_single_output (g : WireGroup)
  (wires_a wires_b : list (Z * Wire)) : M Wire :=
  let value_a := weighted_sum g wires_a in
  let value_b := weighted_sum g wires_b in
  value_result <- __mul__ value_a (W value_b) ;;
  let value_result := create (value value_result) (modulus value_result) false in
  count_mul_only ;;;
  ret value_result.

(* ===================================================================== *)
(** ** src/gates/listgates.py *)
(* ===================================================================== *)

(** [min(int(w) for w in wires)] *)
Definition py_min (wires : list Wire) : M Z :=
  match wires with
  | [] => raise (ValueError EmptySequence)
  | w :: ws => ret (fold_left Z.min (map value ws) (value w))
  end.

Definition minimum (g : WireGroup) (wires : list Wire) (bits : Z) : M (list Wire) :=
  min_val <- py_min wires ;;
  let min_wire := gen g min_val false in
  mapM (fun wire =>
          ind <- comparison.eq g wire min_wire ;;
          assert_gt g wire min_wire bits ;;;
          ret ind) wires.

(** [max(int(w) for w in wires)]; on an empty list Python raises
    [ValueError] as [min] does (with [max] in the message). *)
Definition py_max (wires : list Wire) : M Z :=
  match wires with
  | [] => raise (ValueError EmptySequence)
  | w :: ws => ret (fold_left Z.max (map value ws) (value w))
  end.

Definition maximum (g : WireGroup) (wires : list Wire) (bits : Z) : M (list Wire) :=
  max_val <- py_max wires ;;
  let max_val := gen g max_val false in
  mapM (fun wire =>
          ind <- comparison.eq g wire max_val ;;
          assert_gt g max_val wire bits ;;;
          ret ind) wires.

Definition get_maximum_value (g : WireGroup) (wires : list Wire) (bits : Z) : M Wire :=
  max_val <- py_max wires ;;
  let max_val_wire := gen g max_val false in
  forM_ (fun wire => assert_gt g max_val_wire wire bits) wires ;;;
  ret max_val_wire.

Definition get_minimum_value (g : WireGroup) (wires : list Wire) (bits : Z) : M Wire :=
  min_val <- py_min wires ;;
  let min_wire := gen g min_val false in
  forM_ (fun wire => assert_gt g wire min_wire bits) wires ;;;
  ret min_wire.

(** The loop state of [find_first_indicator] is [(done, res)]. *)
Definition find_first_indicator (g : WireGroup) (wires : list Wire) : M (list Wire) :=
  st <- foldM (fun '(done, res) wire =>
                 r <- __mul__ wire (W (__rsub__ done 1)) ;;
                 ret (__add__ done (W r), res ++ [r]))
              (gen g 0 false, []) wires ;;
  ret (snd st).

(** [get_n_occurences(group, wires, wire)] *)
Definition get_n_occurences (g : WireGroup) (wires : list Wire) (wire : Wire) : M Wire :=
  foldM (fun n_occurences wire_in_list =>
           ind_eq <- comparison.eq g wire_in_list wire ;;
           ret (__add__ n_occurences (W ind_eq)))
        (gen g 0 false) wires.

(** [get_list_with_index_set(group, index, length)] *)
Definition get_list_with_index_set (g : WireGroup) (index : Wire) (length : Z)
  : M (list Wire) :=
  mapM (fun i =>
          ind_eq <- comparison.eq g index (gen g i false) ;;
          let comp := __rsub__ ind_eq 1 in
          if_then_set_zero comp (gen g 1 false))
       (Py.range length).

(* ===================================================================== *)
(** ** src/gates/ecsmontgomery.py *)
(* ===================================================================== *)

(** [AffinePoint] and [HomogeneousPoint] are two subclasses of [Point]
    with the same three attributes.  The ladder leaves [y] unset
    ([None]). *)
Inductive point_class : Type := Affine | Homogeneous.

Record Point : Type :=
  mkPoint { point_cls : point_class; _x : Wire; _y : option Wire; _z : Wire }.

Definition AffinePoint (x : Wire) (y : option Wire) (z : Wire) : Point :=
  mkPoint Affine x y z.

Definition HomogeneousPoint (x : Wire) (y : option Wire) (z : Wire) : Point :=
  mkPoint Homogeneous x y z.

(** Reading [p.y] where the code computes with it: arithmetic on [None]
    raises [TypeError]. *)
Definition get_y (p : Point) : M Wire := from_option TypeError (_y p).

Definition set_x (p : Point) (x : Wire) : Point :=
  mkPoint (point_cls p) x (_y p) (_z p).
Definition set_y (p : Point) (y : Wire) : Point :=
  mkPoint (point_cls p) (_x p) (Some y) (_z p).
Definition set_z (p : Point) (z : Wire) : Point :=
  mkPoint (point_cls p) (_x p) (_y p) z.

Definition xadd (p q m : Point) : M Point :=
  let v0 := __add__ (_x p) (W (_z p)) in
  let v1 := __sub__ (_x q) (W (_z q)) in
  v1 <- __mul__ v1 (W v0) ;;
  let v0 := __sub__ (_x p) (W (_z p)) in
  let v2 := __add__ (_x q) (W (_z q)) in
  v2 <- __mul__ v2 (W v0) ;;
  let v3 := __add__ v1 (W v2) in
  v3 <- __mul__ v3 (W v3) ;;
  let v4 := __sub__ v1 (W v2) in
  v4 <- __mul__ v4 (W v4) ;;
  xp <- __mul__ (_z m) (W v3) ;;
  zp <- __mul__ (_x m) (W v4) ;;
  ret (HomogeneousPoint xp None zp).

Definition xdbl (p : Point) (A : Wire) : M Point :=
  let v1 := __add__ (_x p) (W (_z p)) in
  v1 <- __mul__ v1 (W v1) ;;
  let v2 := __sub__ (_x p) (W (_z p)) in
  v2 <- __mul__ v2 (W v2) ;;
  xd <- __mul__ v1 (W v2) ;;
  let v1 := __sub__ v1 (W v2) in
  a24 <- __truediv__ (__add__ A (Int 2)) (Int 4) ;;
  v3 <- __mul__ a24 (W v1) ;;
  let v3 := __add__ v3 (W v2) in
  zd <- __mul__ v1 (W v3) ;;
  ret (HomogeneousPoint xd None zd).

(** [i * w] for a bit [i] of the exponent and a wire [w].  The bits are
    wires when they come from [split] and plain [int]s when the caller
    passes a list of integers: a wire is multiplied by [Wire.__mul__],
    and for an [int] Python falls to the reflected [w.__rmul__(i)]. *)
Definition bit_mul (i : num) (w : Wire) : M Wire :=
  match i with
  | W b => __mul__ b (W w)
  | Int n => __rmul__ w (Int n)
  end.

(** [1 - i]: [Wire.__rsub__] for a wire, integer arithmetic for an
    [int]. *)
Definition one_minus (i : num) : num :=
  match i with
  | W b => W (__rsub__ b 1)
  | Int n => Int (1 - n)
  end.

(** One turn of the loop of [ladder] for the bit [i]; the loop state is
    [(r0, r1)]. *)
Definition ladder_step (p : Point) (A : Wire) (st : Point * Point) (i : num)
  : M (Point * Point) :=
  let '(r0, r1) := st in
  padd <- xadd r1 r0 p ;;
  r0_0 <- xdbl r0 A ;;
  r1_1 <- xdbl r1 A ;;
  ipaddx <- bit_mul i (_x padd) ;;
  ipaddz <- bit_mul i (_z padd) ;;
  t <- bit_mul (one_minus i) (_x r0_0) ;;
  let r0 := set_x r0 (__add__ ipaddx (W t)) in
  t <- bit_mul (one_minus i) (_z r0_0) ;;
  let r0 := set_z r0 (__add__ ipaddz (W t)) in
  t <- bit_mul i (_x r1_1) ;;
  let r1 := set_x r1 (__sub__ (__add__ t (W (_x padd))) (W ipaddx)) in
  t <- bit_mul i (_z r1_1) ;;
  let r1 := set_z r1 (__sub__ (__add__ t (W (_z padd))) (W ipaddz)) in
  ret (r0, r1).

(** [ladder(k_bits, p, A)]; [k_bits[1:]] is the tail of the list. *)
Definition ladder (k_bits : list num) (p : Point) (A : Wire) : M (Point * Point) :=
  let r0 := HomogeneousPoint (_x p) None (_z p) in
  r1 <- xdbl p A ;;
  foldM (ladder_step p A) (r0, r1) (tl k_bits).

Definition okeya_sakurai_y_recovery (A B : Wire) (p q pq : Point) : M Point :=
  v1 <- __mul__ (_x p) (W (_z q)) ;;
  let v2 := __add__ (_x q) (W v1) in
  let v3 := __sub__ (_x q) (W v1) in
  v3 <- __mul__ v3 (W v3) ;;
  v3 <- __mul__ v3 (W (_x pq)) ;;
  twoA <- __rmul__ A (Int 2) ;;
  v1 <- __mul__ twoA (W (_z q)) ;;
  let v2 := __add__ v2 (W v1) in
  v4 <- __mul__ (_x p) (W (_x q)) ;;
  let v4 := __add__ v4 (W (_z q)) in
  v2 <- __mul__ v2 (W v4) ;;
  v1 <- __mul__ v1 (W (_z q)) ;;
  let v2 := __sub__ v2 (W v1) in
  v2 <- __mul__ v2 (W (_z pq)) ;;
  let y := __sub__ v2 (W v3) in
  twoB <- __rmul__ B (Int 2) ;;
  p_y <- get_y p ;;
  v1 <- __mul__ twoB (W p_y) ;;
  v1 <- __mul__ v1 (W (_z q)) ;;
  v1 <- __mul__ v1 (W (_z pq)) ;;
  x <- __mul__ v1 (W (_x q)) ;;
  z <- __mul__ v1 (W (_z q)) ;;
  ret (HomogeneousPoint x (Some y) z).

Definition y_recovery (g : WireGroup) (A B : Wire) (p q pq : Point) : M Point :=
  q_recovered <- okeya_sakurai_y_recovery A B p q pq ;;
  cond_wire <- comparison.eq_zero g (_z q) ;;
  x <- if_then_set_zero cond_wire (_x q_recovered) ;;
  let q_recovered := set_x q_recovered x in
  q_y <- get_y q_recovered ;;
  y <- if_then_else cond_wire (Int 1) q_y ;;
  let q_recovered := set_y q_recovered y in
  z <- if_then_set_zero cond_wire (_z q_recovered) ;;
  let q_recovered := set_z q_recovered z in
  c1 <- comparison.eq_zero g (_z pq) ;;
  quot <- division_safe g (_x q) (_z q) ;;
  c2 <- comparison.eq g (_x p) quot ;;
  cond_minus_p <- and_gate g [c1; c2] ;;
  x <- if_then_else cond_minus_p (W (_x p)) (_x q_recovered) ;;
  let q_recovered := set_x q_recovered x in
  p_y <- get_y p ;;
  q_y <- get_y q_recovered ;;
  y <- if_then_else cond_minus_p (W (__neg__ p_y)) q_y ;;
  let q_recovered := set_y q_recovered y in
  z <- if_then_else cond_minus_p (Int 1) (_z q_recovered) ;;
  let q_recovered := set_z q_recovered z in
  ret q_recovered.

(** The values [x] and [y] computed after the division are not used by
    the [return] statement of the source; they are kept here because
    their multiplications are counted. *)
Definition convert_homogeneous_to_affine_coordinates (g : WireGroup) (p : Point)
  : M Point :=
  quotients <- division_safe_multiple g [Some (_x p); _y p] (_z p) ;;
  x_affine <- from_option IndexError (nth_error quotients 0) ;;
  y_affine <- from_option IndexError (nth_error quotients 1) ;;
  indicator_infty <- comparison.eq_zero g (_z p) ;;
  x <- if_then_set_zero indicator_infty (_x p) ;;
  p_y <- get_y p ;;
  y <- if_then_else indicator_infty (Int 1) p_y ;;
  ret (AffinePoint x_affine (Some y_affine) (__rsub__ indicator_infty 1)).

Definition exponent_homogeneous_point_bit_exponent (g : WireGroup) (A B : Wire)
  (p : Point) (exponent_bits : list Wire) : M Point :=
  pe01 <- ladder (map W exponent_bits) p A ;;
  let '(pe0, pe1) := pe01 in
  pe <- y_recovery g A B p pe0 pe1 ;;
  (* check point at infinity *)
  indicator_infty <- comparison.eq_zero g (_z pe0) ;;
  x <- if_then_set_zero indicator_infty (_x pe) ;;
  let pe := set_x pe x in
  pe_y <- get_y pe ;;
  y <- if_then_else indicator_infty (Int 1) pe_y ;;
  let pe := set_y pe y in
  z <- if_then_set_zero indicator_infty (_z pe) ;;
  let pe := set_z pe z in
  (* check if zero point *)
  zx <- comparison.eq_zero g (_x p) ;;
  p_y <- get_y p ;;
  zy <- comparison.eq_zero g p_y ;;
  zz <- comparison.eq_zero g (_z p) ;;
  indicator_zero <- and_gate g [zx; zy; __rsub__ zz 1] ;;
  last_bit <- from_option IndexError (last (map Some exponent_bits) None) ;;
  indicator_odd <- comparison.eq_zero g (__sub__ last_bit (Int 1)) ;;
  indicator_zero_odd <- __mul__ indicator_zero (W indicator_odd) ;;
  indicator_zero_even <- __mul__ indicator_zero (W (__rsub__ indicator_odd 1)) ;;
  x <- if_then_else indicator_zero_odd (Int 0) (_x pe) ;;
  let pe := set_x pe x in
  pe_y <- get_y pe ;;
  y <- if_then_else indicator_zero_odd (Int 0) pe_y ;;
  let pe := set_y pe y in
  z <- if_then_else indicator_zero_odd (Int 1) (_z pe) ;;
  let pe := set_z pe z in
  x <- if_then_else indicator_zero_even (Int 0) (_x pe) ;;
  let pe := set_x pe x in
  pe_y <- get_y pe ;;
  y <- if_then_else indicator_zero_even (Int 1) pe_y ;;
  let pe := set_y pe y in
  z <- if_then_else indicator_zero_even (Int 0) (_z pe) ;;
  let pe := set_z pe z in
  ret pe.

Definition exponent_homogeneous_point (g : WireGroup) (A B : Wire) (p : Point)
  (exponent : Wire) : M Point :=
  exponent_bits <- split g exponent None ;;
  exponent_homogeneous_point_bit_exponent g A B p exponent_bits.

(* ===================================================================== *)
(** ** src/gates/voting/irv.py *)
(* ===================================================================== *)

(** A Python [dict] keeps its keys in insertion order; assigning to an
    existing key keeps its place. *)
Definition dict : Type := list (string * Wire).

Fixpoint dict_get (d : dict) (key : string) : option Wire :=
  match d with
  | [] => None
  | (k, v) :: d' => if String.eqb k key then Some v else dict_get d' key
  end.

Fixpoint dict_set (d : dict) (key : string) (v : Wire) : dict :=
  match d with
  | [] => [(key, v)]
  | (k, v') :: d' =>
      if String.eqb k key then (k, v) :: d' else (k, v') :: dict_set d' key v
  end.

Definition dict_keys (d : dict) : list string := map fst d.

(** [d[key]] *)
Definition dict_item (d : dict) (key : string) : M Wire :=
  from_option (KeyError key) (dict_get d key).

(** Every way of taking one element out of a list, in order. *)
Fixpoint select {A} (l : list A) : list (A * list A) :=
  match l with
  | [] => []
  | a :: l' => (a, l') :: map (fun '(b, rest) => (b, a :: rest)) (select l')
  end.

(** [itertools.permutations(l, r)]: the [r]-length arrangements of the
    positions of [l], in lexicographic order of the positions. *)
Fixpoint permutations {A} (l : list A) (r : nat) : list (list A) :=
  match r with
  | O => [[]]
  | S r' => flat_map (fun '(a, rest) => map (cons a) (permutations rest r')) (select l)
  end.

Record IRVBallotManager : Type :=
  mkIRVBallotManager { bm_n_choices : Z; mapping : dict }.

Definition CHOICE_SEPARATOR_STR : string := "-".

Definition _map_ballot_to_str (ballot : list Z) : string :=
  Py.join CHOICE_SEPARATOR_STR (map Py.str ballot).

Definition _map_str_to_ballot (ballot_str : string) : M (list Z) :=
  if String.eqb ballot_str "" then ret []
  else mapM Py.int (Py.split_on "-" ballot_str).

(** [range(self.n_choices + 1, 0, -1)] *)
Definition lengths_downwards (n_choices : Z) : list nat :=
  rev (seq 1 (Z.to_nat (n_choices + 1))).

Definition init_mapping (n_choices : Z) (g : WireGroup) : dict :=
  let filled :=
    fold_left
      (fun d i =>
         fold_left (fun d perm => dict_set d (_map_ballot_to_str perm) (gen g 0 false))
                   (permutations (Py.range n_choices) i) d)
      (lengths_downwards n_choices) [] in
  dict_set filled (_map_ballot_to_str []) (gen g 0 false).

(** [IRVBallotManager.create(n_choices, group)] *)
Definition IRVBallotManager_create (n_choices : Z) (g : WireGroup) : IRVBallotManager :=
  mkIRVBallotManager n_choices (init_mapping n_choices g).

(** [self.mapping[ordering_str] += n_votes]; the manager is mutated in
    place, the model returns the new one. *)
Definition add_votes_for_ordering (bm : IRVBallotManager) (ordering : list Z)
  (n_votes : num) : M IRVBallotManager :=
  let ordering_str := _map_ballot_to_str ordering in
  old <- dict_item (mapping bm) ordering_str ;;
  ret (mkIRVBallotManager (bm_n_choices bm)
         (dict_set (mapping bm) ordering_str (__add__ old n_votes))).

Definition get_n_ballots_with_first_choice (bm : IRVBallotManager) (first_choice : Z)
  : M (option Wire) :=
  foldM (fun n_ballots key =>
           ballot_list <- _map_str_to_ballot key ;;
           match ballot_list with
           | [] => ret n_ballots
           | c :: _ =>
               if c =? first_choice then
                 v <- dict_item (mapping bm) key ;;
                 match n_ballots with
                 | None => ret (Some v)
                 | Some n => ret (Some (__add__ n (W v)))
                 end
               else ret n_ballots
           end)
        None (dict_keys (mapping bm)).

Definition get_votes_per_choice (bm : IRVBallotManager) : M (list (option Wire)) :=
  mapM (get_n_ballots_with_first_choice bm) (Py.range (bm_n_choices bm)).

(** The body of the inner loop of [update_votes_on_elimination]. *)
Definition update_for_choice (inds_elim : list Wire) (ballot_str : string)
  (ballot_list : list Z) (d : dict) (pos_choice : Z) : M dict :=
  if existsb (Z.eqb pos_choice) ballot_list then ret d
  else
    let previous_ballot := pos_choice :: ballot_list in
    let previous_ballot_str := _map_ballot_to_str previous_ballot in
    if existsb (String.eqb previous_ballot_str) (dict_keys d) then
      old <- dict_item d ballot_str ;;
      ind <- from_option IndexError (nth_error inds_elim (Z.to_nat pos_choice)) ;;
      prev <- dict_item d previous_ballot_str ;;
      moved <- __mul__ ind (W prev) ;;
      ret (dict_set d ballot_str (__add__ old (W moved)))
    else ret d.

Definition update_votes_on_elimination (bm : IRVBallotManager) (inds_elim : list Wire)
  : M IRVBallotManager :=
  d <- foldM (fun d ballot_str =>
                ballot_list <- _map_str_to_ballot ballot_str ;;
                foldM (update_for_choice inds_elim ballot_str ballot_list) d
                      (Py.range (bm_n_choices bm)))
             (mapping bm) (dict_keys (mapping bm)) ;;
  ret (mkIRVBallotManager (bm_n_choices bm) d).

(** [class ChoiceEliminator]: [break_ties] is the method the subclasses
    overwrite. *)
Record ChoiceEliminator : Type :=
  mkChoiceEliminator {
      elim_group : WireGroup;
      elim_bits : Z;
      break_ties : list Wire -> list (option Wire) -> M (list Wire) }.

Definition EliminateFirstPossibilityEliminator (g : WireGroup) (bits : Z)
  : ChoiceEliminator :=
  mkChoiceEliminator g bits (fun ind_min _ => find_first_indicator g ind_min).

(** [[n_votes * (1 - elim) - elim for n_votes, elim in zip(...)]];
    a choice that heads no key has [n_votes = None]. *)
Definition compute_min (e : ChoiceEliminator) (ind_elim : list Wire)
  (votes_per_choice : list (option Wire)) : M (list Wire) :=
  votes <- mapM (fun '(n_votes, elim) =>
                   n <- from_option TypeError n_votes ;;
                   t <- __mul__ n (W (__rsub__ elim 1)) ;;
                   ret (__sub__ t (W elim)))
                (combine votes_per_choice ind_elim) ;;
  minimum (elim_group e) votes (elim_bits e).

Definition eliminate_choice (e : ChoiceEliminator) (round : Z) (ind_elim : list Wire)
  (votes_per_choice : list (option Wire)) : M (list Wire) :=
  ind_min <- compute_min e ind_elim votes_per_choice ;;
  break_ties e ind_min votes_per_choice.

(** [class IRV] *)
Record IRV : Type :=
  mkIRV {
      n_choices : Z;
      irv_group : WireGroup;
      choice_eliminator : ChoiceEliminator;
      ballotmanager : option IRVBallotManager;
      ind_eliminated : list Wire;
      round : Z }.

Definition IRV_init (n_choices : Z) (e : ChoiceEliminator) (g : WireGroup) : IRV :=
  mkIRV n_choices g e None [] 0.

Definition get_empty_ballots (self : IRV) : IRVBallotManager :=
  IRVBallotManager_create (n_choices self) (irv_group self).

(** [self.ind_eliminated[i] += inds_elim[i]] for [i] in
    [range(self.n_choices)]. *)
Definition add_indicators (ind_eliminated inds_elim : list Wire) (n_choices : Z)
  : M (list Wire) :=
  foldM (fun acc i =>
           old <- from_option IndexError (nth_error acc (Z.to_nat i)) ;;
           ind <- from_option IndexError (nth_error inds_elim (Z.to_nat i)) ;;
           ret (firstn (Z.to_nat i) acc ++ __add__ old (W ind) :: skipn (S (Z.to_nat i)) acc))
        ind_eliminated (Py.range n_choices).

Definition evaluate_round (self : IRV) : M IRV :=
  bm <- from_option AttributeError (ballotmanager self) ;;
  votes_per_choice <- get_votes_per_choice bm ;;
  inds_elim <- eliminate_choice (choice_eliminator self) (round self)
                 (ind_eliminated self) votes_per_choice ;;
  ind_eliminated' <- add_indicators (ind_eliminated self) inds_elim (n_choices self) ;;
  bm' <- update_votes_on_elimination bm inds_elim ;;
  ret (mkIRV (n_choices self) (irv_group self) (choice_eliminator self)
         (Some bm') ind_eliminated' (round self)).

(** The loop of [evaluate_election]: a round, then [self.round += 1]. *)
Fixpoint evaluate_rounds (n : nat) (self : IRV) : M IRV :=
  match n with
  | O => ret self
  | S n' =>
      self' <- evaluate_round self ;;
      evaluate_rounds n'
        (mkIRV (n_choices self') (irv_group self') (choice_eliminator self')
           (ballotmanager self') (ind_eliminated self') (round self' + 1))
  end.

Definition evaluate_election (self : IRV) (ballots : IRVBallotManager)
  (n_rounds_arg : option Z) : M (list Wire) :=
  let self := mkIRV (n_choices self) (irv_group self) (choice_eliminator self)
                (Some ballots)
                (gen_list (irv_group self) (map (fun _ => 0) (Py.range (n_choices self))))
                0 in
  let n_rounds :=
    match n_rounds_arg with None => n_choices self - 1 | Some n => n end in
  final <- evaluate_rounds (Z.to_nat n_rounds) self ;;
  ret (ind_eliminated final).

(* ===================================================================== *)
(** ** src/gates/voting/ballots.py *)
(* ===================================================================== *)

(** [assert_single_choice(group, ballot)] *)
Definition assert_single_choice (g : WireGroup) (ballot : list Wire) : M unit :=
  forM_ assert_bit ballot ;;;
  assert_equal g (map W ballot) [W (gen g 1 false)].

(* ===================================================================== *)
(** * Properties *)
(* ===================================================================== *)

(** ** Reasoning about constructions *)

(** [returns m P]: from every state of the counters, [m] raises nothing
    and its result satisfies [P]. *)
Definition returns {A} (m : M A) (P : A -> Prop) : Prop :=
  forall s, exists a s', m s = (inr a, s') /\ P a.

Lemma returns_ret {A} (a : A) (P : A -> Prop) : P a -> returns (ret a) P.
Proof. intros H s. exists a, s. split; [reflexivity | exact H]. Qed.

Lemma returns_ret_eq {A} (a : A) : returns (ret a) (fun x => x = a).
Proof. apply returns_ret. reflexivity. Qed.

Lemma returns_bind {A B} (m : M A) (k : A -> M B) (P : A -> Prop) (Q : B -> Prop) :
  returns m P -> (forall a, P a -> returns (k a) Q) -> returns (bind m k) Q.
Proof.
  intros Hm Hk s. destruct (Hm s) as (a & s1 & E & Pa).
  destruct (Hk a Pa s1) as (b & s2 & E2 & Qb).
  exists b, s2. unfold bind. rewrite E. split; assumption.
Qed.

Lemma returns_weaken {A} (m : M A) (P Q : A -> Prop) :
  returns m P -> (forall a, P a -> Q a) -> returns m Q.
Proof.
  intros Hm HPQ s. destruct (Hm s) as (a & s1 & E & Pa).
  exists a, s1. split; [exact E | apply HPQ, Pa].
Qed.

Lemma returns_mapM {A B} (f : A -> M B) (R : A -> B -> Prop) (l : list A) :
  (forall a, In a l -> returns (f a) (R a)) ->
  returns (mapM f l) (Forall2 R l).
Proof.
  induction l as [|a l IH]; intros H; simpl.
  - apply returns_ret. constructor.
  - eapply returns_bind; [apply H; left; reflexivity |].
    intros b Rb. eapply returns_bind; [apply IH; intros; apply H; right; assumption |].
    intros bs Rbs. apply returns_ret. constructor; assumption.
Qed.

Lemma returns_forM_ {A} (f : A -> M unit) (l : list A) :
  (forall a, In a l -> returns (f a) (fun _ => True)) ->
  returns (forM_ f l) (fun _ => True).
Proof.
  induction l as [|a l IH]; intros H; simpl.
  - apply returns_ret. exact I.
  - eapply returns_bind; [apply H; left; reflexivity |].
    intros _ _. apply IH. intros; apply H; right; assumption.
Qed.

Lemma returns_foldM {A B} (f : B -> A -> M B) (Inv : B -> Prop) (l : list A) :
  (forall b a, In a l -> Inv b -> returns (f b a) Inv) ->
  forall b, Inv b -> returns (foldM f b l) Inv.
Proof.
  induction l as [|a l IH]; intros H b Hb; simpl.
  - apply returns_ret. exact Hb.
  - eapply returns_bind; [apply H; [left; reflexivity | exact Hb] |].
    intros b' Hb'. apply IH; [| exact Hb'].
    intros; apply H; [right |]; assumption.
Qed.

(** The counters after a construction, whether it raised or not. *)
Definition counters_after {A} (m : M A) (s : Counters) : Counters := snd (m s).

(** ** Wire arithmetic: the counters *)

Definition incremented (s : Counters) : Counters :=
  mkCounters (n_mul s + 1) (n_wires s + 1).

Lemma mul_counters (a : Wire) (b : num) (s : Counters) :
  counters_after (__mul__ a b) s = if nonconst_wire b then incremented s else s.
Proof.
  unfold counters_after, __mul__, bind. destruct (nonconst_wire b); reflexivity.
Qed.

Lemma invert_counters (a : Wire) (s : Counters) :
  counters_after (invert a) s = if is_const a then s else incremented s.
Proof.
  unfold counters_after, invert, bind, Py.pow_inv.
  destruct (is_const a); simpl;
    destruct (Z.gcd (value a) (modulus a) =? 1); reflexivity.
Qed.

Lemma incremented_neq (s : Counters) : incremented s <> s.
Proof.
  destruct s as [m w]. unfold incremented. simpl. intros H.
  injection H as H1 H2. lia.
Qed.

(** C1 (as the code has it).  [a * b] adds exactly one to both counters
    when the right operand [b] is a wire that is not const, whatever the
    left operand is, and leaves both unchanged when [b] is a const wire
    or an integer; [n * a] with an integer on the left is [a * n] and
    counts nothing; [a.invert()] adds exactly one to both counters when
    [a] is not const and nothing when it is. *)
Theorem C1_mul_invert_counters :
  (forall (a : Wire) (b : num) (s : Counters),
      counters_after (__mul__ a b) s
      = if nonconst_wire b then incremented s else s) /\
  (forall (n : Z) (a : Wire) (s : Counters),
      counters_after (py_mul (Int n) (W a)) s = s) /\
  (forall (a : Wire) (s : Counters),
      counters_after (invert a) s
      = if is_const a then s else incremented s).
Proof.
  split; [| split].
  - exact mul_counters.
  - intros n a s. unfold counters_after, py_mul, __rmul__, __mul__, bind.
    reflexivity.
  - exact invert_counters.
Qed.

(** C1 fails as stated: a const wire times a wire that is not const
    adds one to both counters, although one operand is const. *)
Lemma C1_const_times_nonconst_counts :
  ~ (counters_after (__mul__ (create 4 11 true) (W (create 3 11 false)))
       (mkCounters 0 0) = incremented (mkCounters 0 0)
     <-> (is_const (create 4 11 true) = false /\
          is_const (create 3 11 false) = false)).
Proof.
  intros [H _]. destruct (H eq_refl) as [H1 _]. discriminate H1.
Qed.

(** ** Constraint counts of [xadd] and [xdbl] *)

Lemma pow_inv_coprime (x m : Z) (s : Counters) :
  Z.gcd x m = 1 -> Py.pow_inv x m s = (inr (Z.invmod x m), s).
Proof. intros H. unfold Py.pow_inv. rewrite H. reflexivity. Qed.

Lemma gcd_4_odd (m : Z) : Z.odd m = true -> Z.gcd 4 m = 1.
Proof.
  intros Hodd.
  assert (H2 : Z.gcd 2 m = 1).
  { pose proof (Z.gcd_nonneg 2 m) as Hnn.
    pose proof (Z.gcd_divide_l 2 m) as Hl.
    pose proof (Z.gcd_divide_r 2 m) as Hr.
    apply Z.divide_pos_le in Hl; [| lia].
    assert (Hc : Z.gcd 2 m = 0 \/ Z.gcd 2 m = 1 \/ Z.gcd 2 m = 2) by lia.
    destruct Hc as [Hc | [Hc | Hc]]; [| exact Hc |].
    - apply Z.gcd_eq_0_l in Hc. discriminate Hc.
    - rewrite Hc in Hr. destruct Hr as [k Hk].
      rewrite Hk, Z.mul_comm, Z.odd_mul in Hodd. discriminate Hodd. }
  change 4 with (2 * 2). rewrite Z.gcd_comm.
  apply Z.coprime_mul_r; unfold Z.coprime; rewrite Z.gcd_comm; exact H2.
Qed.

Definition nonconst_point (p : Point) : Prop :=
  is_const (_x p) = false /\ is_const (_z p) = false.




Definition c7_point : Point :=
  HomogeneousPoint (create 4 13 false) None (create 1 13 false).



(** ** Binary digit strings *)

Definition is_bit_char (c : ascii) : Prop := c = "0"%char \/ c = "1"%char.

Definition char_bit (c : ascii) : Z := if Ascii.eqb c "1" then 1 else 0.

(** The number a big-endian digit string denotes. *)
Fixpoint be_chars (l : list ascii) : Z :=
  match l with
  | [] => 0
  | c :: l' => char_bit c * 2 ^ Z.of_nat (List.length l') + be_chars l'
  end.

(** The same for a little-endian digit string. *)
Fixpoint le_chars (l : list ascii) : Z :=
  match l with
  | [] => 0
  | c :: l' => char_bit c + 2 * le_chars l'
  end.

(** The length of [bin(n)[2:]] for [0 <= n]. *)
Definition binary_length (n : Z) : Z := if n =? 0 then 1 else Z.log2 n + 1.

Lemma pow2_succ_nat (n : nat) : 2 ^ Z.of_nat (S n) = 2 * 2 ^ Z.of_nat n.
Proof. rewrite Nat2Z.inj_succ, Z.pow_succ_r by lia. reflexivity. Qed.

Lemma be_chars_app (l : list ascii) (c : ascii) :
  be_chars (l ++ [c]) = 2 * be_chars l + char_bit c.
Proof.
  induction l as [|d l IH].
  - cbn [app be_chars List.length]. change (2 ^ Z.of_nat 0) with 1. lia.
  - change ((d :: l) ++ [c]) with (d :: (l ++ [c])).
    cbn [be_chars]. rewrite IH, length_app. cbn [List.length].
    replace (List.length l + 1)%nat with (S (List.length l)) by lia.
    rewrite pow2_succ_nat. ring.
Qed.

Lemma le_chars_app (l : list ascii) (c : ascii) :
  le_chars (l ++ [c]) = le_chars l + 2 ^ Z.of_nat (List.length l) * char_bit c.
Proof.
  induction l as [|d l IH].
  - cbn [app le_chars List.length]. change (2 ^ Z.of_nat 0) with 1. lia.
  - change ((d :: l) ++ [c]) with (d :: (l ++ [c])).
    cbn [le_chars List.length]. rewrite IH, pow2_succ_nat. ring.
Qed.

Lemma le_chars_rev (l : list ascii) : le_chars (rev l) = be_chars l.
Proof.
  induction l as [|c l IH]; [reflexivity |].
  cbn [rev be_chars]. rewrite le_chars_app, length_rev, IH. ring.
Qed.

Lemma split_step_fold (l : list ascii) (s e : Z) :
  fold_left split_step l (s, e)
  = (s + e * le_chars l, e * 2 ^ Z.of_nat (List.length l)).
Proof.
  revert s e. induction l as [|c l IH]; intros s e.
  - cbn [fold_left le_chars List.length]. change (2 ^ Z.of_nat 0) with 1.
    f_equal; lia.
  - cbn [fold_left List.length le_chars]. unfold split_step at 2.
    rewrite IH, pow2_succ_nat. unfold char_bit.
    destruct (Ascii.eqb c "1"); f_equal; ring.
Qed.

Lemma bit_values_sum_correct (bits : list ascii) :
  fst (fold_left split_step (rev bits) (0, 1)) = be_chars bits.
Proof. rewrite split_step_fold, le_chars_rev. cbn [fst]. lia. Qed.

Lemma bin_pos_value (p : positive) : be_chars (Py.bin_pos p) = Zpos p.
Proof.
  induction p as [q IH | q IH |]; cbn [Py.bin_pos].
  - rewrite be_chars_app, IH. reflexivity.
  - rewrite be_chars_app, IH. reflexivity.
  - reflexivity.
Qed.

Lemma bin_pos_bits (p : positive) : Forall is_bit_char (Py.bin_pos p).
Proof.
  induction p as [q IH | q IH |]; cbn [Py.bin_pos].
  - apply Forall_app. split; [exact IH |].
    constructor; [right; reflexivity | constructor].
  - apply Forall_app. split; [exact IH |].
    constructor; [left; reflexivity | constructor].
  - constructor; [right; reflexivity | constructor].
Qed.

Lemma bin_pos_length_size (p : positive) :
  List.length (Py.bin_pos p) = Pos.size_nat p.
Proof.
  induction p as [q IH | q IH |]; cbn [Py.bin_pos Pos.size_nat];
    rewrite ?length_app, ?IH; simpl; lia.
Qed.

Lemma size_nat_size (p : positive) : Z.of_nat (Pos.size_nat p) = Zpos (Pos.size p).
Proof.
  induction p as [q IH | q IH |]; cbn [Pos.size_nat Pos.size];
    rewrite ?Nat2Z.inj_succ, ?IH; lia.
Qed.

Lemma bin_pos_length (p : positive) :
  Z.of_nat (List.length (Py.bin_pos p)) = Z.log2 (Zpos p) + 1.
Proof.
  rewrite bin_pos_length_size.
  destruct p as [q | q |]; cbn [Pos.size_nat Z.log2];
    rewrite ?Nat2Z.inj_succ, ?size_nat_size; lia.
Qed.

Lemma bin_pos_head (p : positive) :
  exists rest, Py.bin_pos p = "1"%char :: rest.
Proof.
  induction p as [q [r IH] | q [r IH] |]; cbn [Py.bin_pos].
  - rewrite IH. eexists. reflexivity.
  - rewrite IH. eexists. reflexivity.
  - eexists. reflexivity.
Qed.

(** The digits of [bin(n)[2:]] for a natural number [n]. *)
Lemma bin_digits (n : Z) :
  0 <= n ->
  let s := Py.drop2 (Py.bin n) in
  be_chars s = n /\ Forall is_bit_char s /\
  Z.of_nat (List.length s) = binary_length n /\
  exists c rest, s = c :: rest /\ Py.is_sign c = false.
Proof.
  intros Hn. destruct n as [|p|p]; [| | lia]; cbn [Py.bin Py.drop2 skipn app].
  - split; [reflexivity |]. split.
    + constructor; [left; reflexivity | constructor].
    + split; [reflexivity |]. exists "0"%char, []. split; reflexivity.
  - split; [apply bin_pos_value |]. split; [apply bin_pos_bits |].
    split; [apply bin_pos_length |].
    destruct (bin_pos_head p) as [r Hr]. exists "1"%char, r.
    split; [exact Hr | reflexivity].
Qed.

Lemma be_chars_zeros (k : nat) (s : list ascii) :
  be_chars (repeat "0"%char k ++ s) = be_chars s.
Proof.
  induction k as [|k IH]; [reflexivity |].
  cbn [repeat app be_chars]. rewrite IH. unfold char_bit. cbn [Ascii.eqb].
  simpl. reflexivity.
Qed.

Lemma zfill_digits (s : list ascii) (width : Z) :
  (exists c rest, s = c :: rest /\ Py.is_sign c = false) ->
  Forall is_bit_char s ->
  let t := Py.zfill s width in
  be_chars t = be_chars s /\ Forall is_bit_char t /\
  Z.of_nat (List.length t) = Z.max width (Z.of_nat (List.length s)).
Proof.
  intros (c & rest & -> & Hc) Hbits. unfold Py.zfill. rewrite Hc.
  set (k := Z.to_nat (width - Z.of_nat (List.length (c :: rest)))).
  split; [apply be_chars_zeros |]. split.
  - apply Forall_app. split; [| exact Hbits].
    apply Forall_forall. intros x Hx. apply repeat_spec in Hx. left. exact Hx.
  - rewrite length_app, repeat_length. subst k. lia.
Qed.

(** ** [split] *)

(** A wire of the group [g]. *)
Definition in_group (g : WireGroup) (w : Wire) : Prop :=
  modulus w = group_modulus g.

Definition is_bit (w : Wire) : Prop := value w = 0 \/ value w = 1.

(** The weighted sum of a big-endian list of wires:
    the sum of [out[i] * 2^(len(out) - 1 - i)]. *)
Fixpoint big_endian_sum (out : list Wire) : Z :=
  match out with
  | [] => 0
  | w :: out' => value w * 2 ^ Z.of_nat (List.length out') + big_endian_sum out'
  end.

(** The wires [split] makes from a digit string. *)
Definition bit_wires_of (g : WireGroup) (bits : list ascii) : list Wire :=
  map (fun c => gen g (char_bit c) false) bits.

Lemma int_of_char_bit (c : ascii) (s : Counters) :
  is_bit_char c -> Py.int_of_char c s = (inr (char_bit c), s).
Proof. intros [-> | ->]; reflexivity. Qed.

Lemma mapM_bit_wires (g : WireGroup) (bits : list ascii) (s : Counters) :
  Forall is_bit_char bits ->
  mapM (fun bit => v <- Py.int_of_char bit ;; ret (gen g v false)) bits s
  = (inr (bit_wires_of g bits), s).
Proof.
  induction 1 as [|c l Hc Hl IH]; [reflexivity |].
  cbn [mapM]. unfold bind in *.
  rewrite (int_of_char_bit c s Hc). unfold ret at 1.
  rewrite IH. reflexivity.
Qed.

Lemma bit_wires_sum (g : WireGroup) (bits : list ascii) :
  big_endian_sum (bit_wires_of g bits) = be_chars bits.
Proof.
  induction bits as [|c l IH]; [reflexivity |].
  cbn [bit_wires_of map big_endian_sum be_chars].
  fold (bit_wires_of g l). rewrite IH. unfold bit_wires_of at 1.
  rewrite length_map. reflexivity.
Qed.

Lemma bit_wires_are_bits (g : WireGroup) (bits : list ascii) :
  Forall (fun w => is_bit w /\ in_group g w) (bit_wires_of g bits).
Proof.
  unfold bit_wires_of. apply Forall_forall. intros w Hw.
  apply in_map_iff in Hw. destruct Hw as (c & <- & _).
  split; [| reflexivity]. unfold is_bit, char_bit. simpl.
  destruct (Ascii.eqb c "1"); [right | left]; reflexivity.
Qed.

Lemma assert_equal_int_wire (g : WireGroup) (n : Z) (w : Wire) :
  in_group g w -> n = value w ->
  returns (assert_equal g [Int n] [W w]) (fun _ => True).
Proof.
  intros Hg -> s. exists tt, s. split; [| exact I].
  destruct w as [v m c]. cbv [in_group modulus] in Hg. subst m.
  cbv [assert_equal py_sum py_mul bind __rmul__ __mul__ __radd__ __add__
         fold_left py_add nonconst_wire ret int_of gen value modulus is_const].
  replace (1 * (0 + v)) with (v + 0) by ring.
  rewrite Z.eqb_refl. reflexivity.
Qed.

Lemma assert_bit_ok (w : Wire) : is_bit w -> returns (assert_bit w) (fun _ => True).
Proof.
  intros Hb s.
  assert (E : (value w * ((modulus w - value w + 1) mod modulus w)) mod modulus w = 0).
  { destruct Hb as [-> | ->].
    - rewrite Z.mul_0_l. apply Zmod_0_l.
    - replace (modulus w - 1 + 1) with (modulus w) by ring.
      rewrite Z_mod_same_full, Z.mul_0_r. apply Zmod_0_l. }
  destruct w as [v m c]. cbv [value modulus] in E.
  cbv [assert_bit bind __mul__ __rsub__ __radd__ __add__ __neg__
         nonconst_wire is_const value modulus int_of ret].
  destruct c; cbv [negb count_mul]; rewrite E;
    eexists; eexists; (split; [reflexivity | exact I]).
Qed.

(** [split] on a wire with a natural value raises nothing: its result
    is the wires of the digits of [bin(value)[2:].zfill(L)]. *)
Lemma split_digits (g : WireGroup) (w : Wire) (L : Z) :
  0 <= value w -> in_group g w ->
  returns (split g w (Some L))
    (fun out => out = bit_wires_of g (Py.zfill (Py.drop2 (Py.bin (value w))) L)).
Proof.
  intros Hv Hg. unfold split.
  destruct (bin_digits (value w) Hv) as (Hval & Hbits & Hlen & Hhead).
  destruct (zfill_digits _ L Hhead Hbits) as (Hval' & Hbits' & Hlen').
  set (bits := Py.zfill (Py.drop2 (Py.bin (value w))) L) in *.
  apply returns_bind with (P := fun out => out = bit_wires_of g bits).
  { intros s. exists (bit_wires_of g bits), s.
    split; [apply mapM_bit_wires; exact Hbits' | reflexivity]. }
  intros out ->. eapply returns_bind.
  { apply assert_equal_int_wire; [exact Hg |].
    rewrite bit_values_sum_correct, Hval'. exact Hval. }
  intros _ _. eapply returns_bind.
  { apply returns_forM_. intros b Hb. apply assert_bit_ok.
    pose proof (bit_wires_are_bits g bits) as HF.
    rewrite Forall_forall in HF. apply HF. exact Hb. }
  intros _ _. apply returns_ret. reflexivity.
Qed.

(** What [split] returns, in terms of the value of the wire. *)
Lemma split_spec (g : WireGroup) (w : Wire) (L : Z) :
  0 <= value w -> in_group g w ->
  returns (split g w (Some L))
    (fun out =>
       Z.of_nat (List.length out) = Z.max L (binary_length (value w)) /\
       Forall (fun b => is_bit b /\ in_group g b) out /\
       big_endian_sum out = value w).
Proof.
  intros Hv Hg. eapply returns_weaken; [apply split_digits; assumption |].
  intros out ->.
  destruct (bin_digits (value w) Hv) as (Hval & Hbits & Hlen & Hhead).
  destruct (zfill_digits _ L Hhead Hbits) as (Hval' & Hbits' & Hlen').
  split; [| split].
  - unfold bit_wires_of. rewrite length_map, Hlen', Hlen. reflexivity.
  - apply bit_wires_are_bits.
  - rewrite bit_wires_sum, Hval'. exact Hval.
Qed.

Lemma binary_length_small (n L : Z) :
  1 <= L -> 0 <= n < 2 ^ L -> binary_length n <= L.
Proof.
  intros HL [Hn0 Hn]. unfold binary_length.
  destruct (Z.eqb_spec n 0) as [-> | Hne]; [lia |].
  assert (Z.log2 n < L) by (apply Z.log2_lt_pow2; lia). lia.
Qed.

Lemma binary_length_large (n L : Z) :
  0 <= L -> 2 ^ L <= n -> L < binary_length n /\ binary_length n = Z.log2 n + 1.
Proof.
  intros HL Hn. unfold binary_length.
  assert (0 < 2 ^ L) by (apply Z.pow_pos_nonneg; lia).
  destruct (Z.eqb_spec n 0) as [-> | Hne]; [lia |].
  assert (L <= Z.log2 n) by (apply Z.log2_le_pow2; lia). lia.
Qed.

Definition g11 : WireGroup := mkWireGroup 11.

(** C5 (as the code has it).  For a bit length [L >= 1] and a wire of
    the group whose value lies in [[0, 2^L)], [split] raises nothing
    and returns exactly [L] wires, each with value 0 or 1, whose
    big-endian weighted sum is the value of the wire. *)
Theorem C5_split_roundtrip (g : WireGroup) (w : Wire) (L : Z) :
  0 < group_modulus g -> in_group g w ->
  1 <= L -> 0 <= value w < 2 ^ L ->
  returns (split g w (Some L))
    (fun out =>
       Z.of_nat (List.length out) = L /\
       Forall is_bit out /\
       big_endian_sum out = value w).
Proof.
  intros _ Hg HL Hv.
  eapply returns_weaken; [apply (split_spec g w L); [lia | exact Hg] |].
  intros out (Hlen & Hbits & Hsum).
  pose proof (binary_length_small (value w) L HL Hv) as Hbl.
  split; [lia |]. split; [| exact Hsum].
  eapply Forall_impl; [| exact Hbits]. intros b [Hb _]. exact Hb.
Qed.

Lemma C5_split_roundtrip_witness :
  returns (split g11 (gen g11 5 false) (Some 3))
    (fun out =>
       Z.of_nat (List.length out) = 3 /\
       Forall is_bit out /\
       big_endian_sum out = value (gen g11 5 false)).
Proof.
  apply (C5_split_roundtrip g11 (gen g11 5 false) 3);
    [reflexivity | reflexivity | lia | simpl; lia].
Defined.

(** C5 fails for the bit length 0: the value 0 lies in [[0, 2^0)], and
    [split] returns one wire, not zero. *)
Lemma C5_split_zero_length :
  ~ returns (split g11 (gen g11 0 false) (Some 0))
      (fun out => Z.of_nat (List.length out) = 0).
Proof.
  intros H. destruct (H (mkCounters 0 0)) as (out & s' & E & Hlen).
  vm_compute in E. injection E as <- _. discriminate Hlen.
Qed.

(** C10.  For a bit length [L >= 0] and a wire with [value >= 2^L],
    [split] raises nothing: it returns more than [L] wires, as many as
    the value has binary digits, each with value 0 or 1, and their
    big-endian weighted sum is still the value of the wire. *)
Theorem C10_split_no_truncation (g : WireGroup) (w : Wire) (L : Z) :
  0 < group_modulus g -> in_group g w ->
  0 <= L -> 2 ^ L <= value w ->
  returns (split g w (Some L))
    (fun out =>
       L < Z.of_nat (List.length out) /\
       Z.of_nat (List.length out) = Z.log2 (value w) + 1 /\
       Forall is_bit out /\
       big_endian_sum out = value w).
Proof.
  intros _ Hg HL Hv.
  assert (0 < 2 ^ L) by (apply Z.pow_pos_nonneg; lia).
  eapply returns_weaken; [apply (split_spec g w L); [lia | exact Hg] |].
  intros out (Hlen & Hbits & Hsum).
  destruct (binary_length_large (value w) L HL Hv) as [Hbl1 Hbl2].
  split; [lia |]. split; [lia |]. split; [| exact Hsum].
  eapply Forall_impl; [| exact Hbits]. intros b [Hb _]. exact Hb.
Qed.

Lemma C10_split_no_truncation_witness :
  returns (split g11 (gen g11 7 false) (Some 2))
    (fun out =>
       2 < Z.of_nat (List.length out) /\
       Z.of_nat (List.length out) = Z.log2 (value (gen g11 7 false)) + 1 /\
       Forall is_bit out /\
       big_endian_sum out = value (gen g11 7 false)).
Proof.
  apply (C10_split_no_truncation g11 (gen g11 7 false) 2);
    [reflexivity | reflexivity | lia | simpl; lia].
Defined.

(** ** Comparison gates *)

Lemma bit_length_log2 (g : WireGroup) :
  0 < group_modulus g -> bit_length g = Z.log2 (group_modulus g) + 1.
Proof.
  intros Hp. unfold bit_length.
  destruct (bin_digits (group_modulus g)) as (_ & _ & Hlen & _); [lia |].
  rewrite Hlen. unfold binary_length.
  destruct (Z.eqb_spec (group_modulus g) 0); [lia | reflexivity].
Qed.

Lemma mul_returns (a : Wire) (b : num) :
  returns (__mul__ a b)
    (fun r => value r = (value a * int_of b) mod modulus a /\
              modulus r = modulus a).
Proof.
  intros s. unfold __mul__, bind.
  destruct (nonconst_wire b); eexists; eexists;
    (split; [reflexivity | split; reflexivity]).
Qed.

(** Congruence modulo [p] is compatible with [+], [-] and [*]: the
    inner reductions of a polynomial expression reduced modulo [p] can
    be dropped. *)
#[local] Existing Instances eqm_setoid Zplus_eqm Zminus_eqm Zmult_eqm Zopp_eqm.

Ltac pull_mod :=
  match goal with
  | |- ?a mod ?p = ?b mod ?p =>
      change (eqm p a b); repeat rewrite (Zmod_eqm p); unfold eqm
  end.

Lemma mod_add_multiple (a b k p : Z) : a = b + k * p -> a mod p = b mod p.
Proof. intros ->. apply Z_mod_plus_full. Qed.

Lemma mod_eq_zero (a p : Z) : a mod p = 0 mod p -> a mod p = 0.
Proof. intros ->. apply Zmod_0_l. Qed.

Lemma assert_equal_wires (g : WireGroup) (x y : Wire) :
  in_group g x -> in_group g y ->
  value x mod group_modulus g = value y mod group_modulus g ->
  returns (assert_equal g [W x] [W y]) (fun _ => True).
Proof.
  intros Hx Hy E s.
  destruct x as [vx mx cx], y as [vy my cy].
  cbv [in_group modulus] in Hx, Hy. subst mx my. cbv [value] in E.
  cbv [assert_equal py_sum py_mul bind __rmul__ __mul__ __radd__ __add__
         fold_left py_add nonconst_wire ret int_of gen value modulus is_const
         negb count_mul].
  assert (E' : ((vx + 0) mod group_modulus g * 1) mod group_modulus g
               = (vy + 0) mod group_modulus g).
  { rewrite Z.mul_1_r, Zmod_mod, !Z.add_0_r. exact E. }
  rewrite E', Z.eqb_refl.
  eexists; eexists; (split; [reflexivity | exact I]).
Qed.

(** [gt] on wires of the group raises nothing once the bound on [bits]
    holds, and returns the indicator of [int(a) >= int(b)]. *)
Lemma gt_spec (g : WireGroup) (a b : Wire) (bits : Z) :
  0 < group_modulus g -> in_group g a -> in_group g b ->
  bits <= bit_length g / 2 ->
  returns (comparison.gt g a b bits)
    (fun r => r = gen g (if value a >=? value b then 1 else 0) false).
Proof.
  intros Hp Ha Hb Hbits. unfold comparison.gt.
  destruct (Z.gtb_spec bits (bit_length g / 2)) as [Hgt | _]; [lia |].
  set (p := group_modulus g) in *.
  set (diff_wire := __sub__ a (W b)).
  assert (Hd : value diff_wire = (value a + (p - value b)) mod p).
  { subst diff_wire. unfold __sub__, __add__, neg_num, __neg__. simpl.
    rewrite Ha, Hb. reflexivity. }
  assert (Hdg : in_group g diff_wire) by exact Ha.
  assert (Hdr : 0 <= value diff_wire < p).
  { rewrite Hd. apply Z.mod_pos_bound. exact Hp. }
  set (d := value diff_wire) in *.
  destruct (value a >=? value b).
  - (* int(a) >= int(b) *)
    eapply returns_bind; [apply (split_digits g (gen g d false) bits); [simpl; lia | reflexivity] |].
    intros _ _. eapply returns_bind; [apply assert_bit_ok; right; reflexivity |].
    intros _ _. eapply returns_bind; [apply mul_returns |].
    intros twice [Ht Htm]. eapply returns_bind; [apply mul_returns |].
    intros lhs [Hl Hlm]. eapply returns_bind; [| intros _ _; apply returns_ret; reflexivity].
    apply assert_equal_wires.
    + unfold in_group. rewrite Hlm, Htm. reflexivity.
    + exact Hdg.
    + rewrite Hl, Ht, Htm. cbn [int_of gen value modulus __sub__ __add__ neg_num __neg__].
      rewrite Hdg. fold p. fold d. pull_mod.
      apply mod_add_multiple with (k := -1). ring.
  - (* int(a) < int(b) *)
    eapply returns_bind;
      [apply (split_digits g (gen g (p - d - 1) false) bits); [simpl; lia | reflexivity] |].
    intros _ _. eapply returns_bind; [apply assert_bit_ok; left; reflexivity |].
    intros _ _. eapply returns_bind; [apply mul_returns |].
    intros twice [Ht Htm]. eapply returns_bind; [apply mul_returns |].
    intros lhs [Hl Hlm]. eapply returns_bind; [| intros _ _; apply returns_ret; reflexivity].
    apply assert_equal_wires.
    + unfold in_group. rewrite Hlm, Htm. reflexivity.
    + exact Hdg.
    + rewrite Hl, Ht, Htm. cbn [int_of gen value modulus __sub__ __add__ neg_num __neg__].
      rewrite Hdg. fold p. fold d. pull_mod.
      apply mod_add_multiple with (k := -2). ring.
Qed.

Lemma log2_half_le_bit_length_half (g : WireGroup) :
  0 < group_modulus g -> Z.log2 (group_modulus g) / 2 <= bit_length g / 2.
Proof.
  intros Hp. rewrite bit_length_log2 by exact Hp.
  apply Z.div_le_mono; lia.
Qed.

(** Small primes, by trial division. *)
Ltac prove_small_prime :=
  split; [lia |];
  let n := fresh "n" in let Hn := fresh "Hn" in let Hd := fresh "Hd" in
  intros n Hn Hd; apply Z.mod_divide in Hd; [| lia];
  repeat match goal with
    | H : 1 < ?n < ?p |- _ =>
        assert (n = p - 1 \/ 1 < n < p - 1) as [-> | ?] by lia;
        [ discriminate Hd | clear H ]; simpl Z.sub in *
    end; lia.

Lemma prime_11 : Z.prime 11.
Proof. prove_small_prime. Qed.

Lemma prime_13 : Z.prime 13.
Proof. prove_small_prime. Qed.

(** C2.  Over a prime modulus [p], with [bits <= floor(log2(p) / 2)]
    and two wires of the group whose values lie in [[0, 2^bits)], [gt]
    raises nothing and returns a wire of value 1 when
    [int(a) >= int(b)] and of value 0 otherwise; [lt(a, b)] is
    [gt(b, a)]. *)
Theorem C2_gt_lt (g : WireGroup) (a b : Wire) (bits : Z) :
  Z.prime (group_modulus g) ->
  bits <= Z.log2 (group_modulus g) / 2 ->
  in_group g a -> in_group g b ->
  0 <= value a < 2 ^ bits -> 0 <= value b < 2 ^ bits ->
  returns (comparison.gt g a b bits)
    (fun r => value r = if value a >=? value b then 1 else 0) /\
  comparison.lt g a b bits = comparison.gt g b a bits.
Proof.
  intros Hprime Hbits Ha Hb _ _.
  assert (Hp : 0 < group_modulus g) by (pose proof (Z.prime_ge_2 _ Hprime); lia).
  split; [| reflexivity].
  eapply returns_weaken.
  - apply gt_spec; try assumption.
    pose proof (log2_half_le_bit_length_half g Hp). lia.
  - intros r ->. reflexivity.
Qed.

Lemma C2_gt_lt_witness :
  returns (comparison.gt g11 (gen g11 1 false) (gen g11 0 false) 1)
    (fun r => value r = if value (gen g11 1 false) >=? value (gen g11 0 false)
                        then 1 else 0) /\
  comparison.lt g11 (gen g11 1 false) (gen g11 0 false) 1
  = comparison.gt g11 (gen g11 0 false) (gen g11 1 false) 1.
Proof.
  apply (C2_gt_lt g11 (gen g11 1 false) (gen g11 0 false) 1);
    [exact prime_11 | vm_compute; discriminate | reflexivity | reflexivity
    | simpl; lia | simpl; lia].
Defined.

(** ** The bound on [bits] *)

Definition is_bits_error (e : exn) : bool :=
  match e with
  | ValueError (BitsTooLarge _ _) => true
  | _ => false
  end.

(** [m] may raise, but never the error of the bound on [bits]. *)
Definition no_bits_error {A} (m : M A) : Prop :=
  forall s e s', m s = (inl e, s') -> is_bits_error e = false.

Lemma nbe_ret {A} (a : A) : no_bits_error (ret a).
Proof. intros s e s' H. discriminate H. Qed.

Lemma nbe_raise {A} (e : exn) : is_bits_error e = false -> no_bits_error (@raise A e).
Proof. intros He s e' s' H. injection H as <- _. exact He. Qed.

Lemma nbe_bind {A B} (m : M A) (k : A -> M B) :
  no_bits_error m -> (forall a, no_bits_error (k a)) -> no_bits_error (bind m k).
Proof.
  intros Hm Hk s e s' H. unfold bind in H.
  destruct (m s) as [[e1 | a] s1] eqn:E.
  - injection H as <- <-. exact (Hm _ _ _ E).
  - exact (Hk a _ _ _ H).
Qed.

Lemma nbe_if {A} (c : bool) (m1 m2 : M A) :
  no_bits_error m1 -> no_bits_error m2 -> no_bits_error (if c then m1 else m2).
Proof. destruct c; trivial. Qed.

Lemma nbe_mapM {A B} (f : A -> M B) (l : list A) :
  (forall a, no_bits_error (f a)) -> no_bits_error (mapM f l).
Proof.
  intros Hf. induction l as [|a l IH]; cbn [mapM].
  - apply nbe_ret.
  - apply nbe_bind; [apply Hf |]. intros b.
    apply nbe_bind; [exact IH |]. intros bs. apply nbe_ret.
Qed.

Lemma nbe_forM_ {A} (f : A -> M unit) (l : list A) :
  (forall a, no_bits_error (f a)) -> no_bits_error (forM_ f l).
Proof.
  intros Hf. induction l as [|a l IH]; cbn [forM_].
  - apply nbe_ret.
  - apply nbe_bind; [apply Hf |]. intros _. exact IH.
Qed.

Lemma nbe_mul (a : Wire) (b : num) : no_bits_error (__mul__ a b).
Proof.
  unfold __mul__. apply nbe_bind.
  - apply nbe_if; [intros s e s' H; discriminate H | apply nbe_ret].
  - intros _. apply nbe_ret.
Qed.

Lemma nbe_py_mul (a b : num) : no_bits_error (py_mul a b).
Proof.
  destruct a as [x | w], b as [y | v]; cbn [py_mul];
    try apply nbe_ret;
    (apply nbe_bind; [apply nbe_mul | intros r; apply nbe_ret]).
Qed.

Lemma nbe_assert_equal (g : WireGroup) (l1 l2 : list num) :
  no_bits_error (assert_equal g l1 l2).
Proof.
  unfold assert_equal. apply nbe_bind; [apply nbe_py_mul |].
  intros r. apply nbe_if; [apply nbe_ret | apply nbe_raise; reflexivity].
Qed.

Lemma nbe_assert_bit (w : Wire) : no_bits_error (assert_bit w).
Proof.
  unfold assert_bit. apply nbe_bind; [apply nbe_mul |].
  intros r. apply nbe_if; [apply nbe_ret | apply nbe_raise; reflexivity].
Qed.

Lemma nbe_split (g : WireGroup) (w : Wire) (L : option Z) :
  no_bits_error (split g w L).
Proof.
  unfold split. apply nbe_bind.
  - apply nbe_mapM. intros c. apply nbe_bind; [| intros v; apply nbe_ret].
    unfold Py.int_of_char. apply nbe_if; [apply nbe_ret | apply nbe_raise; reflexivity].
  - intros bs. apply nbe_bind; [apply nbe_assert_equal |].
    intros _. apply nbe_bind; [| intros _; apply nbe_ret].
    apply nbe_forM_. apply nbe_assert_bit.
Qed.

(** Past its check of [bits], [gt] never raises the error of the bound. *)
Lemma gt_bound_passed (g : WireGroup) (a b : Wire) (bits : Z) :
  bits <= bit_length g / 2 -> no_bits_error (comparison.gt g a b bits).
Proof.
  intros Hbits. unfold comparison.gt.
  destruct (Z.gtb_spec bits (bit_length g / 2)) as [Hgt | _]; [lia |].
  destruct (value a >=? value b);
    (apply nbe_bind; [apply nbe_split |]; intros _;
     apply nbe_bind; [apply nbe_assert_bit |]; intros _;
     apply nbe_bind; [apply nbe_mul |]; intros t;
     apply nbe_bind; [apply nbe_mul |]; intros l;
     apply nbe_bind; [apply nbe_assert_equal |]; intros _; apply nbe_ret).
Qed.

Lemma assert_gt_bound_passed (g : WireGroup) (a b : Wire) (bits : Z) :
  bits <= bit_length g / 2 -> no_bits_error (assert_gt g a b bits).
Proof.
  intros Hbits. unfold assert_gt.
  destruct (Z.gtb_spec bits (bit_length g / 2)) as [Hgt | _]; [lia |].
  apply nbe_bind.
  { apply nbe_if; [apply nbe_ret | apply nbe_raise; reflexivity]. }
  intros v. apply nbe_bind; [apply nbe_split |]. intros _.
  apply nbe_bind; [apply nbe_mul |]. intros t. apply nbe_assert_equal.
Qed.

(** [m] raises the error of the bound on [bits] from the state [s]. *)
Definition raises_bits_error {A} (m : M A) (s : Counters) : Prop :=
  exists bits max_bits s',
    m s = (inl (ValueError (BitsTooLarge bits max_bits)), s').

Lemma raises_bits_error_spec {A} (m : M A) (s : Counters) :
  raises_bits_error m s <->
  exists e s', m s = (inl e, s') /\ is_bits_error e = true.
Proof.
  split.
  - intros (x & y & s' & E). exists (ValueError (BitsTooLarge x y)), s'.
    split; [exact E | reflexivity].
  - intros (e & s' & E & He). destruct e as [[x y| | | | | | |] | | | |];
      try discriminate He. exists x, y, s'. exact E.
Qed.

(** C4 (as the code has it).  Over a positive modulus [p], the check of
    [gt] and of [assert_gt] raises its [ValueError] exactly when
    [bits > floor((floor(log2(p)) + 1) / 2)], half the bit length of
    [p], whatever the wires are; below that bound no such error is
    raised. *)
Theorem C4_bound_check (g : WireGroup) (a b : Wire) (bits : Z) (s : Counters) :
  0 < group_modulus g ->
  (raises_bits_error (comparison.gt g a b bits) s
   <-> bits > (Z.log2 (group_modulus g) + 1) / 2) /\
  (raises_bits_error (assert_gt g a b bits) s
   <-> bits > (Z.log2 (group_modulus g) + 1) / 2).
Proof.
  intros Hp. rewrite <- (bit_length_log2 g Hp).
  split; split.
  - intros H. apply raises_bits_error_spec in H. destruct H as (e & s' & E & He).
    destruct (Z_le_gt_dec bits (bit_length g / 2)) as [Hle | Hgt]; [| exact Hgt].
    rewrite (gt_bound_passed g a b bits Hle _ _ _ E) in He. discriminate He.
  - intros Hgt. exists bits, (bit_length g / 2), s. unfold comparison.gt.
    destruct (Z.gtb_spec bits (bit_length g / 2)); [reflexivity | lia].
  - intros H. apply raises_bits_error_spec in H. destruct H as (e & s' & E & He).
    destruct (Z_le_gt_dec bits (bit_length g / 2)) as [Hle | Hgt]; [| exact Hgt].
    rewrite (assert_gt_bound_passed g a b bits Hle _ _ _ E) in He. discriminate He.
  - intros Hgt. exists bits, (bit_length g / 2), s. unfold assert_gt.
    destruct (Z.gtb_spec bits (bit_length g / 2)); [reflexivity | lia].
Qed.

Lemma C4_bound_check_witness :
  (raises_bits_error
     (comparison.gt g11 (gen g11 1 false) (gen g11 0 false) 3) (mkCounters 0 0)
   <-> 3 > (Z.log2 (group_modulus g11) + 1) / 2) /\
  (raises_bits_error
     (assert_gt g11 (gen g11 1 false) (gen g11 0 false) 3) (mkCounters 0 0)
   <-> 3 > (Z.log2 (group_modulus g11) + 1) / 2).
Proof.
  apply (C4_bound_check g11 (gen g11 1 false) (gen g11 0 false) 3 (mkCounters 0 0)).
  reflexivity.
Defined.

(** C4 fails as stated: for [p = 11], [bits = 2] exceeds
    [floor(log2(11) / 2) = 1], and [gt] raises nothing. *)
Lemma C4_bits_two_modulus_eleven :
  ~ (raises_bits_error
       (comparison.gt g11 (gen g11 1 false) (gen g11 0 false) 2) (mkCounters 0 0)
     <-> 2 > Z.log2 (group_modulus g11) / 2).
Proof.
  intros [_ H]. destruct H as (x & y & s' & E); [vm_compute; reflexivity |].
  vm_compute in E. discriminate E.
Qed.

(** ** Gates over a prime field *)

(** A wire of the group whose value is the canonical residue. *)
Definition reduced_in (g : WireGroup) (w : Wire) : Prop :=
  in_group g w /\ 0 <= value w < group_modulus g.

Lemma gen_reduced (g : WireGroup) (v : Z) (c : bool) :
  0 <= v < group_modulus g -> reduced_in g (gen g v c).
Proof. intros H. split; [reflexivity | exact H]. Qed.

Lemma reduced_in_group (g : WireGroup) (w : Wire) : reduced_in g w -> in_group g w.
Proof. intros [H _]. exact H. Qed.

Create HintDb wires.
#[local] Hint Resolve reduced_in_group gen_reduced : wires.

Section PrimeField.

Variable g : WireGroup.
Let p := group_modulus g.
Hypothesis Hprime : Z.prime p.

Lemma p_ge_2 : 2 <= p.
Proof. apply Z.prime_ge_2. exact Hprime. Qed.

Lemma p_pos : 0 < p.
Proof. pose proof p_ge_2. lia. Qed.

Lemma mod_p_bound (x : Z) : 0 <= x mod p < p.
Proof. apply Z.mod_pos_bound. exact p_pos. Qed.

Lemma add_reduced (a : Wire) (b : num) :
  in_group g a ->
  reduced_in g (__add__ a b) /\
  value (__add__ a b) = (value a + int_of b) mod p.
Proof.
  intros Ha. unfold reduced_in, in_group, __add__. cbn [value modulus].
  rewrite Ha. fold p. split; [split; [reflexivity | apply mod_p_bound] | reflexivity].
Qed.

Lemma sub_reduced (a b : Wire) :
  in_group g a -> in_group g b ->
  reduced_in g (__sub__ a (W b)) /\
  value (__sub__ a (W b)) = (value a + (p - value b)) mod p.
Proof.
  intros Ha Hb. unfold __sub__. destruct (add_reduced a (neg_num (W b)) Ha) as [H1 H2].
  split; [exact H1 |]. rewrite H2. cbn [neg_num int_of __neg__ value].
  rewrite Hb. reflexivity.
Qed.

Lemma sub_int_reduced (a : Wire) (n : Z) :
  in_group g a ->
  reduced_in g (__sub__ a (Int n)) /\
  value (__sub__ a (Int n)) = (value a + - n) mod p.
Proof. intros Ha. unfold __sub__. exact (add_reduced a (Int (- n)) Ha). Qed.

Lemma rsub_reduced (a : Wire) (n : Z) :
  in_group g a ->
  reduced_in g (__rsub__ a n) /\
  value (__rsub__ a n) = (p - value a + n) mod p.
Proof.
  intros Ha. unfold __rsub__, __radd__.
  destruct (add_reduced (__neg__ a) (Int n)) as [H1 H2]; [exact Ha |].
  split; [exact H1 |]. rewrite H2. cbn [__neg__ value int_of].
  rewrite Ha. reflexivity.
Qed.

Lemma neg_in_group (a : Wire) : in_group g a -> in_group g (__neg__ a).
Proof. intros Ha. exact Ha. Qed.

Lemma mul_reduced (a : Wire) (b : num) :
  in_group g a ->
  returns (__mul__ a b)
    (fun r => reduced_in g r /\ value r = (value a * int_of b) mod p).
Proof.
  intros Ha. eapply returns_weaken; [apply mul_returns |].
  intros r [Hv Hm]. rewrite Ha in Hv, Hm. fold p in Hv.
  split; [split; [exact Hm | rewrite Hv; apply mod_p_bound] | exact Hv].
Qed.

Lemma coprime_reduced (v : Z) : 0 <= v < p -> v <> 0 -> Z.gcd v p = 1.
Proof.
  intros Hv Hne. rewrite Z.gcd_comm.
  apply Z.coprime_prime_small; [exact Hprime | lia].
Qed.

Lemma invmod_reduced (v : Z) :
  0 <= v < p -> v <> 0 -> (v * Z.invmod v p) mod p = 1.
Proof.
  intros Hv Hne. rewrite Z.mul_comm. apply Z.invmod_prime; [exact Hprime |].
  rewrite Z.mod_small by lia. exact Hne.
Qed.

Lemma invert_reduced (a : Wire) :
  reduced_in g a -> value a <> 0 ->
  returns (invert a)
    (fun r => reduced_in g r /\ (value a * value r) mod p = 1).
Proof.
  intros [Ha Hv] Hne s. unfold invert, bind.
  assert (E : forall s0, Py.pow_inv (value a) (modulus a) s0
                         = (inr (Z.invmod (value a) p), s0)).
  { intros s0. rewrite Ha. apply pow_inv_coprime, coprime_reduced; assumption. }
  destruct (is_const a); cbn [ret count_mul]; rewrite E;
    eexists; eexists; (split; [reflexivity |]); cbn [value modulus];
    (split; [split; [exact Ha | apply Z.mod_pos_bound, p_pos]
            | apply invmod_reduced; assumption]).
Qed.

(** [eq_zero] raises nothing on a canonical residue, and returns the
    indicator of [value = 0]. *)
Lemma eq_zero_spec (w : Wire) :
  reduced_in g w ->
  returns (comparison.eq_zero g w)
    (fun r => r = gen g (if value w =? 0 then 1 else 0) false).
Proof.
  intros [Hw Hv]. unfold comparison.eq_zero. pose proof p_ge_2 as Hp2.
  destruct (Z.eqb_spec (value w) 0) as [Hz | Hnz].
  - eapply returns_bind; [apply returns_ret_eq |].
    intros hr ->. eapply returns_bind; [apply (mul_reduced (gen g 1 false)); reflexivity |].
    intros t1 [[Ht1 _] Hv1]. eapply returns_bind.
    { apply assert_equal_wires; [exact Ht1 | reflexivity |].
      rewrite Hv1. cbn [gen value int_of]. rewrite Hz. reflexivity. }
    intros _ _. eapply returns_bind; [apply (mul_reduced w); exact Hw |].
    intros t2 [[Ht2 _] Hv2]. eapply returns_bind.
    { apply assert_equal_wires; [exact Ht2 | apply rsub_reduced; reflexivity |].
      rewrite Hv2, (proj2 (rsub_reduced (gen g 1 false) 1 eq_refl)).
      cbn [gen value int_of]. rewrite Hz. fold p. pull_mod.
      apply mod_add_multiple with (k := -1). ring. }
    intros _ _. apply returns_ret. reflexivity.
  - eapply returns_bind.
    { eapply returns_bind with (P := fun h => h = Z.invmod (value w) p).
      - intros s. eexists. eexists. split; [| reflexivity].
        rewrite Hw. apply pow_inv_coprime, coprime_reduced; assumption.
      - intros h ->. apply returns_ret_eq. }
    intros hr ->. eapply returns_bind; [apply (mul_reduced (gen g 0 false)); reflexivity |].
    intros t1 [[Ht1 _] Hv1]. eapply returns_bind.
    { apply assert_equal_wires; [exact Ht1 | reflexivity |].
      rewrite Hv1. cbn [gen value int_of]. rewrite Z.mul_0_l. reflexivity. }
    intros _ _. eapply returns_bind; [apply (mul_reduced w); exact Hw |].
    intros t2 [[Ht2 _] Hv2]. eapply returns_bind.
    { apply assert_equal_wires; [exact Ht2 | apply rsub_reduced; reflexivity |].
      rewrite Hv2, (proj2 (rsub_reduced (gen g 0 false) 1 eq_refl)).
      cbn [gen value int_of]. fold p. rewrite invmod_reduced by assumption.
      pull_mod. apply mod_add_multiple with (k := -1). ring. }
    intros _ _. apply returns_ret. reflexivity.
Qed.

Lemma eq_spec (a b : Wire) :
  in_group g a -> in_group g b ->
  returns (comparison.eq g a b)
    (fun r => r = gen g (if (value a + (p - value b)) mod p =? 0 then 1 else 0) false).
Proof.
  intros Ha Hb. unfold comparison.eq.
  destruct (sub_reduced a b Ha Hb) as [Hr Hv].
  eapply returns_weaken; [apply eq_zero_spec; exact Hr |].
  intros r ->. rewrite Hv. reflexivity.
Qed.

(** [if_then_else] and [if_then_set_zero] on a condition wire. *)
Lemma if_then_else_spec (c : Wire) (t : num) (e : Wire) :
  in_group g c ->
  returns (if_then_else c t e)
    (fun r => reduced_in g r /\
              (value c = 1 -> value r = int_of t mod p) /\
              (value c = 0 -> value r = value e mod p)).
Proof.
  intros Hc. unfold if_then_else.
  eapply returns_bind; [apply (mul_reduced c t Hc) |].
  intros a [[Ha _] Hva].
  destruct (rsub_reduced c 1 Hc) as [[Hn _] Hvn].
  eapply returns_bind; [apply (mul_reduced (__rsub__ c 1) (W e) Hn) |].
  intros b [[Hb _] Hvb]. apply returns_ret.
  destruct (add_reduced a (W b) Ha) as [Hr Hvr].
  split; [exact Hr |].
  cbn [int_of] in Hvr, Hvb. rewrite Hvr, Hva, Hvb, Hvn. split; intros ->.
  - pull_mod. apply mod_add_multiple with (k := value e). ring.
  - pull_mod. apply mod_add_multiple with (k := value e). ring.
Qed.

Lemma if_then_set_zero_spec (c x : Wire) :
  in_group g c ->
  returns (if_then_set_zero c x)
    (fun r => reduced_in g r /\
              (value c = 1 -> value r = 0) /\
              (value c = 0 -> value r = value x mod p)).
Proof.
  intros Hc. unfold if_then_set_zero.
  destruct (rsub_reduced c 1 Hc) as [[Hn _] Hvn].
  eapply returns_weaken; [apply (mul_reduced (__rsub__ c 1) (W x) Hn) |].
  intros r [Hr Hvr]. split; [exact Hr |].
  cbn [int_of] in Hvr. rewrite Hvr, Hvn. split; intros ->.
  - apply mod_eq_zero. pull_mod.
    apply mod_add_multiple with (k := value x). ring.
  - pull_mod. apply mod_add_multiple with (k := value x). ring.
Qed.

End PrimeField.

Lemma in_group_add (g : WireGroup) (a : Wire) (b : num) :
  in_group g a -> in_group g (__add__ a b).
Proof. intros H. exact H. Qed.

Lemma in_group_sub (g : WireGroup) (a : Wire) (b : num) :
  in_group g a -> in_group g (__sub__ a b).
Proof. intros H. exact H. Qed.

Lemma in_group_rsub (g : WireGroup) (a : Wire) (n : Z) :
  in_group g a -> in_group g (__rsub__ a n).
Proof. intros H. exact H. Qed.

Lemma in_group_neg (g : WireGroup) (a : Wire) :
  in_group g a -> in_group g (__neg__ a).
Proof. intros H. exact H. Qed.

Lemma in_group_gen (g : WireGroup) (v : Z) (c : bool) : in_group g (gen g v c).
Proof. reflexivity. Qed.

#[local] Hint Resolve in_group_add in_group_sub in_group_rsub in_group_neg
  in_group_gen : wires.

(** ** Division and the boolean gates over a prime field *)

Section PrimeFieldGates.

Variable g : WireGroup.
Let p := group_modulus g.
Hypothesis Hprime : Z.prime p.

Lemma add_reduced_any (a : Wire) (b : num) :
  in_group g a -> reduced_in g (__add__ a b).
Proof. intros Ha. apply (add_reduced g Hprime a b Ha). Qed.

Lemma sub_reduced_any (a : Wire) (b : num) :
  in_group g a -> reduced_in g (__sub__ a b).
Proof. intros Ha. unfold __sub__. apply add_reduced_any. exact Ha. Qed.

Lemma rsub_reduced_any (a : Wire) (n : Z) :
  in_group g a -> reduced_in g (__rsub__ a n).
Proof. intros Ha. apply (rsub_reduced g Hprime a n Ha). Qed.

Lemma mul_reduced_any (a : Wire) (b : num) :
  in_group g a -> returns (__mul__ a b) (reduced_in g).
Proof.
  intros Ha. eapply returns_weaken; [apply (mul_reduced g Hprime a b Ha) |].
  intros r [Hr _]. exact Hr.
Qed.

Lemma division_spec (a d : Wire) :
  in_group g a -> reduced_in g d -> value d <> 0 ->
  returns (division a d)
    (fun r => reduced_in g r /\ (value r * value d) mod p = value a mod p).
Proof.
  intros Ha Hd Hne. unfold division.
  destruct (Z.eqb_spec (value d) 0) as [E | _]; [contradiction |].
  eapply returns_bind; [apply (invert_reduced g Hprime d Hd Hne) |].
  intros inv [Hinv Hone].
  eapply returns_weaken; [apply (mul_reduced g Hprime a (W inv) Ha) |].
  intros r [Hr Hv]. split; [exact Hr |].
  cbn [int_of] in Hv. rewrite Hv. fold p. pull_mod.
  replace (value a * value inv * value d) with (value a * (value d * value inv)) by ring.
  rewrite <- Zmult_mod_idemp_r. fold p in Hone. rewrite Hone, Z.mul_1_r. reflexivity.
Qed.

(** The divisor [division_safe] divides by: the divisor itself, or [1]
    when the divisor is zero. *)
Lemma divisor_safe_spec (d : Wire) :
  reduced_in g d ->
  returns (c <- comparison.eq_zero g d ;; if_then_else c (Int 1) d)
    (fun ds => reduced_in g ds /\
               value ds = if value d =? 0 then 1 else value d).
Proof.
  intros Hd. pose proof (p_ge_2 g Hprime) as Hp2. fold p in Hp2.
  eapply returns_bind; [apply (eq_zero_spec g Hprime d Hd) |].
  intros c ->.
  eapply returns_weaken; [apply (if_then_else_spec g Hprime); apply in_group_gen |].
  intros ds (Hds & H1 & H0). split; [exact Hds |].
  destruct Hd as [_ Hdv]. fold p in Hdv.
  destruct (Z.eqb_spec (value d) 0) as [E | E].
  - rewrite (H1 eq_refl). cbn [int_of]. fold p. apply Z.mod_small. lia.
  - rewrite (H0 eq_refl). fold p. apply Z.mod_small. exact Hdv.
Qed.

Lemma division_safe_spec (a d : Wire) :
  in_group g a -> reduced_in g d ->
  returns (division_safe g a d)
    (fun r => reduced_in g r /\
              (value r * (if value d =? 0 then 1 else value d)) mod p
              = value a mod p).
Proof.
  intros Ha Hd. unfold division_safe.
  pose proof (divisor_safe_spec d Hd) as Hds.
  intros s. destruct (Hds s) as (ds & s1 & E & Hdsr & Hdsv).
  unfold bind in E.
  destruct (comparison.eq_zero g d s) as [[e | c] s0] eqn:Ez; [discriminate E |].
  assert (Hne : value ds <> 0).
  { rewrite Hdsv. destruct (Z.eqb_spec (value d) 0); lia. }
  destruct (division_spec a ds Ha Hdsr Hne s1) as (r & s2 & Ediv & Hr & Hv).
  exists r, s2. unfold bind. rewrite Ez, E. split; [exact Ediv |].
  split; [exact Hr |]. rewrite <- Hdsv. exact Hv.
Qed.

Lemma mapM_map {A B C} (f : B -> M C) (h : A -> B) (l : list A) :
  mapM f (map h l) = mapM (fun a => f (h a)) l.
Proof.
  induction l as [|a l IH]; cbn [map mapM]; [reflexivity |]. rewrite IH. reflexivity.
Qed.

Lemma division_safe_multiple_spec (dividends : list Wire) (d : Wire) :
  Forall (in_group g) dividends -> reduced_in g d ->
  returns (division_safe_multiple g (map Some dividends) d)
    (Forall2 (fun a r => reduced_in g r /\
                         (value r * (if value d =? 0 then 1 else value d)) mod p
                         = value a mod p) dividends).
Proof.
  intros Hdivs Hd. unfold division_safe_multiple.
  pose proof (divisor_safe_spec d Hd) as Hds.
  intros s. destruct (Hds s) as (ds & s1 & E & Hdsr & Hdsv).
  unfold bind in E.
  destruct (comparison.eq_zero g d s) as [[e | c] s0] eqn:Ez; [discriminate E |].
  assert (Hne : value ds <> 0).
  { rewrite Hdsv. destruct (Z.eqb_spec (value d) 0); lia. }
  destruct (returns_mapM (fun a => division a ds)
              (fun a r => reduced_in g r /\
                          (value r * (if value d =? 0 then 1 else value d)) mod p
                          = value a mod p) dividends) with (s := s1)
    as (rs & s2 & Emap & Hrs).
  { intros a Hin. rewrite Forall_forall in Hdivs.
    eapply returns_weaken; [apply (division_spec a ds (Hdivs a Hin) Hdsr Hne) |].
    intros r [Hr Hv]. split; [exact Hr |]. rewrite <- Hdsv. exact Hv. }
  exists rs, s2. unfold bind. rewrite Ez, E, mapM_map. split; [exact Emap | exact Hrs].
Qed.

Lemma and_gate_two_spec (c1 c2 : Wire) :
  in_group g c1 ->
  returns (and_gate g [c1; c2])
    (fun r => reduced_in g r /\ value r = (value c1 * value c2) mod p).
Proof. intros H1. apply (mul_reduced g Hprime c1 (W c2) H1). Qed.

(** [eq_zero_multiple] on wires of the group whose values sum to a
    multiple of [p]. *)
Lemma eq_zero_multiple_zero (wires : list Wire) (sum_w : Wire) :
  py_sum (map W wires) = W sum_w -> value sum_w = 0 ->
  returns (comparison.eq_zero_multiple g wires) (fun r => r = gen g 1 false).
Proof.
  intros Hsum Hz. unfold comparison.eq_zero_multiple. rewrite Hsum, Hz.
  eapply returns_bind; [apply returns_ret_eq |]. intros sv ->.
  change (0 =? 0) with true. cbv iota.
  eapply returns_bind; [apply returns_ret_eq |]. intros hr ->.
  eapply returns_bind; [apply (mul_reduced g Hprime (gen g 1 false)); reflexivity |].
  intros t1 [[Ht1 _] Hv1]. eapply returns_bind.
  { apply assert_equal_wires; [exact Ht1 | reflexivity |].
    rewrite Hv1. reflexivity. }
  intros _ _. eapply returns_bind.
  { unfold __rmul__. apply (mul_reduced g Hprime (gen g 0 false)). reflexivity. }
  intros t2 [[Ht2 _] Hv2]. eapply returns_bind.
  { apply assert_equal_wires;
      [exact Ht2 | apply (rsub_reduced g Hprime); reflexivity |].
    rewrite Hv2, (proj2 (rsub_reduced g Hprime (gen g 1 false) 1 eq_refl)).
    cbn [gen value int_of]. fold p. pull_mod.
    apply mod_add_multiple with (k := -1). ring. }
  intros _ _. apply returns_ret. reflexivity.
Qed.

End PrimeFieldGates.

(** ** Montgomery curve gates over a prime field of odd characteristic *)

Definition point_in (g : WireGroup) (pt : Point) : Prop :=
  in_group g (_x pt) /\ in_group g (_z pt).

Definition point_reduced (g : WireGroup) (pt : Point) : Prop :=
  reduced_in g (_x pt) /\ reduced_in g (_z pt).

(** A point whose three coordinates are canonical residues. *)
Definition full_point_reduced (g : WireGroup) (pt : Point) : Prop :=
  point_reduced g pt /\ exists y, _y pt = Some y /\ reduced_in g y.

Lemma point_reduced_in (g : WireGroup) (pt : Point) :
  point_reduced g pt -> point_in g pt.
Proof. intros [[H1 _] [H2 _]]. split; assumption. Qed.

Lemma point_in_x (g : WireGroup) (pt : Point) : point_in g pt -> in_group g (_x pt).
Proof. intros [H _]. exact H. Qed.

Lemma point_in_z (g : WireGroup) (pt : Point) : point_in g pt -> in_group g (_z pt).
Proof. intros [_ H]. exact H. Qed.

#[local] Hint Resolve point_reduced_in point_in_x point_in_z : wires.

Lemma prime_odd (p : Z) : Z.prime p -> p <> 2 -> Z.odd p = true.
Proof.
  intros [Hp1 Hdiv] Hne. destruct (Z.odd p) eqn:E; [reflexivity | exfalso].
  rewrite <- Z.negb_even in E. apply negb_false_iff, Z.even_spec in E.
  destruct E as [k Hk]. apply (Hdiv 2); [lia |].
  exists k. rewrite Hk. ring.
Qed.

(** A bit of an exponent that, if it is a wire, is a wire of the group. *)
Definition bit_in (g : WireGroup) (i : num) : Prop :=
  match i with W b => in_group g b | Int _ => True end.

Section Curve.

Variable g : WireGroup.
Let p := group_modulus g.
Hypothesis Hprime : Z.prime p.
Hypothesis Hodd : p <> 2.

(** One multiplication whose result is only needed as a canonical
    residue. *)
Ltac mul_step :=
  lazymatch goal with
  | |- returns (bind (__mul__ ?a ?b) _) _ =>
      eapply returns_bind;
      [ apply (mul_reduced_any g Hprime a b); eauto 6 with wires
      | let r := fresh "r" in let Hr := fresh "Hr" in intros r Hr ]
  | |- returns (bind (__rmul__ ?a ?b) _) _ =>
      eapply returns_bind;
      [ apply (mul_reduced_any g Hprime a b); eauto 6 with wires
      | let r := fresh "r" in let Hr := fresh "Hr" in intros r Hr ]
  end.

Lemma xadd_reduced (pt q m : Point) :
  point_in g pt -> point_in g q -> point_in g m ->
  returns (xadd pt q m) (point_reduced g).
Proof.
  intros Hpt Hq Hm. unfold xadd.
  repeat mul_step. apply returns_ret. split; assumption.
Qed.

Lemma truediv_int_reduced (a : Wire) (n : Z) :
  in_group g a -> Z.gcd n p = 1 ->
  returns (__truediv__ a (Int n)) (reduced_in g).
Proof.
  intros Ha Hn. unfold __truediv__.
  eapply returns_bind with (P := fun x => x = Int (Z.invmod n p)).
  - intros s. unfold bind. rewrite Ha. fold p.
    rewrite (pow_inv_coprime n p s Hn). eexists. eexists.
    split; reflexivity.
  - intros x ->. apply (mul_reduced_any g Hprime). exact Ha.
Qed.

Lemma xdbl_reduced (pt : Point) (A : Wire) :
  point_in g pt -> in_group g A ->
  returns (xdbl pt A) (point_reduced g).
Proof.
  intros Hpt HA. unfold xdbl.
  do 3 mul_step.
  eapply returns_bind.
  { apply truediv_int_reduced; [eauto with wires |].
    apply gcd_4_odd, prime_odd; assumption. }
  intros a24 Ha24.
  repeat mul_step. apply returns_ret. split; assumption.
Qed.

Lemma bit_mul_reduced (i : num) (w : Wire) :
  bit_in g i -> in_group g w -> returns (bit_mul i w) (reduced_in g).
Proof.
  intros Hi Hw. destruct i as [n | b]; cbn [bit_mul bit_in] in *.
  - apply (mul_reduced_any g Hprime w (Int n)). exact Hw.
  - apply (mul_reduced_any g Hprime b (W w)). exact Hi.
Qed.

Lemma one_minus_in (i : num) : bit_in g i -> bit_in g (one_minus i).
Proof.
  destruct i as [n | b]; cbn [one_minus bit_in]; [trivial |].
  intros Hb. eauto with wires.
Qed.

Ltac bit_step :=
  lazymatch goal with
  | |- returns (bind (bit_mul ?i ?w) _) _ =>
      eapply returns_bind;
      [ apply (bit_mul_reduced i w); [auto using one_minus_in | eauto 6 with wires]
      | let r := fresh "r" in let Hr := fresh "Hr" in intros r Hr ]
  end.

Lemma ladder_step_reduced (pt : Point) (A : Wire) (r0 r1 : Point) (i : num) :
  point_in g pt -> in_group g A -> point_in g r0 -> point_in g r1 ->
  bit_in g i ->
  returns (ladder_step pt A (r0, r1) i)
    (fun st => point_reduced g (fst st) /\ point_reduced g (snd st)).
Proof.
  intros Hpt HA H0 H1 Hi. unfold ladder_step.
  eapply returns_bind; [apply xadd_reduced; assumption |]. intros padd Hpadd.
  eapply returns_bind; [apply xdbl_reduced; assumption |]. intros r0_0 Hr00.
  eapply returns_bind; [apply xdbl_reduced; assumption |]. intros r1_1 Hr11.
  repeat bit_step. apply returns_ret.
  cbn [fst snd]. unfold point_reduced, set_x, set_z. cbn [_x _z].
  split; split;
    first [ apply (add_reduced_any g Hprime) | apply (sub_reduced_any g Hprime) ];
    eauto 6 with wires.
Qed.

Lemma ladder_reduced (k_bits : list num) (pt : Point) (A : Wire) :
  point_reduced g pt -> in_group g A -> Forall (bit_in g) k_bits ->
  returns (ladder k_bits pt A)
    (fun st => point_reduced g (fst st) /\ point_reduced g (snd st)).
Proof.
  intros Hpt HA Hbits. unfold ladder.
  eapply returns_bind; [apply xdbl_reduced; eauto with wires |]. intros r1 Hr1.
  apply returns_foldM
    with (Inv := fun st => point_reduced g (fst st) /\ point_reduced g (snd st)).
  - intros [r0 r1'] i Hin [Ha Hb]. cbn [fst snd] in Ha, Hb.
    apply ladder_step_reduced; eauto with wires.
    assert (Hall : Forall (bit_in g) (tl k_bits)).
    { destruct k_bits as [|b l]; [constructor |]. inversion Hbits; assumption. }
    rewrite Forall_forall in Hall. apply Hall. exact Hin.
  - split; [exact Hpt | exact Hr1].
Qed.

Lemma get_y_returns (pt : Point) (y : Wire) :
  _y pt = Some y -> returns (get_y pt) (fun r => r = y).
Proof. intros H. unfold get_y. rewrite H. apply returns_ret_eq. Qed.

Lemma okeya_sakurai_reduced (A B : Wire) (pt q pq : Point) (y : Wire) :
  in_group g A -> in_group g B ->
  point_in g pt -> _y pt = Some y -> point_in g q -> point_in g pq ->
  returns (okeya_sakurai_y_recovery A B pt q pq) (full_point_reduced g).
Proof.
  intros HA HB Hpt Hy Hq Hpq. unfold okeya_sakurai_y_recovery.
  do 10 mul_step.
  eapply returns_bind; [apply (get_y_returns pt y Hy) |]. intros p_y ->.
  repeat mul_step. apply returns_ret.
  split; [split; assumption |].
  eexists. split; [reflexivity |]. apply (sub_reduced_any g Hprime). eauto with wires.
Qed.

End Curve.

Section CurveRecovery.

Variable g : WireGroup.
Let p := group_modulus g.
Hypothesis Hprime : Z.prime p.
Hypothesis Hodd : p <> 2.

Lemma indicator_reduced (b : bool) : reduced_in g (gen g (if b then 1 else 0) false).
Proof.
  pose proof (p_ge_2 g Hprime). apply gen_reduced. fold p. destruct b; lia.
Qed.

Lemma eq_zero_reduced (w : Wire) :
  reduced_in g w -> returns (comparison.eq_zero g w) (reduced_in g).
Proof.
  intros Hw. eapply returns_weaken; [apply (eq_zero_spec g Hprime w Hw) |].
  intros r ->. apply indicator_reduced.
Qed.

Lemma eq_reduced (a b : Wire) :
  in_group g a -> in_group g b -> returns (comparison.eq g a b) (reduced_in g).
Proof.
  intros Ha Hb. eapply returns_weaken; [apply (eq_spec g Hprime a b Ha Hb) |].
  intros r ->. apply indicator_reduced.
Qed.

Lemma if_then_else_reduced (c : Wire) (t : num) (e : Wire) :
  in_group g c -> returns (if_then_else c t e) (reduced_in g).
Proof.
  intros Hc. eapply returns_weaken; [apply (if_then_else_spec g Hprime c t e Hc) |].
  intros r [Hr _]. exact Hr.
Qed.

Lemma if_then_set_zero_reduced (c x : Wire) :
  in_group g c -> returns (if_then_set_zero c x) (reduced_in g).
Proof.
  intros Hc. eapply returns_weaken; [apply (if_then_set_zero_spec g Hprime c x Hc) |].
  intros r [Hr _]. exact Hr.
Qed.

Lemma division_safe_reduced (a d : Wire) :
  in_group g a -> reduced_in g d -> returns (division_safe g a d) (reduced_in g).
Proof.
  intros Ha Hd. eapply returns_weaken; [apply (division_safe_spec g Hprime a d Ha Hd) |].
  intros r [Hr _]. exact Hr.
Qed.

Lemma and_gate_two_reduced (c1 c2 : Wire) :
  in_group g c1 -> returns (and_gate g [c1; c2]) (reduced_in g).
Proof.
  intros H1. eapply returns_weaken; [apply (and_gate_two_spec g Hprime c1 c2 H1) |].
  intros r [Hr _]. exact Hr.
Qed.

(** One gate whose result is only needed as a canonical residue. *)
Ltac gate_step :=
  eapply returns_bind;
  [ first
      [ apply (mul_reduced_any g Hprime); solve [eauto 6 with wires]
      | apply eq_reduced; solve [eauto 6 with wires]
      | apply eq_zero_reduced; solve [eauto 6 with wires]
      | apply if_then_else_reduced; solve [eauto 6 with wires]
      | apply if_then_set_zero_reduced; solve [eauto 6 with wires]
      | apply division_safe_reduced; solve [eauto 6 with wires]
      | apply and_gate_two_reduced; solve [eauto 6 with wires] ]
  | let r := fresh "r" in let Hr := fresh "Hr" in intros r Hr ].

Lemma y_recovery_reduced (A B : Wire) (pt q pq : Point) (y : Wire) :
  in_group g A -> in_group g B ->
  point_in g pt -> _y pt = Some y -> in_group g y ->
  point_reduced g q -> point_reduced g pq ->
  returns (y_recovery g A B pt q pq) (full_point_reduced g).
Proof.
  intros HA HB Hpt Hy Hyg Hq Hpq. unfold y_recovery.
  destruct Hq as [Hqx Hqz]. destruct Hpq as [Hpqx Hpqz].
  eapply returns_bind.
  { apply (okeya_sakurai_reduced g Hprime A B pt q pq y); try assumption;
      split; eauto with wires. }
  intros qr [[Hqrx Hqrz] (qy & Hqy & Hqyr)].
  do 2 gate_step.
  eapply returns_bind; [apply (get_y_returns _ qy); exact Hqy |]. intros q_y ->.
  do 7 gate_step.
  eapply returns_bind; [apply (get_y_returns pt y Hy) |]. intros p_y ->.
  eapply returns_bind; [apply (get_y_returns _ r1); reflexivity |]. intros q_y ->.
  do 2 gate_step.
  apply returns_ret. split; [split; assumption |].
  eexists. split; [reflexivity | assumption].
Qed.

End CurveRecovery.

(** ** Exponentiation of the 2-torsion point [(0, 0, 1)] *)

Section ZeroPoint.

Variable g : WireGroup.
Let p := group_modulus g.
Hypothesis Hprime : Z.prime p.
Hypothesis Hodd : p <> 2.

Ltac gate_step :=
  eapply returns_bind;
  [ first
      [ apply (mul_reduced_any g Hprime); solve [eauto 6 with wires]
      | apply (eq_reduced g Hprime); solve [eauto 6 with wires]
      | apply (eq_zero_reduced g Hprime); solve [eauto 6 with wires]
      | apply (if_then_else_reduced g Hprime); solve [eauto 6 with wires]
      | apply (if_then_set_zero_reduced g Hprime); solve [eauto 6 with wires] ]
  | let r := fresh "r" in let Hr := fresh "Hr" in intros r Hr ].

(** An [if_then_else] whose result value is tracked. *)
Ltac ite_step r Hr H1 H0 :=
  eapply returns_bind;
  [ apply (if_then_else_spec g Hprime); solve [eauto 6 with wires]
  | intros r (Hr & H1 & H0) ].

Lemma small_mod (v : Z) : 0 <= v < 2 -> v mod p = v.
Proof. intros Hv. pose proof (p_ge_2 g Hprime). apply Z.mod_small. fold p in H. lia. Qed.

(** The indicator of the zero point, for a point with [x = y = 0] and
    [z = 1]. *)
Lemma indicator_zero_point (zx zy zz : Wire) :
  zx = gen g 1 false -> zy = gen g 1 false -> zz = gen g 0 false ->
  returns (and_gate g [zx; zy; __rsub__ zz 1]) (fun r => r = gen g 1 false).
Proof.
  intros -> -> ->. cbn [and_gate]. unfold and_gate_multiple_inputs, comparison.eq_multiple.
  eapply eq_zero_multiple_zero; [exact Hprime | reflexivity |].
  cbn [List.length app map __neg__ gen value modulus __rsub__ __radd__ __add__
         nonconst_wire is_const int_of Z.of_nat Pos.of_succ_nat Pos.succ].
  fold p. apply mod_eq_zero. pull_mod.
  apply mod_add_multiple with (k := 2). ring.
Qed.

(** The parity indicator computed from the last bit of the exponent. *)
Lemma indicator_odd_spec (last_bit : Wire) :
  in_group g last_bit -> is_bit last_bit ->
  returns (comparison.eq_zero g (__sub__ last_bit (Int 1)))
    (fun r => r = gen g (value last_bit) false).
Proof.
  intros Hg Hb. pose proof (p_ge_2 g Hprime) as Hp2. fold p in Hp2.
  destruct (sub_int_reduced g Hprime last_bit 1 Hg) as [Hr Hv].
  eapply returns_weaken; [apply (eq_zero_spec g Hprime _ Hr) |].
  intros r ->. rewrite Hv. fold p.
  destruct Hb as [-> | ->].
  - assert (E : (0 + Z.opp 1) mod p = p - 1)
      by (symmetry; apply Zmod_unique with (q := -1); lia).
    rewrite E. destruct (Z.eqb_spec (p - 1) 0); [lia | reflexivity].
  - reflexivity.
Qed.

Lemma exponent_bits_zero_point (A B : Wire) (P : Point) (y last_bit : Wire)
  (exponent_bits : list Wire) :
  in_group g A -> in_group g B ->
  reduced_in g (_x P) -> _y P = Some y -> reduced_in g y -> reduced_in g (_z P) ->
  value (_x P) = 0 -> value y = 0 -> value (_z P) = 1 ->
  Forall (in_group g) exponent_bits ->
  last (map Some exponent_bits) None = Some last_bit ->
  in_group g last_bit -> is_bit last_bit ->
  returns (exponent_homogeneous_point_bit_exponent g A B P exponent_bits)
    (fun r => value (_x r) = 0 /\
              option_map value (_y r) = Some (1 - value last_bit) /\
              value (_z r) = value last_bit).
Proof.
  intros HA HB Hx Hy Hyr Hz Vx Vy Vz Hbits Hlast Hlg Hlb.
  pose proof (p_ge_2 g Hprime) as Hp2. fold p in Hp2.
  unfold exponent_homogeneous_point_bit_exponent.
  eapply returns_bind.
  { apply (ladder_reduced g Hprime Hodd); [split; assumption | assumption |].
    apply Forall_map. exact Hbits. }
  intros [pe0 pe1] [Hpe0 Hpe1]. cbn [fst snd] in Hpe0, Hpe1.
  eapply returns_bind.
  { apply (y_recovery_reduced g Hprime Hodd A B P pe0 pe1 y); try assumption;
      [split |]; eauto with wires. }
  intros pe [[Hpex Hpez] (pey & Hpey & Hpeyr)].
  destruct Hpe0 as [Hpe0x Hpe0z].
  do 2 gate_step.
  eapply returns_bind; [apply (get_y_returns _ pey); exact Hpey |]. intros pe_y ->.
  do 2 gate_step.
  eapply returns_bind; [apply (eq_zero_spec g Hprime _ Hx) |]. intros zx Hzx.
  eapply returns_bind; [apply (get_y_returns P y Hy) |]. intros p_y ->.
  eapply returns_bind; [apply (eq_zero_spec g Hprime _ Hyr) |]. intros zy Hzy.
  eapply returns_bind; [apply (eq_zero_spec g Hprime _ Hz) |]. intros zz Hzz.
  rewrite Vx in Hzx. rewrite Vy in Hzy. rewrite Vz in Hzz.
  eapply returns_bind; [apply (indicator_zero_point zx zy zz Hzx Hzy Hzz) |].
  intros indicator_zero ->.
  rewrite Hlast. eapply returns_bind; [apply returns_ret_eq |]. intros lb ->.
  eapply returns_bind; [apply (indicator_odd_spec last_bit Hlg Hlb) |].
  intros indicator_odd ->.
  eapply returns_bind.
  { apply (mul_reduced g Hprime (gen g 1 false)). reflexivity. }
  intros zo [Hzo Vzo].
  eapply returns_bind.
  { apply (mul_reduced g Hprime (gen g 1 false)). reflexivity. }
  intros ze [Hze Vze].
  cbn [gen value int_of __rsub__ __radd__ __add__ __neg__ modulus] in Vzo, Vze.
  fold p in Vzo, Vze.
  ite_step x1 Hx1 X1a X1b.
  eapply returns_bind; [apply (get_y_returns _ r1); reflexivity |]. intros pe_y ->.
  ite_step y1 Hy1 Y1a Y1b.
  ite_step z1 Hz1 Z1a Z1b.
  ite_step x2 Hx2 X2a X2b.
  eapply returns_bind; [apply (get_y_returns _ y1); reflexivity |]. intros pe_y ->.
  ite_step y2 Hy2 Y2a Y2b.
  ite_step z2 Hz2 Z2a Z2b.
  apply returns_ret.
  cbn [set_x set_y set_z _x _y _z option_map point_cls int_of] in *.
  fold p in X1a, X1b, Y1a, Y1b, Z1a, Z1b, X2a, X2b, Y2a, Y2b, Z2a, Z2b.
  destruct Hlb as [E | E]; rewrite E in *.
  - (* last bit 0: the exponent is even *)
    assert (Ezo : value zo = 0) by (rewrite Vzo; apply Zmod_0_l).
    assert (Eze : value ze = 1).
    { rewrite Vze. transitivity (1 mod p); [| apply small_mod; lia].
      pull_mod. apply mod_add_multiple with (k := 1). ring. }
    rewrite (X2a Eze), (Y2a Eze), (Z2a Eze).
    rewrite Zmod_0_l, small_mod by lia. repeat split.
  - (* last bit 1: the exponent is odd *)
    assert (Ezo : value zo = 1).
    { rewrite Vzo. transitivity (1 mod p); [reflexivity | apply small_mod; lia]. }
    assert (Eze : value ze = 0).
    { rewrite Vze. apply mod_eq_zero. pull_mod.
      apply mod_add_multiple with (k := 1). ring. }
    rewrite (X2b Eze), (Y2b Eze), (Z2b Eze).
    rewrite (X1a Ezo), (Y1a Ezo), (Z1a Ezo).
    rewrite !Zmod_mod, Zmod_0_l, small_mod by lia. repeat split.
Qed.

End ZeroPoint.

Lemma be_chars_parity (l : list ascii) (c : ascii) :
  be_chars (l ++ [c]) mod 2 = char_bit c.
Proof.
  rewrite be_chars_app, Z.add_comm, Z.mul_comm, Z_mod_plus_full.
  unfold char_bit. destruct (Ascii.eqb c "1"); reflexivity.
Qed.

(** The bits [split] makes of an exponent: wires of the group, the last
    of which carries the parity of the exponent. *)
Lemma split_exponent (g : WireGroup) (w : Wire) :
  0 <= value w -> in_group g w ->
  returns (split g w None)
    (fun out => Forall (in_group g) out /\
                exists last_bit, last (map Some out) None = Some last_bit /\
                                 in_group g last_bit /\ is_bit last_bit /\
                                 value last_bit = value w mod 2).
Proof.
  intros Hv Hg. change (split g w None) with (split g w (Some (bit_length g))).
  eapply returns_weaken; [apply split_digits; assumption |].
  intros out ->.
  destruct (bin_digits (value w) Hv) as (Hval & Hbits & Hlen & Hhead).
  destruct (zfill_digits _ (bit_length g) Hhead Hbits) as (Hval' & Hbits' & Hlen').
  set (bits := Py.zfill (Py.drop2 (Py.bin (value w))) (bit_length g)) in *.
  split.
  - eapply Forall_impl; [| apply bit_wires_are_bits]. intros b [_ Hb]. exact Hb.
  - destruct (exists_last (l := bits)) as (l & c & Hl).
    { intros E. rewrite E in Hlen'. cbn [List.length] in Hlen'.
      unfold binary_length in Hlen. destruct (value w =? 0).
      - lia.
      - pose proof (Z.log2_nonneg (value w)). lia. }
    exists (gen g (char_bit c) false). rewrite Hl.
    unfold bit_wires_of. rewrite !map_app. cbn [map]. rewrite last_last.
    split; [reflexivity |]. split; [reflexivity |].
    split.
    + unfold is_bit, char_bit. cbn [gen value].
      destruct (Ascii.eqb c "1"); [right | left]; reflexivity.
    + cbn [gen value]. rewrite <- Hval, <- Hval', Hl. symmetry. apply be_chars_parity.
Qed.

Definition g13 : WireGroup := mkWireGroup 13.

(** The curve of the end-to-end scenarios: [p = 13], [A = 3], [B = 1]. *)
Definition curve_A : Wire := gen g13 3 true.
Definition curve_B : Wire := gen g13 1 true.

(** C6.  Over a prime field of odd characteristic, for the point
    [(0, 0, 1)] and every exponent [e >= 1],
    [exponent_homogeneous_point] raises nothing and returns [(0, 0, 1)]
    when [e] is odd and [(0, 1, 0)] when [e] is even. *)
Theorem C6_zero_point_exponent (g : WireGroup) (A B x y z e : Wire) :
  Z.prime (group_modulus g) -> group_modulus g <> 2 ->
  in_group g A -> in_group g B ->
  in_group g x -> in_group g y -> in_group g z -> in_group g e ->
  value x = 0 -> value y = 0 -> value z = 1 -> 1 <= value e ->
  returns (exponent_homogeneous_point g A B (HomogeneousPoint x (Some y) z) e)
    (fun r => value (_x r) = 0 /\
              option_map value (_y r) = Some (if Z.odd (value e) then 0 else 1) /\
              value (_z r) = if Z.odd (value e) then 1 else 0).
Proof.
  intros Hprime Hodd HA HB Hx Hy Hz He Vx Vy Vz Ve.
  pose proof (p_ge_2 g Hprime) as Hp2.
  unfold exponent_homogeneous_point.
  eapply returns_bind; [apply (split_exponent g e); [lia | exact He] |].
  intros bits (Hbits & last_bit & Hlast & Hlg & Hlb & Hpar).
  eapply returns_weaken.
  - apply (exponent_bits_zero_point g Hprime Hodd A B
             (HomogeneousPoint x (Some y) z) y last_bit bits);
      try assumption; try reflexivity;
      (split; [assumption | cbn [HomogeneousPoint _x _z]; lia]).
  - intros r (Rx & Ry & Rz). rewrite Hpar, Zmod_odd in Ry, Rz.
    split; [exact Rx |]. destruct (Z.odd (value e)); split; assumption.
Qed.

Definition zero_point : Point :=
  HomogeneousPoint (gen g13 0 false) (Some (gen g13 0 false)) (gen g13 1 false).

Lemma C6_zero_point_exponent_witness :
  returns (exponent_homogeneous_point g13 curve_A curve_B zero_point (gen g13 3 false))
    (fun r => value (_x r) = 0 /\ option_map value (_y r) = Some 0 /\
              value (_z r) = 1) /\
  returns (exponent_homogeneous_point g13 curve_A curve_B zero_point (gen g13 2 false))
    (fun r => value (_x r) = 0 /\ option_map value (_y r) = Some 1 /\
              value (_z r) = 0).
Proof.
  split.
  - apply (C6_zero_point_exponent g13 curve_A curve_B
             (gen g13 0 false) (gen g13 0 false) (gen g13 1 false) (gen g13 3 false));
      first [ exact prime_13 | discriminate | reflexivity | simpl; lia ].
  - apply (C6_zero_point_exponent g13 curve_A curve_B
             (gen g13 0 false) (gen g13 0 false) (gen g13 1 false) (gen g13 2 false));
      first [ exact prime_13 | discriminate | reflexivity | simpl; lia ].
Defined.

(** ** Conversion to affine coordinates *)

(** What [convert_homogeneous_to_affine_coordinates] returns over a
    prime field: the quotients by [z] and [z = 1] for a finite point,
    and the coordinates [x] and [y] unchanged with [z = 0] for a point
    with [z = 0]. *)
Lemma convert_homogeneous_to_affine_spec (g : WireGroup) (P : Point) (y : Wire) :
  Z.prime (group_modulus g) ->
  in_group g (_x P) -> _y P = Some y -> in_group g y -> reduced_in g (_z P) ->
  returns (convert_homogeneous_to_affine_coordinates g P)
    (fun r =>
       exists ry, _y r = Some ry /\
       (value (_z P) <> 0 ->
        (value (_x r) * value (_z P)) mod group_modulus g
        = value (_x P) mod group_modulus g /\
        (value ry * value (_z P)) mod group_modulus g
        = value y mod group_modulus g /\
        value (_z r) = 1) /\
       (value (_z P) = 0 ->
        value (_x r) = value (_x P) mod group_modulus g /\
        value ry = value y mod group_modulus g /\
        value (_z r) = 0)).
Proof.
  intros Hprime Hx Hy Hyg Hz. pose proof (p_ge_2 g Hprime) as Hp2.
  unfold convert_homogeneous_to_affine_coordinates. rewrite Hy.
  eapply returns_bind.
  { apply (division_safe_multiple_spec g Hprime [_x P; y] (_z P)); [| exact Hz].
    repeat constructor; assumption. }
  intros quotients HF.
  inversion HF as [| a qx l l' [Hqx Eqx] HF' ]; subst.
  inversion HF' as [| a qy l l'' [Hqy Eqy] HF'' ]; subst.
  inversion HF''; subst. cbn [nth_error from_option].
  eapply returns_bind; [apply returns_ret_eq |]. intros x_affine ->.
  eapply returns_bind; [apply returns_ret_eq |]. intros y_affine ->.
  eapply returns_bind; [apply (eq_zero_spec g Hprime _ Hz) |]. intros ind ->.
  eapply returns_bind;
    [apply (if_then_set_zero_reduced g Hprime); apply in_group_gen |].
  intros x' _.
  eapply returns_bind; [apply (get_y_returns P y Hy) |]. intros p_y ->.
  eapply returns_bind;
    [apply (if_then_else_reduced g Hprime); apply in_group_gen |].
  intros y' _. apply returns_ret.
  exists qy. split; [reflexivity |].
  cbn [AffinePoint _x _y _z].
  rewrite (proj2 (rsub_reduced g Hprime _ 1 (in_group_gen g _ false))).
  cbn [gen value].
  destruct Hqx as [_ Hqxr]. destruct Hqy as [_ Hqyr].
  destruct (Z.eqb_spec (value (_z P)) 0) as [E | E]; split; intros E';
    try contradiction; try (rewrite E in E'; discriminate).
  - rewrite Z.mul_1_r in Eqx, Eqy. rewrite Z.mod_small in Eqx, Eqy by assumption.
    split; [exact Eqx |]. split; [exact Eqy |].
    apply mod_eq_zero. apply mod_add_multiple with (k := 1). ring.
  - split; [exact Eqx |]. split; [exact Eqy |].
    transitivity (1 mod group_modulus g); [| apply Z.mod_small; lia].
    apply mod_add_multiple with (k := 1). ring.
Qed.

(** A representative of the point at infinity other than [(0, 1, 0)]. *)
Definition infinity_0_5_0 : Point :=
  HomogeneousPoint (gen g13 0 false) (Some (gen g13 5 false)) (gen g13 0 false).

(** C3 at a point with [z = 0]: the point [(0, 5, 0)] comes back as
    [(0, 5, 0)], not as the representative [(0, 1, 0)]. *)
Theorem C3_infinity_not_canonical :
  exists r s',
    convert_homogeneous_to_affine_coordinates g13 infinity_0_5_0 (mkCounters 0 0)
    = (inr r, s') /\
    value (_x r) = 0 /\ option_map value (_y r) = Some 5 /\ value (_z r) = 0.
Proof. eexists. eexists. split; [vm_compute; reflexivity |]. repeat split. Qed.

(** ** Ballot keys: decimal strings joined by ["-"] *)

#[local] Open Scope string_scope.

(** No character of the string is the separator. *)
Fixpoint dashless (s : string) : bool :=
  match s with
  | EmptyString => true
  | String c s' => negb (Ascii.eqb c "-") && dashless s'
  end.

(** What follows a number in a key: nothing, or the separator. *)
Definition dash_tail (r : string) : Prop :=
  r = EmptyString \/ exists r', r = String "-" r'.

Lemma uint_string_dashless (d : Decimal.uint) :
  dashless (NilEmpty.string_of_uint d) = true.
Proof. induction d; simpl; trivial. Qed.

Lemma str_nonneg (n : Z) :
  (0 <= n)%Z -> dashless (Py.str n) = true /\ Py.str n <> EmptyString.
Proof.
  intros Hn. unfold Py.str. destruct n as [|q|q]; [| | lia].
  - split; [reflexivity | discriminate].
  - cbn [Z.to_int NilZero.string_of_int]. unfold NilZero.string_of_uint.
    pose proof (DecimalPos.Unsigned.to_uint_nonnil q) as Hnn.
    destruct (Pos.to_uint q) as [|d|d|d|d|d|d|d|d|d|d] eqn:E;
      try contradiction;
      (split; [apply uint_string_dashless | discriminate]).
Qed.

Lemma str_neg (n : Z) : (n < 0)%Z -> exists s, Py.str n = String "-" s.
Proof.
  intros Hn. destruct n as [|q|q]; [lia | lia |].
  eexists. reflexivity.
Qed.

Lemma str_nonempty (n : Z) : Py.str n <> EmptyString.
Proof.
  destruct (Z_lt_le_dec n 0) as [Hn | Hn].
  - destruct (str_neg n Hn) as [s ->]. discriminate.
  - apply str_nonneg. exact Hn.
Qed.

(** [int(str(n)) = n] *)
Lemma int_str (n : Z) (s : Counters) : Py.int (Py.str n) s = (inr n, s).
Proof.
  unfold Py.int, Py.str. rewrite NilZero.isi.
  - rewrite DecimalZ.of_to. reflexivity.
  - destruct n; cbn [Z.to_int]; try discriminate.
    intros H. injection H as H. exact (DecimalPos.Unsigned.to_uint_nonnil _ H).
  - destruct n; cbn [Z.to_int]; try discriminate.
    intros H. injection H as H. exact (DecimalPos.Unsigned.to_uint_nonnil _ H).
Qed.

Lemma str_inj (a b : Z) : Py.str a = Py.str b -> a = b.
Proof.
  intros H. pose proof (int_str a (mkCounters 0 0)) as Ha.
  rewrite H, int_str in Ha. injection Ha as Ha. symmetry. exact Ha.
Qed.

Lemma dashless_prefix (d1 d2 r1 r2 : string) :
  dashless d1 = true -> dashless d2 = true -> dash_tail r1 -> dash_tail r2 ->
  d1 ++ r1 = d2 ++ r2 -> d1 = d2 /\ r1 = r2.
Proof.
  revert d2. induction d1 as [|c d1 IH]; intros d2 H1 H2 T1 T2 E.
  - destruct d2 as [|c2 d2]; [split; [reflexivity | exact E] |].
    cbn [append] in E. cbn [dashless] in H2. apply andb_prop in H2 as [Hc _].
    destruct T1 as [-> | [r' ->]]; [discriminate E |].
    injection E as <- _. discriminate Hc.
  - destruct d2 as [|c2 d2].
    + cbn [append] in E. cbn [dashless] in H1. apply andb_prop in H1 as [Hc _].
      destruct T2 as [-> | [r' ->]]; [discriminate E |].
      injection E as -> _. discriminate Hc.
    + cbn [append] in E. injection E as -> E.
      cbn [dashless] in H1, H2.
      apply andb_prop in H1 as [_ H1]. apply andb_prop in H2 as [_ H2].
      destruct (IH d2 H1 H2 T1 T2 E) as [-> ->]. split; reflexivity.
Qed.

Lemma append_empty_r (s : string) : s ++ EmptyString = s.
Proof. induction s as [|c s IH]; [reflexivity | cbn [append]; rewrite IH; reflexivity]. Qed.

(** A key is the first number followed by the rest of the key. *)
Definition key_tail (l : list Z) : string :=
  match l with
  | [] => EmptyString
  | _ => String "-" (_map_ballot_to_str l)
  end.

Lemma map_ballot_to_str_cons (a : Z) (l : list Z) :
  _map_ballot_to_str (a :: l) = Py.str a ++ key_tail l.
Proof.
  unfold _map_ballot_to_str, key_tail. cbn [map Py.join].
  destruct l as [|b l]; cbn [map].
  - symmetry. apply append_empty_r.
  - reflexivity.
Qed.

Lemma key_tail_dash (l : list Z) : dash_tail (key_tail l).
Proof. destruct l; [left; reflexivity | right; eexists; reflexivity]. Qed.

Lemma append_nonempty (s r : string) : s <> EmptyString -> s ++ r <> EmptyString.
Proof. destruct s; [contradiction | discriminate]. Qed.

(** A key of natural numbers is the key of no other list. *)
Lemma map_ballot_to_str_inj (l2 : list Z) :
  Forall (fun c => 0 <= c)%Z l2 ->
  forall l1, _map_ballot_to_str l1 = _map_ballot_to_str l2 -> l1 = l2.
Proof.
  induction 1 as [|b l2 Hb Hl2 IH]; intros l1 E.
  - destruct l1 as [|a l1]; [reflexivity |].
    rewrite map_ballot_to_str_cons in E.
    exfalso. exact (append_nonempty _ _ (str_nonempty a) E).
  - destruct l1 as [|a l1].
    + rewrite map_ballot_to_str_cons in E. symmetry in E.
      exfalso. exact (append_nonempty _ _ (str_nonempty b) E).
    + rewrite !map_ballot_to_str_cons in E.
      destruct (str_nonneg b Hb) as [Hdb Hnb].
      destruct (Z_lt_le_dec a 0) as [Ha | Ha].
      * destruct (str_neg a Ha) as [s Hs]. rewrite Hs in E.
        destruct (Py.str b) as [|c sb]; [contradiction |].
        cbn [append] in E. injection E as <- _.
        cbn [dashless] in Hdb. discriminate Hdb.
      * destruct (str_nonneg a Ha) as [Hda _].
        destruct (dashless_prefix _ _ _ _ Hda Hdb (key_tail_dash l1)
                    (key_tail_dash l2) E) as [Es Et].
        apply str_inj in Es. subst b. f_equal.
        destruct l1 as [|a1 l1], l2 as [|b2 l2]; cbn [key_tail] in Et;
          try reflexivity; try discriminate Et.
        injection Et as Et. apply IH. exact Et.
Qed.

#[local] Close Scope string_scope.

(** ** Dictionaries *)

Lemma dict_get_some_iff (d : dict) (k : string) :
  In k (dict_keys d) <-> exists v, dict_get d k = Some v.
Proof.
  induction d as [|[k0 v0] d IH]; cbn [dict_keys map fst dict_get In].
  - split; [contradiction | intros [v H]; discriminate H].
  - destruct (String.eqb_spec k0 k) as [-> | Hne].
    + split; [intros _; eexists; reflexivity | intros _; left; reflexivity].
    + rewrite <- IH. unfold dict_keys. split; [intros [H | H]; [contradiction | exact H] |].
      intros H. right. exact H.
Qed.

Lemma dict_get_none_iff (d : dict) (k : string) :
  ~ In k (dict_keys d) <-> dict_get d k = None.
Proof.
  rewrite dict_get_some_iff. destruct (dict_get d k) as [v |].
  - split; [intros H; exfalso; apply H; eexists; reflexivity | discriminate].
  - split; [reflexivity | intros _ [v H]; discriminate H].
Qed.

Lemma dict_set_keys_in (d : dict) (k : string) (v : Wire) (k' : string) :
  In k' (dict_keys (dict_set d k v)) <-> k' = k \/ In k' (dict_keys d).
Proof.
  induction d as [|[k0 v0] d IH]; cbn [dict_set].
  - cbn [dict_keys map fst In]. intuition congruence.
  - destruct (String.eqb_spec k0 k) as [-> | Hne];
      cbn [dict_keys map fst In]; fold (dict_keys d).
    + intuition congruence.
    + fold (dict_keys (dict_set d k v)). rewrite IH. intuition congruence.
Qed.

Lemma dict_set_keys_same (d : dict) (k : string) (v : Wire) :
  In k (dict_keys d) -> dict_keys (dict_set d k v) = dict_keys d.
Proof.
  induction d as [|[k0 v0] d IH]; cbn [dict_set dict_keys map fst In];
    [contradiction |].
  intros H. destruct (String.eqb_spec k0 k) as [-> | Hne]; [reflexivity |].
  cbn [map fst]. f_equal. apply IH. destruct H as [H | H]; [contradiction | exact H].
Qed.

Lemma dict_get_set_same (d : dict) (k : string) (v : Wire) :
  dict_get (dict_set d k v) k = Some v.
Proof.
  induction d as [|[k0 v0] d IH]; cbn [dict_set dict_get].
  - rewrite String.eqb_refl. reflexivity.
  - destruct (String.eqb_spec k0 k) as [-> | Hne]; cbn [dict_get].
    + rewrite String.eqb_refl. reflexivity.
    + destruct (String.eqb_spec k0 k); [contradiction | exact IH].
Qed.

Lemma dict_get_set_other (d : dict) (k : string) (v : Wire) (k' : string) :
  k' <> k -> dict_get (dict_set d k v) k' = dict_get d k'.
Proof.
  intros Hne. induction d as [|[k0 v0] d IH]; cbn [dict_set dict_get].
  - destruct (String.eqb_spec k k'); [congruence | reflexivity].
  - destruct (String.eqb_spec k0 k) as [-> | Hne0]; cbn [dict_get].
    + destruct (String.eqb_spec k k'); [congruence | reflexivity].
    + destruct (String.eqb_spec k0 k'); [reflexivity | exact IH].
Qed.

(** ** Arrangements *)

Lemma select_in {A} (l : list A) (a : A) (rest : list A) :
  In (a, rest) (select l) ->
  In a l /\ (forall b, In b rest -> In b l) /\
  (NoDup l -> NoDup rest /\ ~ In a rest /\ forall b, In b l -> b <> a -> In b rest).
Proof.
  revert a rest. induction l as [|x l IH]; intros a rest H; cbn [select] in H.
  - contradiction.
  - destruct H as [H | H].
    + injection H as -> ->. split; [left; reflexivity |].
      split; [intros b Hb; right; exact Hb |].
      intros Hnd. inversion Hnd as [|? ? Hx Hl]; subst.
      split; [exact Hl |]. split; [exact Hx |].
      intros b [-> | Hb] Hne; [contradiction | exact Hb].
    + apply in_map_iff in H. destruct H as ([b rest'] & E & Hin).
      injection E as -> <-. destruct (IH _ _ Hin) as (Ha & Hsub & Hnd).
      split; [right; exact Ha |].
      split; [intros c [-> | Hc]; [left; reflexivity | right; apply Hsub, Hc] |].
      intros Hnd'. inversion Hnd' as [|? ? Hx Hl]; subst.
      destruct (Hnd Hl) as (Hr & Hna & Hall).
      split; [constructor; [intros Hc; apply Hx, Hsub, Hc | exact Hr] |].
      split; [intros [-> | Hc]; [apply Hx, Ha | apply Hna, Hc] |].
      intros c [-> | Hc] Hne; [left; reflexivity | right; apply Hall; assumption].
Qed.

Lemma select_exists {A} (l : list A) (a : A) :
  In a l -> exists rest, In (a, rest) (select l).
Proof.
  induction l as [|x l IH]; intros H; [contradiction |].
  destruct H as [-> | H].
  - exists l. left. reflexivity.
  - destruct (IH H) as [rest Hr]. exists (x :: rest). right.
    apply in_map_iff. exists (a, rest). split; [reflexivity | exact Hr].
Qed.

(** Over a duplicate-free list, the arrangements of length [r] are the
    duplicate-free lists of length [r] of its elements. *)
Lemma permutations_spec {A} (r : nat) :
  forall (xs l : list A), NoDup xs ->
  (In l (permutations xs r) <->
   List.length l = r /\ NoDup l /\ forall a, In a l -> In a xs).
Proof.
  induction r as [|r IH]; intros xs l Hnd; cbn [permutations].
  - split.
    + intros [<- | []]. split; [reflexivity |]. split; [constructor | intros a []].
    + intros (Hlen & _). destruct l; [left; reflexivity | discriminate Hlen].
  - rewrite in_flat_map. split.
    + intros ([a rest] & Hsel & Hin). apply in_map_iff in Hin.
      destruct Hin as (l' & <- & Hl').
      destruct (select_in _ _ _ Hsel) as (Ha & Hsub & Hrest).
      destruct (Hrest Hnd) as (Hndr & Hna & _).
      apply (IH rest l' Hndr) in Hl'. destruct Hl' as (Hlen & Hndl & Hincl).
      split; [cbn [List.length]; rewrite Hlen; reflexivity |].
      split; [constructor; [intros Hc; apply Hna, Hincl, Hc | exact Hndl] |].
      intros b [<- | Hb]; [exact Ha | apply Hsub, Hincl, Hb].
    + intros (Hlen & Hndl & Hincl). destruct l as [|a l']; [discriminate Hlen |].
      inversion Hndl as [|? ? Ha Hl']; subst.
      destruct (select_exists xs a (Hincl a (or_introl eq_refl))) as [rest Hsel].
      exists (a, rest). split; [exact Hsel |].
      apply in_map_iff. exists l'. split; [reflexivity |].
      destruct (select_in _ _ _ Hsel) as (_ & _ & Hrest).
      destruct (Hrest Hnd) as (Hndr & _ & Hall).
      apply (IH rest l' Hndr). split; [injection Hlen as Hlen; exact Hlen |].
      split; [exact Hl' |]. intros b Hb. apply Hall; [apply Hincl; right; exact Hb |].
      intros ->. contradiction.
Qed.

Lemma range_in (n c : Z) : In c (Py.range n) <-> 0 <= c < n.
Proof.
  unfold Py.range. rewrite in_map_iff. split.
  - intros (k & <- & Hk). apply in_seq in Hk. lia.
  - intros Hc. exists (Z.to_nat c). split; [lia |]. apply in_seq. lia.
Qed.

Lemma range_nodup (n : Z) : NoDup (Py.range n).
Proof.
  unfold Py.range. apply NoDup_map_inv with (f := Z.to_nat).
  rewrite map_map. erewrite map_ext; [rewrite map_id; apply seq_NoDup |].
  intros a. apply Nat2Z.id.
Qed.

Lemma range_length (n : Z) : List.length (Py.range n) = Z.to_nat n.
Proof. unfold Py.range. rewrite length_map, length_seq. reflexivity. Qed.

(** ** The ballot manager *)

(** A legal ordering: a duplicate-free list of known choices. *)
Definition legal_ordering (n_choices : Z) (ordering : list Z) : Prop :=
  NoDup ordering /\ Forall (fun c => 0 <= c < n_choices) ordering.

Lemma fold_set_keys (v : Wire) (ls : list (list Z)) (d : dict) (k : string) :
  In k (dict_keys (fold_left (fun d perm => dict_set d (_map_ballot_to_str perm) v) ls d))
  <-> In k (dict_keys d) \/ exists l, In l ls /\ k = _map_ballot_to_str l.
Proof.
  revert d. induction ls as [|l ls IH]; intros d; cbn [fold_left].
  - split; [intros H; left; exact H | intros [H | (l & [] & _)]; exact H].
  - rewrite IH, dict_set_keys_in. split.
    + intros [[-> | H] | (l' & Hl' & ->)].
      * right. exists l. split; [left; reflexivity | reflexivity].
      * left. exact H.
      * right. exists l'. split; [right; exact Hl' | reflexivity].
    + intros [H | (l' & [<- | Hl'] & ->)].
      * left. right. exact H.
      * left. left. reflexivity.
      * right. exists l'. split; [exact Hl' | reflexivity].
Qed.

Lemma fold_lengths_keys (v : Wire) (xs : list Z) (lens : list nat) (d : dict)
  (k : string) :
  In k (dict_keys
          (fold_left
             (fun d i =>
                fold_left (fun d perm => dict_set d (_map_ballot_to_str perm) v)
                          (permutations xs i) d)
             lens d))
  <-> In k (dict_keys d) \/
      exists i l, In i lens /\ In l (permutations xs i) /\ k = _map_ballot_to_str l.
Proof.
  revert d. induction lens as [|i lens IH]; intros d; cbn [fold_left].
  - split; [intros H; left; exact H | intros [H | (i & l & [] & _)]; exact H].
  - rewrite IH, fold_set_keys. split.
    + intros [[H | (l & Hl & ->)] | (j & l & Hj & Hl & ->)].
      * left. exact H.
      * right. exists i, l. split; [left; reflexivity | split; [exact Hl | reflexivity]].
      * right. exists j, l. split; [right; exact Hj | split; [exact Hl | reflexivity]].
    + intros [H | (j & l & [<- | Hj] & Hl & ->)].
      * left. left. exact H.
      * left. right. exists l. split; [exact Hl | reflexivity].
      * right. exists j, l. split; [exact Hj | split; [exact Hl | reflexivity]].
Qed.

Lemma lengths_downwards_in (n : Z) (i : nat) :
  In i (lengths_downwards n) <-> (1 <= i <= Z.to_nat (n + 1))%nat.
Proof. unfold lengths_downwards. rewrite <- in_rev, in_seq. lia. Qed.

(** The keys of a fresh manager are the keys of the legal orderings. *)
Lemma init_mapping_keys (n : Z) (g : WireGroup) (k : string) :
  In k (dict_keys (init_mapping n g)) <->
  exists l, legal_ordering n l /\ k = _map_ballot_to_str l.
Proof.
  unfold init_mapping. rewrite dict_set_keys_in, fold_lengths_keys. split.
  - intros [-> | [[] | (i & l & Hi & Hl & ->)]].
    + exists []. split; [split; constructor | reflexivity].
    + exists l. split; [| reflexivity].
      apply (permutations_spec i (Py.range n) l (range_nodup n)) in Hl.
      destruct Hl as (_ & Hnd & Hin). split; [exact Hnd |].
      apply Forall_forall. intros c Hc. apply range_in, Hin, Hc.
  - intros (l & [Hnd Hall] & ->). destruct l as [|a l]; [left; reflexivity |].
    right. right. exists (List.length (a :: l)), (a :: l).
    assert (Hin : forall c, In c (a :: l) -> In c (Py.range n)).
    { intros c Hc. apply range_in. rewrite Forall_forall in Hall. apply Hall, Hc. }
    split; [| split; [| reflexivity]].
    + apply lengths_downwards_in.
      pose proof (NoDup_incl_length Hnd Hin) as Hlen.
      rewrite range_length in Hlen. cbn [List.length] in *. lia.
    + apply (permutations_spec _ (Py.range n) _ (range_nodup n)).
      split; [reflexivity |]. split; assumption.
Qed.

Lemma dict_set_values (P : Wire -> Prop) (d : dict) (k : string) (v : Wire) :
  Forall (fun kv => P (snd kv)) d -> P v -> Forall (fun kv => P (snd kv)) (dict_set d k v).
Proof.
  intros Hd Hv. induction Hd as [|[k' v'] d Hkv Hd IH]; cbn [dict_set].
  - constructor; [exact Hv | constructor].
  - destruct (String.eqb k' k); constructor; assumption.
Qed.

Lemma dict_get_value (P : Wire -> Prop) (d : dict) (k : string) (w : Wire) :
  Forall (fun kv => P (snd kv)) d -> dict_get d k = Some w -> P w.
Proof.
  induction 1 as [|[k' v'] d Hkv Hd IH]; cbn [dict_get]; intros E; [discriminate E |].
  destruct (String.eqb k' k); [injection E as <-; exact Hkv | apply IH, E].
Qed.

(** The counts of a manager are wires of the group [g]. *)
Definition counts_in_group (g : WireGroup) (bm : IRVBallotManager) : Prop :=
  Forall (fun kv => in_group g (snd kv)) (mapping bm).

(** A manager with the keys of a manager created for [n] choices. *)
Definition manager_for (n : Z) (g : WireGroup) (bm : IRVBallotManager) : Prop :=
  dict_keys (mapping bm) = dict_keys (mapping (IRVBallotManager_create n g)).

Lemma manager_key_legal (n : Z) (g : WireGroup) (bm : IRVBallotManager)
  (ordering : list Z) :
  manager_for n g bm ->
  (In (_map_ballot_to_str ordering) (dict_keys (mapping bm)) <-> legal_ordering n ordering).
Proof.
  intros Hm. rewrite Hm. cbn [IRVBallotManager_create mapping].
  rewrite init_mapping_keys. split.
  - intros (l & Hl & E). apply map_ballot_to_str_inj in E.
    + subst l. exact Hl.
    + destruct Hl as [_ Hall]. eapply Forall_impl; [| exact Hall].
      intros c Hc. cbv beta in Hc. lia.
  - intros H. exists ordering. split; [exact H | reflexivity].
Qed.

(** C9 (as the code has it).  On a manager for [n] choices whose
    counts are wires of a group of positive modulus,
    [add_votes_for_ordering] with a duplicate-free list of known
    choices replaces the count under the key of the ordering by
    [count + n_votes] (modulo [p]) and leaves every other count as it
    is; the counts stay wires of the group.  With an ordering that has
    a duplicate or an unknown choice it raises [KeyError] for the key
    of the ordering, whatever the counts are. *)
Theorem C9_add_votes_for_ordering (n : Z) (g : WireGroup) (bm : IRVBallotManager)
  (ordering : list Z) (n_votes : num) (s : Counters) :
  manager_for n g bm ->
  let key := _map_ballot_to_str ordering in
  (0 < group_modulus g -> counts_in_group g bm -> legal_ordering n ordering ->
   exists old bm',
     dict_get (mapping bm) key = Some old /\
     add_votes_for_ordering bm ordering n_votes s = (inr bm', s) /\
     dict_get (mapping bm') key = Some (__add__ old n_votes) /\
     value (__add__ old n_votes) = (value old + int_of n_votes) mod modulus old /\
     (forall k, k <> key -> dict_get (mapping bm') k = dict_get (mapping bm) k) /\
     manager_for n g bm' /\ counts_in_group g bm') /\
  (~ legal_ordering n ordering ->
   add_votes_for_ordering bm ordering n_votes s = (inl (KeyError key), s)).
Proof.
  intros Hm key. pose proof (manager_key_legal n g bm ordering Hm) as Hkey.
  fold key in Hkey. split.
  - intros _ Hcounts Hlegal. apply Hkey in Hlegal. pose proof Hlegal as Hin.
    apply dict_get_some_iff in Hlegal. destruct Hlegal as [old Hold].
    exists old. eexists. split; [exact Hold |].
    split; [unfold add_votes_for_ordering, dict_item, bind; fold key;
            rewrite Hold; reflexivity |].
    cbn [mapping]. split; [apply dict_get_set_same |].
    split; [reflexivity |].
    split; [intros k Hk; apply dict_get_set_other; exact Hk |].
    split.
    + unfold manager_for. cbn [mapping]. rewrite dict_set_keys_same by exact Hin.
      exact Hm.
    + unfold counts_in_group. cbn [mapping].
      apply (dict_set_values (in_group g)); [exact Hcounts |].
      apply (dict_get_value (in_group g) _ _ _ Hcounts Hold).
  - intros Hillegal. rewrite <- Hkey in Hillegal.
    apply dict_get_none_iff in Hillegal.
    unfold add_votes_for_ordering, dict_item, bind. fold key.
    rewrite Hillegal. reflexivity.
Qed.

Definition fresh_manager_3 : IRVBallotManager := IRVBallotManager_create 3 g11.

Lemma C9_add_votes_for_ordering_witness :
  (exists old bm',
     dict_get (mapping fresh_manager_3) (_map_ballot_to_str [0; 1; 2]) = Some old /\
     add_votes_for_ordering fresh_manager_3 [0; 1; 2] (W (gen g11 3 false))
       (mkCounters 0 0) = (inr bm', mkCounters 0 0) /\
     dict_get (mapping bm') (_map_ballot_to_str [0; 1; 2])
     = Some (__add__ old (W (gen g11 3 false))) /\
     value (__add__ old (W (gen g11 3 false)))
     = (value old + int_of (W (gen g11 3 false))) mod modulus old /\
     (forall k, k <> _map_ballot_to_str [0; 1; 2] ->
                dict_get (mapping bm') k = dict_get (mapping fresh_manager_3) k) /\
     manager_for 3 g11 bm' /\ counts_in_group g11 bm') /\
  add_votes_for_ordering fresh_manager_3 [0; 0] (W (gen g11 3 false)) (mkCounters 0 0)
  = (inl (KeyError (_map_ballot_to_str [0; 0])), mkCounters 0 0).
Proof.
  split.
  - apply (proj1 (C9_add_votes_for_ordering 3 g11 fresh_manager_3 [0; 1; 2]
                    (W (gen g11 3 false)) (mkCounters 0 0) eq_refl)).
    + reflexivity.
    + unfold counts_in_group. vm_compute. repeat constructor.
    + split.
      * repeat constructor; simpl; intuition discriminate.
      * repeat constructor; lia.
  - apply (proj2 (C9_add_votes_for_ordering 3 g11 fresh_manager_3 [0; 0]
                    (W (gen g11 3 false)) (mkCounters 0 0) eq_refl)).
    intros [Hnd _]. inversion Hnd as [|? ? Hnin _]. apply Hnin. left. reflexivity.
Defined.

(** C9 fails as stated: the error for an ordering with a duplicate is a
    [KeyError], not the [ValueError] of the assertion gates. *)
Lemma C9_duplicate_raises_key_error :
  ~ exists m s',
      add_votes_for_ordering fresh_manager_3 [0; 0] (W (gen g11 3 false))
        (mkCounters 0 0) = (inl (ValueError m), s').
Proof. intros (m & s' & E). vm_compute in E. discriminate E. Qed.

(** ** Reading a key back *)

#[local] Open Scope string_scope.

Lemma split_on_dashless (s : string) :
  dashless s = true -> Py.split_on "-" s = [s].
Proof.
  induction s as [|c s IH]; intros H; [reflexivity |].
  cbn [dashless] in H. apply andb_prop in H as [Hc Hs].
  cbn [Py.split_on]. apply negb_true_iff in Hc. rewrite Hc, (IH Hs). reflexivity.
Qed.

Lemma split_on_dashless_app (s r : string) :
  dashless s = true ->
  Py.split_on "-" (s ++ String "-" r) = s :: Py.split_on "-" r.
Proof.
  induction s as [|c s IH]; intros H.
  - reflexivity.
  - cbn [dashless] in H. apply andb_prop in H as [Hc Hs].
    cbn [append Py.split_on]. apply negb_true_iff in Hc. rewrite Hc, (IH Hs).
    reflexivity.
Qed.

Lemma split_on_key (l : list Z) :
  l <> [] -> Forall (fun c => 0 <= c)%Z l ->
  Py.split_on "-" (_map_ballot_to_str l) = map Py.str l.
Proof.
  intros Hne Hall. induction Hall as [|a l Ha Hl IH]; [contradiction |].
  rewrite map_ballot_to_str_cons. destruct (str_nonneg a Ha) as [Hd _].
  destruct l as [|b l].
  - cbn [key_tail map]. rewrite append_empty_r. apply split_on_dashless. exact Hd.
  - cbn [key_tail]. rewrite split_on_dashless_app by exact Hd.
    rewrite IH by discriminate. reflexivity.
Qed.

#[local] Close Scope string_scope.

Lemma mapM_int_str (l : list Z) (s : Counters) :
  mapM Py.int (map Py.str l) s = (inr l, s).
Proof.
  induction l as [|a l IH]; [reflexivity |].
  cbn [map mapM]. unfold bind. rewrite int_str, IH. reflexivity.
Qed.

Lemma key_nonempty (l : list Z) : l <> [] -> _map_ballot_to_str l <> EmptyString.
Proof.
  destruct l as [|a l]; [contradiction | intros _].
  rewrite map_ballot_to_str_cons. apply append_nonempty, str_nonempty.
Qed.

(** [_map_str_to_ballot] reads the key of a list of natural numbers
    back as that list. *)
Lemma map_str_to_ballot_key (l : list Z) (s : Counters) :
  Forall (fun c => 0 <= c) l ->
  _map_str_to_ballot (_map_ballot_to_str l) s = (inr l, s).
Proof.
  intros Hall. unfold _map_str_to_ballot. destruct l as [|a l]; [reflexivity |].
  destruct (String.eqb_spec (_map_ballot_to_str (a :: l)) "") as [E | _].
  - exfalso. exact (key_nonempty (a :: l) ltac:(discriminate) E).
  - rewrite split_on_key by (discriminate || exact Hall). apply mapM_int_str.
Qed.

(** ** Loops with an invariant on the part already traversed *)

Lemma returns_foldM_prefix {A B} (f : B -> A -> M B) (Inv : list A -> B -> Prop)
  (l : list A) (b0 : B) :
  Inv [] b0 ->
  (forall pre a post b, l = pre ++ a :: post -> Inv pre b ->
                        returns (f b a) (Inv (pre ++ [a]))) ->
  returns (foldM f b0 l) (Inv l).
Proof.
  intros H0 Hstep.
  assert (G : forall rest pre b, l = pre ++ rest -> Inv pre b ->
                                 returns (foldM f b rest) (Inv l)).
  { induction rest as [|a rest IH]; intros pre b E Hb; cbn [foldM].
    - rewrite app_nil_r in E. subst pre. apply returns_ret. exact Hb.
    - eapply returns_bind; [apply (Hstep pre a rest b E Hb) |].
      intros b' Hb'. apply (IH (pre ++ [a])); [| exact Hb'].
      rewrite <- app_assoc. exact E. }
  apply (G l [] b0); [reflexivity | exact H0].
Qed.

Lemma returns_mapM_length {A B} (f : A -> M B) (R : A -> B -> Prop) (l : list A) :
  (forall a, In a l -> returns (f a) (R a)) ->
  returns (mapM f l) (fun bs => Forall2 R l bs /\ List.length bs = List.length l).
Proof.
  intros H. eapply returns_weaken; [apply (returns_mapM f R l H) |].
  intros bs HF. split; [exact HF |]. symmetry. eapply Forall2_length. exact HF.
Qed.

(** ** The keys of a manager *)

Lemma dict_set_nodup (d : dict) (k : string) (v : Wire) :
  NoDup (dict_keys d) -> NoDup (dict_keys (dict_set d k v)).
Proof.
  induction d as [|[k0 v0] d IH]; cbn [dict_set dict_keys map fst]; intros H.
  - constructor; [intros [] | constructor].
  - inversion H as [|? ? Hnin Hnd]; subst.
    destruct (String.eqb_spec k0 k) as [-> | Hne]; cbn [map fst].
    + constructor; assumption.
    + constructor; [| apply IH; exact Hnd].
      fold (dict_keys (dict_set d k v)). rewrite dict_set_keys_in.
      intros [E | Hin]; [congruence | apply Hnin, Hin].
Qed.

Lemma fold_set_nodup {A} (key_of : A -> string) (v : Wire) (ls : list A) (d : dict) :
  NoDup (dict_keys d) ->
  NoDup (dict_keys (fold_left (fun d a => dict_set d (key_of a) v) ls d)).
Proof.
  revert d. induction ls as [|a ls IH]; intros d H; cbn [fold_left]; [exact H |].
  apply IH, dict_set_nodup, H.
Qed.

Lemma init_mapping_nodup (n : Z) (g : WireGroup) :
  NoDup (dict_keys (init_mapping n g)).
Proof.
  unfold init_mapping. apply dict_set_nodup.
  assert (G : forall (lens : list nat) (d : dict),
             NoDup (dict_keys d) ->
             NoDup (dict_keys
                      (fold_left
                         (fun d i =>
                            fold_left
                              (fun d perm =>
                                 dict_set d (_map_ballot_to_str perm) (gen g 0 false))
                              (permutations (Py.range n) i) d)
                         lens d))).
  { induction lens as [|i lens IH]; intros d Hd; cbn [fold_left].
    - exact Hd.
    - apply IH. apply (fold_set_nodup _map_ballot_to_str). exact Hd. }
  apply G. constructor.
Qed.

Lemma legal_nonneg (n : Z) (l : list Z) :
  legal_ordering n l -> Forall (fun c => 0 <= c) l.
Proof.
  intros [_ H]. eapply Forall_impl; [| exact H]. intros c Hc. cbv beta in Hc. lia.
Qed.

(** The list a key stands for (no counters are touched by reading it). *)
Definition decode (key : string) : list Z :=
  match _map_str_to_ballot key (mkCounters 0 0) with
  | (inr l, _) => l
  | (inl _, _) => []
  end.

Lemma decode_key (l : list Z) :
  Forall (fun c => 0 <= c) l -> decode (_map_ballot_to_str l) = l.
Proof. intros H. unfold decode. rewrite map_str_to_ballot_key by exact H. reflexivity. Qed.

(** The value stored under a key ([0] for a missing key). *)
Definition val (d : dict) (key : string) : Z :=
  match dict_get d key with Some w => value w | None => 0 end.

(** ** Sums over lists *)

Fixpoint zsum {A} (f : A -> Z) (l : list A) : Z :=
  match l with
  | [] => 0
  | a :: l' => f a + zsum f l'
  end.

Lemma zsum_app {A} (f : A -> Z) (l1 l2 : list A) :
  zsum f (l1 ++ l2) = zsum f l1 + zsum f l2.
Proof. induction l1 as [|a l1 IH]; cbn [app zsum]; [reflexivity | rewrite IH; ring]. Qed.

Lemma zsum_nonneg {A} (f : A -> Z) (l : list A) :
  (forall a, In a l -> 0 <= f a) -> 0 <= zsum f l.
Proof.
  induction l as [|a l IH]; intros H; cbn [zsum]; [lia |].
  pose proof (H a (or_introl eq_refl)).
  assert (0 <= zsum f l) by (apply IH; intros; apply H; right; assumption). lia.
Qed.

Lemma zsum_le {A} (f h : A -> Z) (l : list A) :
  (forall a, In a l -> f a <= h a) -> zsum f l <= zsum h l.
Proof.
  induction l as [|a l IH]; intros H; cbn [zsum]; [lia |].
  pose proof (H a (or_introl eq_refl)).
  assert (zsum f l <= zsum h l) by (apply IH; intros; apply H; right; assumption). lia.
Qed.

Lemma zsum_ext {A} (f h : A -> Z) (l : list A) :
  (forall a, In a l -> f a = h a) -> zsum f l = zsum h l.
Proof.
  induction l as [|a l IH]; intros H; cbn [zsum]; [reflexivity |].
  rewrite (H a (or_introl eq_refl)), IH; [reflexivity |].
  intros; apply H; right; assumption.
Qed.

Lemma zsum_zero {A} (f : A -> Z) (l : list A) :
  (forall a, In a l -> f a = 0) -> zsum f l = 0.
Proof.
  induction l as [|a l IH]; intros H; cbn [zsum]; [reflexivity |].
  rewrite (H a (or_introl eq_refl)), IH; [reflexivity |].
  intros; apply H; right; assumption.
Qed.

Lemma zsum_add {A} (f h : A -> Z) (l : list A) :
  zsum (fun a => f a + h a) l = zsum f l + zsum h l.
Proof. induction l as [|a l IH]; cbn [zsum]; [reflexivity | rewrite IH; ring]. Qed.

Lemma zsum_map {A B} (f : B -> Z) (m : A -> B) (l : list A) :
  zsum f (map m l) = zsum (fun a => f (m a)) l.
Proof. induction l as [|a l IH]; cbn [map zsum]; [reflexivity | rewrite IH; reflexivity]. Qed.

Lemma zsum_in_le {A} (f : A -> Z) (l : list A) (a : A) :
  (forall b, In b l -> 0 <= f b) -> In a l -> f a <= zsum f l.
Proof.
  intros Hnn Hin. apply in_split in Hin. destruct Hin as (l1 & l2 & ->).
  rewrite zsum_app. cbn [zsum].
  assert (0 <= zsum f l1) by (apply zsum_nonneg; intros; apply Hnn, in_or_app; left; assumption).
  assert (0 <= zsum f l2).
  { apply zsum_nonneg; intros; apply Hnn, in_or_app; right; right; assumption. }
  lia.
Qed.

(** A sum over a duplicate-free part of a list is at most the sum over
    the list, for non-negative terms. *)
Lemma zsum_incl_le {A} (f : A -> Z) (l1 l2 : list A) :
  NoDup l1 -> (forall a, In a l1 -> In a l2) -> (forall a, In a l2 -> 0 <= f a) ->
  zsum f l1 <= zsum f l2.
Proof.
  revert l2. induction l1 as [|a l1 IH]; intros l2 Hnd Hincl Hnn; cbn [zsum].
  - apply zsum_nonneg. exact Hnn.
  - inversion Hnd as [|? ? Hnin Hnd']; subst.
    destruct (in_split a l2 (Hincl a (or_introl eq_refl))) as (x & y & ->).
    rewrite zsum_app. cbn [zsum].
    assert (H : zsum f l1 <= zsum f (x ++ y)).
    { apply IH; [exact Hnd' | |].
      - intros b Hb. pose proof (Hincl b (or_intror Hb)) as Hb'.
        apply in_app_or in Hb'. apply in_or_app.
        destruct Hb' as [Hb' | [-> | Hb']]; [left | contradiction | right]; assumption.
      - intros b Hb. apply Hnn. apply in_app_or in Hb. apply in_or_app.
        destruct Hb as [Hb | Hb]; [left | right; right]; assumption. }
    rewrite zsum_app in H. lia.
Qed.

(** ** One round of an election: the tallies *)

(** The first choice of a key is [c]. *)
Definition head_is (c : Z) (key : string) : bool :=
  match decode key with
  | c' :: _ => c' =? c
  | [] => false
  end.

(** The integer sum of the counts of the keys led by [c]. *)
Definition tally (d : dict) (c : Z) (keys : list string) : Z :=
  zsum (fun k => if head_is c k then val d k else 0) keys.

Section IRVTallies.

Variable g : WireGroup.
Variable n : Z.
Let p := group_modulus g.
Hypothesis Hprime : Z.prime p.
Let K := dict_keys (init_mapping n g).

(** A dictionary with the keys of a fresh manager and canonical
    residues as counts. *)
Definition dict_wf (d : dict) : Prop :=
  dict_keys d = K /\ forall k w, dict_get d k = Some w -> reduced_in g w.

Lemma key_decode (k : string) :
  In k K -> legal_ordering n (decode k) /\ k = _map_ballot_to_str (decode k).
Proof.
  intros Hk. apply init_mapping_keys in Hk. destruct Hk as (l & Hl & ->).
  rewrite (decode_key l (legal_nonneg n l Hl)). split; [exact Hl | reflexivity].
Qed.

Lemma legal_key_in (l : list Z) : legal_ordering n l -> In (_map_ballot_to_str l) K.
Proof. intros Hl. apply init_mapping_keys. exists l. split; [exact Hl | reflexivity]. Qed.

Lemma read_key (k : string) (s : Counters) :
  In k K -> _map_str_to_ballot k s = (inr (decode k), s).
Proof.
  intros Hk. destruct (key_decode k Hk) as [Hl E]. rewrite E at 1.
  apply map_str_to_ballot_key, (legal_nonneg n), Hl.
Qed.

Lemma dict_wf_item (d : dict) (k : string) :
  dict_wf d -> In k K ->
  exists w, dict_get d k = Some w /\ reduced_in g w /\ val d k = value w.
Proof.
  intros [Hkeys Hred] Hk. rewrite <- Hkeys in Hk.
  apply dict_get_some_iff in Hk. destruct Hk as [w Hw].
  exists w. split; [exact Hw |]. split; [apply (Hred k w Hw) |].
  unfold val. rewrite Hw. reflexivity.
Qed.

Lemma val_bounds (d : dict) (k : string) : dict_wf d -> 0 <= val d k < p.
Proof.
  intros [_ Hred]. unfold val. destruct (dict_get d k) as [w |] eqn:E.
  - apply (Hred k w E).
  - pose proof (p_ge_2 g Hprime). fold p in H. lia.
Qed.

Lemma tally_snoc (d : dict) (c : Z) (pre : list string) (k : string) :
  tally d c (pre ++ [k]) = tally d c pre + (if head_is c k then val d k else 0).
Proof. unfold tally. rewrite zsum_app. cbn [zsum]. ring. Qed.

(** The loop state of [get_n_ballots_with_first_choice] after the keys
    [pre]. *)
Definition tally_state (d : dict) (c : Z) (pre : list string) (st : option Wire) : Prop :=
  match st with
  | None => forall k, In k pre -> head_is c k = false
  | Some w => reduced_in g w /\ value w = tally d c pre mod p
  end.

Lemma get_n_ballots_with_first_choice_spec (d : dict) (c : Z) :
  dict_wf d -> 0 <= c < n ->
  returns (get_n_ballots_with_first_choice (mkIRVBallotManager n d) c)
    (fun r => exists w, r = Some w /\ reduced_in g w /\ value w = tally d c K mod p).
Proof.
  intros Hwf Hc. unfold get_n_ballots_with_first_choice. cbn [mapping].
  destruct Hwf as [Hkeys Hred]. rewrite Hkeys. fold K.
  eapply returns_weaken.
  - apply returns_foldM_prefix with (Inv := tally_state d c).
    + intros k [].
    + intros pre k post st EK Hst.
      assert (Hk : In k K) by (rewrite EK; apply in_or_app; right; left; reflexivity).
      eapply returns_bind with (P := fun l => l = decode k).
      { intros s. exists (decode k), s. split; [apply read_key; exact Hk | reflexivity]. }
      intros l ->.
      destruct (dict_wf_item d k (conj Hkeys Hred) Hk) as (v & Hv & Hvr & Hval).
      assert (Hhead : head_is c k = match decode k with c' :: _ => c' =? c | [] => false end)
        by reflexivity.
      destruct (decode k) as [|c' rest].
      * apply returns_ret. destruct st as [w |]; cbn [tally_state] in *.
        -- rewrite tally_snoc, Hhead, Z.add_0_r. exact Hst.
        -- intros k' Hk'. apply in_app_or in Hk'.
           destruct Hk' as [Hk' | [<- | []]]; [apply Hst, Hk' | exact Hhead].
      * destruct (c' =? c) eqn:Ecc.
        -- eapply returns_bind with (P := fun x => x = v).
           { intros s. exists v, s. unfold dict_item. rewrite Hv.
             split; reflexivity. }
           intros x ->. destruct st as [w |]; cbn [tally_state] in *; apply returns_ret;
             cbn [tally_state]; rewrite tally_snoc, Hhead, Hval.
           ++ destruct Hst as [Hw Hwv].
              destruct (add_reduced g Hprime w (W v) (reduced_in_group g w Hw)) as [Hr Hrv].
              split; [exact Hr |]. rewrite Hrv, Hwv. cbn [int_of]. fold p.
              pull_mod. reflexivity.
           ++ split; [exact Hvr |].
              unfold tally. rewrite zsum_zero.
              ** rewrite Z.add_0_l. symmetry. apply Z.mod_small. apply Hvr.
              ** intros k' Hk'. rewrite (Hst k' Hk'). reflexivity.
        -- apply returns_ret. destruct st as [w |]; cbn [tally_state] in *.
           ++ rewrite tally_snoc, Hhead, Z.add_0_r. exact Hst.
           ++ intros k' Hk'. apply in_app_or in Hk'.
              destruct Hk' as [Hk' | [<- | []]]; [apply Hst, Hk' | exact Hhead].
  - intros [w |] Hst; cbn [tally_state] in Hst.
    + exists w. split; [reflexivity | exact Hst].
    + exfalso.
      assert (Hl : legal_ordering n [c]).
      { split; [constructor; [intros [] | constructor] | constructor; [lia | constructor]]. }
      pose proof (Hst _ (legal_key_in [c] Hl)) as Hh.
      unfold head_is in Hh. rewrite decode_key in Hh by (constructor; [lia | constructor]).
      rewrite Z.eqb_refl in Hh. discriminate Hh.
Qed.

End IRVTallies.

(** ** One round of an election: the choice to eliminate *)

Lemma returns_mapM_eq {A B} (f : A -> M B) (h : A -> B) (l : list A) :
  (forall a, In a l -> returns (f a) (fun b => b = h a)) ->
  returns (mapM f l) (fun bs => bs = map h l).
Proof.
  intros H. eapply returns_weaken; [apply (returns_mapM f (fun a b => b = h a) l H) |].
  clear H. intros bs HF. induction HF as [|a b l' bs' Hab _ IH]; [reflexivity |].
  cbn [map]. rewrite Hab, IH; reflexivity.
Qed.

(** [min] of a non-empty sequence, as [py_min] folds it. *)
Definition zmin_list (v : Z) (l : list Z) : Z := fold_left Z.min l v.

Lemma zmin_list_le (l : list Z) (v : Z) :
  zmin_list v l <= v /\ forall x, In x l -> zmin_list v l <= x.
Proof.
  unfold zmin_list. revert v. induction l as [|a l IH]; intros v; cbn [fold_left].
  - split; [lia | intros x []].
  - destruct (IH (Z.min v a)) as [H1 H2]. split; [lia |].
    intros x [<- | Hx]; [lia | apply H2, Hx].
Qed.

Lemma zmin_list_in (l : list Z) (v : Z) : In (zmin_list v l) (v :: l).
Proof.
  unfold zmin_list. revert v. induction l as [|a l IH]; intros v; cbn [fold_left].
  - left. reflexivity.
  - destruct (IH (Z.min v a)) as [H | H].
    + rewrite <- H.
      destruct (Z.min_spec v a) as [[_ E] | [_ E]]; rewrite E;
        [left | right; left]; reflexivity.
    + right. right. exact H.
Qed.

(** The values [find_first_indicator] computes from the values [l] of
    its inputs, with [done] accumulated so far. *)
Fixpoint first_hot (done : Z) (l : list Z) : list Z :=
  match l with
  | [] => []
  | w :: l' => let r := w * (1 - done) in r :: first_hot (done + r) l'
  end.

Lemma first_hot_app (l1 l2 : list Z) (done : Z) :
  first_hot done (l1 ++ l2)
  = first_hot done l1 ++ first_hot (done + zsum (fun x => x) (first_hot done l1)) l2.
Proof.
  revert done. induction l1 as [|w l1 IH]; intros done; cbn [app first_hot zsum].
  - rewrite Z.add_0_r. reflexivity.
  - rewrite IH. do 3 f_equal. ring.
Qed.

Section IRVElimination.

Variable g : WireGroup.
Let p := group_modulus g.
Hypothesis Hprime : Z.prime p.
Variable bits : Z.
Hypothesis Hbits : bits <= bit_length g / 2.

Lemma assert_gt_spec (a b : Wire) :
  in_group g a -> in_group g b -> value a >= value b ->
  returns (assert_gt g a b bits) (fun _ => True).
Proof.
  intros Ha Hb Hge. unfold assert_gt. pose proof (p_pos g Hprime) as Hp. fold p in Hp.
  destruct (Z.gtb_spec bits (bit_length g / 2)) as [Hgt | _]; [lia |].
  destruct (sub_reduced g Hprime a b Ha Hb) as [[Hdg Hdr] _].
  set (diff_wire := __sub__ a (W b)) in *.
  destruct (Z.geb_spec (value a) (value b)) as [_ | Hlt]; [| lia].
  eapply returns_bind; [apply returns_ret_eq |]. intros v ->.
  eapply returns_bind;
    [apply (split_digits g (gen g (value diff_wire) false) bits);
     [cbn [gen value]; lia | reflexivity] |].
  intros _ _.
  eapply returns_bind; [apply (mul_reduced g Hprime diff_wire (Int 2) Hdg) |].
  intros twice [[Htg _] Htv].
  apply assert_equal_wires; [exact Htg | apply in_group_add; exact Hdg |].
  rewrite Htv. cbn [int_of __add__ gen value modulus]. rewrite Hdg. fold p.
  pull_mod. f_equal. ring.
Qed.

(** The vote of a choice as [compute_min] sees it: [p - 1] for an
    eliminated choice. *)
Definition masked (v e : Z) : Z := if e =? 1 then p - 1 else v.

Lemma masked_vote (w e : Wire) :
  reduced_in g w -> in_group g e -> is_bit e ->
  returns (n <- from_option TypeError (Some w) ;;
           t <- __mul__ n (W (__rsub__ e 1)) ;;
           ret (__sub__ t (W e)))
    (fun r => reduced_in g r /\ value r = masked (value w) (value e)).
Proof.
  intros Hw Heg Heb. cbn [from_option].
  eapply returns_bind; [apply returns_ret_eq |]. intros x ->.
  eapply returns_bind;
    [apply (mul_reduced g Hprime w _ (reduced_in_group g w Hw)) |].
  intros t [Ht Htv]. apply returns_ret.
  destruct (sub_reduced g Hprime t e (reduced_in_group g t Ht) Heg) as [Hr Hrv].
  split; [exact Hr |].
  rewrite Hrv, Htv. cbn [int_of].
  rewrite (proj2 (rsub_reduced g Hprime e 1 Heg)). fold p. unfold masked.
  destruct Hw as [_ Hwr]. fold p in Hwr.
  destruct Heb as [-> | ->]; cbn [Z.eqb Pos.eqb].
  - transitivity (value w mod p); [| apply Z.mod_small; exact Hwr].
    pull_mod. apply mod_add_multiple with (k := value w + 1). ring.
  - pose proof (p_ge_2 g Hprime) as Hp2. fold p in Hp2.
    transitivity ((p - 1) mod p); [| apply Z.mod_small; lia].
    pull_mod. apply mod_add_multiple with (k := value w). ring.
Qed.

Lemma masked_votes (ws es : list Wire) :
  Forall (reduced_in g) ws -> Forall (fun e => in_group g e /\ is_bit e) es ->
  returns (mapM (fun '(n_votes, elim) =>
                   n <- from_option TypeError n_votes ;;
                   t <- __mul__ n (W (__rsub__ elim 1)) ;;
                   ret (__sub__ t (W elim)))
                (combine (map Some ws) es))
    (fun out => Forall (reduced_in g) out /\
                map value out
                = map (fun we => masked (value (fst we)) (value (snd we)))
                      (combine ws es)).
Proof.
  intros Hws. revert es. induction Hws as [|w ws Hw Hws IH]; intros es Hes.
  - apply returns_ret. split; [constructor | reflexivity].
  - destruct Hes as [|e es [Heg Heb] Hes].
    + apply returns_ret. split; [constructor | reflexivity].
    + cbn [map combine mapM].
      eapply returns_bind; [apply (masked_vote w e Hw Heg Heb) |].
      intros r [Hr Hrv].
      eapply returns_bind; [apply (IH es Hes) |].
      intros out [Hout Hvals]. apply returns_ret.
      split; [constructor; assumption |].
      cbn [map fst snd]. rewrite Hvals, Hrv. reflexivity.
Qed.

Lemma minimum_spec (w : Wire) (ws : list Wire) :
  Forall (reduced_in g) (w :: ws) ->
  let m := zmin_list (value w) (map value ws) in
  returns (minimum g (w :: ws) bits)
    (fun inds =>
       inds = map (fun x => gen g (if value x =? m then 1 else 0) false) (w :: ws)).
Proof.
  intros Hall m. unfold minimum.
  eapply returns_bind; [apply returns_ret_eq |]. intros min_val ->. fold m.
  assert (Hm : forall x, In x (w :: ws) -> m <= value x).
  { intros x [<- | Hx]; [apply (proj1 (zmin_list_le _ _)) |].
    apply (proj2 (zmin_list_le _ _)). apply in_map. exact Hx. }
  assert (Hmr : 0 <= m < p).
  { pose proof (zmin_list_in (map value ws) (value w)) as Hin. fold m in Hin.
    change (value w :: map value ws) with (map value (w :: ws)) in Hin.
    apply in_map_iff in Hin. destruct Hin as (x & <- & Hx).
    rewrite Forall_forall in Hall. apply (Hall x Hx). }
  apply returns_mapM_eq. intros x Hx.
  rewrite Forall_forall in Hall. destruct (Hall x Hx) as [Hxg Hxr]. fold p in Hxr.
  eapply returns_bind; [apply (eq_spec g Hprime x (gen g m false) Hxg eq_refl) |].
  intros ind ->.
  eapply returns_bind;
    [apply (assert_gt_spec x (gen g m false) Hxg eq_refl);
     cbn [gen value]; pose proof (Hm x Hx); lia |].
  intros _ _. apply returns_ret. f_equal. cbn [gen value]. fold p.
  pose proof (Hm x Hx) as Hle.
  destruct (Z.eqb_spec (value x) m) as [-> | Hne].
  - replace (m + (p - m)) with p by ring. rewrite Z_mod_same_full. reflexivity.
  - replace (value x + (p - m)) with (value x - m + 1 * p) by ring.
    rewrite Z_mod_plus_full, Z.mod_small by lia.
    destruct (Z.eqb_spec (value x - m) 0); [lia | reflexivity].
Qed.

Definition is_bit_value (v : Z) : Prop := v = 0 \/ v = 1.

Lemma first_hot_bits (l : list Z) (done : Z) :
  is_bit_value done -> Forall is_bit_value l ->
  Forall is_bit_value (first_hot done l) /\
  is_bit_value (done + zsum (fun x => x) (first_hot done l)).
Proof.
  intros Hd Hl. revert done Hd. induction Hl as [|w l Hw Hl IH]; intros done Hd.
  - cbn [first_hot zsum]. split; [constructor | rewrite Z.add_0_r; exact Hd].
  - cbn [first_hot zsum].
    assert (Hr : is_bit_value (w * (1 - done)) /\ is_bit_value (done + w * (1 - done))).
    { destruct Hd as [-> | ->], Hw as [-> | ->]; cbn; unfold is_bit_value; lia. }
    destruct Hr as [Hr Hd']. destruct (IH _ Hd') as [H1 H2].
    split; [constructor; assumption |].
    replace (done + (w * (1 - done) + zsum (fun x => x) (first_hot (done + w * (1 - done)) l)))
      with (done + w * (1 - done) + zsum (fun x => x) (first_hot (done + w * (1 - done)) l))
      by ring.
    exact H2.
Qed.

Lemma find_first_indicator_spec (inds : list Wire) :
  Forall (fun w => in_group g w /\ is_bit w) inds ->
  returns (find_first_indicator g inds)
    (fun res => Forall (reduced_in g) res /\
                map value res = first_hot 0 (map value inds)).
Proof.
  intros Hinds. unfold find_first_indicator.
  pose proof (p_ge_2 g Hprime) as Hp2. fold p in Hp2.
  eapply returns_bind.
  - apply returns_foldM_prefix
      with (Inv := fun pre st =>
                     reduced_in g (fst st) /\ Forall (reduced_in g) (snd st) /\
                     map value (snd st) = first_hot 0 (map value pre) /\
                     value (fst st)
                     = zsum (fun x => x) (first_hot 0 (map value pre))).
    + cbn [fst snd map first_hot zsum gen value].
      split; [apply gen_reduced; fold p; lia |].
      split; [constructor |]. split; reflexivity.
    + intros pre w post [done res] E (Hd & Hres & Hvals & Hdv).
      cbn [fst snd] in Hd, Hres, Hvals, Hdv.
      assert (Hw : in_group g w /\ is_bit w).
      { rewrite Forall_forall in Hinds. apply Hinds. rewrite E.
        apply in_or_app. right. left. reflexivity. }
      destruct Hw as [Hwg Hwb].
      assert (Hpre : Forall is_bit_value (map value pre)).
      { apply Forall_forall. intros v Hv. apply in_map_iff in Hv.
        destruct Hv as (x & <- & Hx). rewrite Forall_forall in Hinds.
        apply Hinds. rewrite E. apply in_or_app. left. exact Hx. }
      destruct (first_hot_bits (map value pre) 0 (or_introl eq_refl) Hpre) as [_ Hdb].
      rewrite Z.add_0_l, <- Hdv in Hdb.
      eapply returns_bind; [apply (mul_reduced g Hprime w _ Hwg) |].
      intros r [Hr Hrv]. apply returns_ret. cbn [fst snd].
      cbn [int_of] in Hrv.
      rewrite (proj2 (rsub_reduced g Hprime done 1 (reduced_in_group g done Hd))) in Hrv.
      fold p in Hrv.
      assert (Hrv' : value r = value w * (1 - value done)).
      { rewrite Hrv. destruct Hdb as [-> | ->], Hwb as [-> | ->].
        - apply mod_eq_zero. reflexivity.
        - transitivity (1 mod p); [| apply Z.mod_small; lia].
          pull_mod. apply mod_add_multiple with (k := 1). ring.
        - apply mod_eq_zero. reflexivity.
        - apply mod_eq_zero. pull_mod. apply mod_add_multiple with (k := 1). ring. }
      destruct (add_reduced g Hprime done (W r) (reduced_in_group g done Hd)) as [Hd' Hdv'].
      split; [exact Hd' |].
      split; [apply Forall_app; split; [exact Hres | constructor; [exact Hr | constructor]] |].
      rewrite !map_app, first_hot_app. cbn [map first_hot]. rewrite Z.add_0_l, <- Hdv, <- Hvals.
      split; [rewrite Hrv'; reflexivity |].
      rewrite zsum_app. cbn [zsum]. rewrite Hvals, <- Hdv.
      rewrite Hdv'. cbn [int_of]. fold p. rewrite Hrv'.
      rewrite Z.add_0_r. apply Z.mod_small.
      destruct Hdb as [-> | ->], Hwb as [-> | ->]; lia.
  - intros [done res] (_ & Hres & Hvals & _). apply returns_ret.
    cbn [snd] in *. split; assumption.
Qed.

End IRVElimination.

(** ** One round of an election: the indicator lists *)

(** The list of length [len] with a single 1, at position [j]. *)
Fixpoint one_hot (j len : nat) {struct len} : list Z :=
  match len with
  | O => []
  | S len' =>
      match j with
      | O => 1 :: repeat 0 len'
      | S j' => 0 :: one_hot j' len'
      end
  end.

Lemma first_hot_done (l : list Z) : first_hot 1 l = repeat 0 (List.length l).
Proof.
  induction l as [|w l IH]; [reflexivity |].
  cbn [first_hot List.length repeat]. rewrite Z.sub_diag, Z.mul_0_r, Z.add_0_r, IH.
  reflexivity.
Qed.

Lemma first_hot_one_hot (ms : list Z) :
  Forall is_bit_value ms -> In 1 ms ->
  exists j, (j < List.length ms)%nat /\ nth j ms 0 = 1 /\
            first_hot 0 ms = one_hot j (List.length ms).
Proof.
  induction 1 as [|w ms Hw Hms IH]; intros Hin; [contradiction |].
  destruct Hw as [-> | ->].
  - destruct Hin as [Hin | Hin]; [discriminate Hin |].
    destruct (IH Hin) as (j & Hj & Hnth & Hfh).
    exists (S j). split; [cbn [List.length]; lia |]. split; [exact Hnth |].
    cbn [first_hot List.length one_hot]. rewrite Z.mul_0_l, Z.add_0_r, Hfh. reflexivity.
  - exists O. split; [cbn [List.length]; lia |]. split; [reflexivity |].
    cbn [first_hot List.length one_hot].
    change (0 + 1 * (1 - 0)) with 1. rewrite first_hot_done. reflexivity.
Qed.

Lemma one_hot_length (j len : nat) : List.length (one_hot j len) = len.
Proof.
  revert j. induction len as [|len IH]; intros j; [reflexivity |].
  destruct j; cbn [one_hot List.length]; [rewrite repeat_length | rewrite IH]; reflexivity.
Qed.

Lemma nth_repeat_zero (i len : nat) : nth i (repeat 0 len) 0 = 0.
Proof.
  revert i. induction len as [|len IH]; intros [|i]; cbn [repeat nth]; auto.
Qed.

Lemma one_hot_nth (j len i : nat) :
  (j < len)%nat -> nth i (one_hot j len) 0 = if Nat.eqb i j then 1 else 0.
Proof.
  revert j i. induction len as [|len IH]; intros j i Hj; [lia |].
  destruct j as [|j], i as [|i]; cbn [one_hot nth Nat.eqb]; try reflexivity.
  - apply nth_repeat_zero.
  - apply IH. lia.
Qed.

(** The values of [ind_eliminated] after the indicators of a round are
    added, modulo [p]. *)
Definition add_values (p : Z) (vs hs : list Z) : list Z :=
  map (fun vh => (fst vh + snd vh) mod p) (combine vs hs).

Lemma add_one_hot (p : Z) (vs : list Z) (j : nat) :
  2 <= p -> Forall is_bit_value vs -> nth j vs 1 = 0 ->
  let vs' := add_values p vs (one_hot j (List.length vs)) in
  Forall is_bit_value vs' /\
  zsum (fun x => x) vs' = zsum (fun x => x) vs + 1 /\
  List.length vs' = List.length vs /\
  forall i, nth i vs' 1 = if Nat.eqb i j then 1 else nth i vs 1.
Proof.
  intros Hp Hvs. revert j. induction Hvs as [|v vs Hv Hvs IH]; intros j Hj.
  - destruct j; discriminate Hj.
  - destruct j as [|j]; cbn [List.length one_hot]; unfold add_values;
      cbn [combine map fst snd zsum List.length].
    + cbn [nth] in Hj. subst v. change (0 + 1) with 1.
      rewrite (Z.mod_small 1 p) by lia.
      assert (E : map (fun vh => (fst vh + snd vh) mod p)
                      (combine vs (repeat 0 (List.length vs))) = vs).
      { clear IH. induction Hvs as [|x xs Hx Hxs IHx]; [reflexivity |].
        cbn [List.length repeat combine map fst snd]. rewrite IHx, Z.add_0_r.
        rewrite Z.mod_small; [reflexivity |]. destruct Hx as [-> | ->]; lia. }
      rewrite E. split; [constructor; [right; reflexivity | exact Hvs] |].
      split; [lia |]. split; [reflexivity |].
      intros [|i]; reflexivity.
    + cbn [nth] in Hj. destruct (IH j Hj) as (H1 & H2 & H3 & H4).
      unfold add_values in H1, H2, H3, H4. rewrite Z.add_0_r.
      assert (Ev : v mod p = v) by (apply Z.mod_small; destruct Hv as [-> | ->]; lia).
      rewrite Ev. split; [constructor; assumption |].
      split; [rewrite H2; ring |]. split; [rewrite H3; reflexivity |].
      intros [|i]; cbn [nth Nat.eqb]; [reflexivity | apply H4].
Qed.

Lemma bit_list_has_zero (vs : list Z) :
  Forall is_bit_value vs -> zsum (fun x => x) vs < Z.of_nat (List.length vs) ->
  exists i, (i < List.length vs)%nat /\ nth i vs 1 = 0.
Proof.
  induction 1 as [|v vs Hv Hvs IH]; intros Hlt.
  - cbn in Hlt. lia.
  - destruct Hv as [-> | ->].
    + exists O. split; [cbn [List.length]; lia | reflexivity].
    + cbn [zsum List.length] in Hlt. destruct IH as (i & Hi & Hnth); [lia |].
      exists (S i). split; [cbn [List.length]; lia | exact Hnth].
Qed.

Lemma bit_list_counts (vs : list Z) :
  Forall is_bit_value vs ->
  Z.of_nat (count_occ Z.eq_dec vs 1) = zsum (fun x => x) vs /\
  Z.of_nat (count_occ Z.eq_dec vs 0) = Z.of_nat (List.length vs) - zsum (fun x => x) vs.
Proof.
  induction 1 as [|v vs Hv Hvs [IH1 IH0]]; [split; reflexivity |].
  destruct Hv as [-> | ->]; cbn [count_occ zsum List.length];
    repeat match goal with
      | |- context [Z.eq_dec ?a ?b] => destruct (Z.eq_dec a b); try discriminate
      end;
    split; lia.
Qed.

Lemma add_indicators_loop (th : list Wire) :
  forall (te done hdone : list Wire),
    List.length te = List.length th -> List.length done = List.length hdone ->
    returns
      (foldM (fun acc i =>
                old <- from_option IndexError (nth_error acc (Z.to_nat i)) ;;
                ind <- from_option IndexError (nth_error (hdone ++ th) (Z.to_nat i)) ;;
                ret (firstn (Z.to_nat i) acc ++ __add__ old (W ind)
                       :: skipn (S (Z.to_nat i)) acc))
             (done ++ te)
             (map Z.of_nat (seq (List.length done) (List.length te))))
      (fun r => r = done ++ map (fun eh => __add__ (fst eh) (W (snd eh)))
                                (combine te th)).
Proof.
  induction th as [|h th IH]; intros te done hdone Hlen Hdone.
  - destruct te; [| discriminate Hlen]. cbn [List.length seq map foldM combine].
    apply returns_ret. reflexivity.
  - destruct te as [|e te]; [discriminate Hlen |].
    cbn [List.length seq map foldM combine fst snd].
    rewrite Nat2Z.id.
    apply returns_bind with (P := fun acc => acc = done ++ __add__ e (W h) :: te).
    + rewrite nth_error_app2 by lia. rewrite Nat.sub_diag. cbn [nth_error from_option].
      eapply returns_bind; [apply returns_ret_eq |]. intros old ->.
      replace (nth_error (hdone ++ h :: th) (List.length done)) with (Some h)
        by (rewrite nth_error_app2 by lia; rewrite Hdone, Nat.sub_diag; reflexivity).
      cbn [from_option].
      eapply returns_bind; [apply returns_ret_eq |]. intros ind ->.
      apply returns_ret.
      rewrite firstn_app, Nat.sub_diag, firstn_all, firstn_O, app_nil_r.
      f_equal. f_equal.
      rewrite skipn_app, skipn_all2 by lia.
      replace (S (List.length done) - List.length done)%nat with 1%nat by lia.
      reflexivity.
    + intros acc ->.
      specialize (IH te (done ++ [__add__ e (W h)]) (hdone ++ [h])).
      rewrite <- !app_assoc in IH. cbn [app] in IH.
      rewrite length_app in IH. cbn [List.length] in IH.
      replace (List.length done + 1)%nat with (S (List.length done)) in IH by lia.
      apply IH; [injection Hlen as Hlen; exact Hlen |].
      rewrite length_app. cbn [List.length]. lia.
Qed.

Lemma add_indicators_spec (g : WireGroup) (n : Z) (es hs : list Wire) :
  Z.prime (group_modulus g) ->
  List.length es = Z.to_nat n -> List.length hs = Z.to_nat n ->
  Forall (in_group g) es ->
  returns (add_indicators es hs n)
    (fun es' => Forall (reduced_in g) es' /\
                map value es' = add_values (group_modulus g) (map value es) (map value hs)).
Proof.
  intros Hprime He Hh Hes. unfold add_indicators, Py.range.
  rewrite <- He.
  pose proof (add_indicators_loop hs es [] [] ltac:(lia) eq_refl) as H.
  cbn [app List.length] in H.
  eapply returns_weaken; [exact H |]. intros es' ->. clear H.
  assert (Hlen : List.length es = List.length hs) by lia. clear He Hh.
  revert hs Hlen. induction Hes as [|e es Heg Hes IH]; intros hs Hlen.
  - split; [constructor | reflexivity].
  - destruct hs as [|h hs]; [discriminate Hlen |].
    cbn [combine map fst snd]. destruct (IH hs) as [H1 H2]; [injection Hlen as H; exact H |].
    destruct (add_reduced g Hprime e (W h) Heg) as [Hr Hv].
    split; [constructor; assumption |].
    unfold add_values in *. cbn [combine map fst snd]. rewrite H2, Hv. reflexivity.
Qed.

(** ** One round of an election: moving the votes *)

Lemma zsum_single {A} (f : A -> Z) (l : list A) (x : A) :
  NoDup l -> In x l -> (forall a, In a l -> a <> x -> f a = 0) -> zsum f l = f x.
Proof.
  intros Hnd Hin Hz. apply in_split in Hin. destruct Hin as (l1 & l2 & ->).
  apply NoDup_remove_2 in Hnd. rewrite zsum_app. cbn [zsum].
  rewrite !zsum_zero; [ring | |].
  - intros a Ha. apply Hz; [apply in_or_app; right; right; exact Ha |].
    intros ->. apply Hnd, in_or_app. right. exact Ha.
  - intros a Ha. apply Hz; [apply in_or_app; left; exact Ha |].
    intros ->. apply Hnd, in_or_app. left. exact Ha.
Qed.

Lemma existsb_Zeqb_in (c : Z) (l : list Z) : existsb (Z.eqb c) l = true <-> In c l.
Proof.
  rewrite existsb_exists. split.
  - intros (x & Hx & E). apply Z.eqb_eq in E. subst x. exact Hx.
  - intros H. exists c. split; [exact H | apply Z.eqb_refl].
Qed.

Lemma existsb_string_in (k : string) (l : list string) :
  existsb (String.eqb k) l = true <-> In k l.
Proof.
  rewrite existsb_exists. split.
  - intros (x & Hx & E). apply String.eqb_eq in E. subst x. exact Hx.
  - intros H. exists k. split; [exact H | apply String.eqb_refl].
Qed.

Section IRVUpdate.

Variable g : WireGroup.
Variable n : Z.
Let p := group_modulus g.
Hypothesis Hprime : Z.prime p.
Let K := dict_keys (init_mapping n g).

(** The indicators of the round: a single 1, at the choice [cstar]. *)
Variable hs : list Wire.
Variable jstar : nat.
Hypothesis Hjstar : (jstar < Z.to_nat n)%nat.
Hypothesis Hhs_len : List.length hs = Z.to_nat n.
Hypothesis Hhs_red : Forall (reduced_in g) hs.
Hypothesis Hhs_val : map value hs = one_hot jstar (Z.to_nat n).
Let cstar := Z.of_nat jstar.

Definition hot (c : Z) : Z := if c =? cstar then 1 else 0.

Lemma hs_nth (c : Z) :
  0 <= c < n ->
  exists w, nth_error hs (Z.to_nat c) = Some w /\ reduced_in g w /\ value w = hot c.
Proof.
  intros Hc. destruct (nth_error hs (Z.to_nat c)) as [w |] eqn:E.
  - exists w. split; [reflexivity |]. split.
    + rewrite Forall_forall in Hhs_red. apply Hhs_red. eapply nth_error_In. exact E.
    + pose proof (one_hot_nth jstar (Z.to_nat n) (Z.to_nat c) Hjstar) as Hn.
      rewrite <- Hhs_val in Hn.
      rewrite (nth_indep _ 0 (value (create 0 0 false))) in Hn
        by (rewrite length_map; lia).
      rewrite map_nth in Hn.
      rewrite (nth_error_nth _ _ _ E) in Hn. rewrite Hn. unfold hot, cstar.
      destruct (Nat.eqb_spec (Z.to_nat c) jstar) as [H | H];
        destruct (Z.eqb_spec c (Z.of_nat jstar)) as [H' | H']; try reflexivity; lia.
  - apply nth_error_None in E. lia.
Qed.

(** What the update adds to the count of the ordering [l]: the count of
    [cstar] followed by [l]. *)
Definition moved_from (d : dict) (l : list Z) : Z :=
  if existsb (Z.eqb cstar) l then 0 else val d (_map_ballot_to_str (cstar :: l)).

Definition gain (d : dict) (l : list Z) (cs : list Z) : Z :=
  zsum (fun c => if existsb (Z.eqb c) l then 0
                 else hot c * val d (_map_ballot_to_str (c :: l))) cs.

Lemma gain_range (d : dict) (l : list Z) : gain d l (Py.range n) = moved_from d l.
Proof.
  unfold gain, moved_from.
  rewrite (zsum_single _ (Py.range n) cstar (range_nodup n)).
  - unfold hot. rewrite Z.eqb_refl. destruct (existsb (Z.eqb cstar) l); ring.
  - apply range_in. unfold cstar. lia.
  - intros c _ Hne. unfold hot. destruct (Z.eqb_spec c cstar); [contradiction |].
    destruct (existsb (Z.eqb c) l); ring.
Qed.

Lemma cons_legal (c : Z) (l : list Z) :
  legal_ordering n l -> 0 <= c < n -> ~ In c l -> legal_ordering n (c :: l).
Proof.
  intros [Hnd Hall] Hc Hnin. split; constructor; assumption.
Qed.

Lemma cons_key_differs (c : Z) (l : list Z) :
  legal_ordering n l -> _map_ballot_to_str (c :: l) <> _map_ballot_to_str l.
Proof.
  intros Hl E. apply map_ballot_to_str_inj in E; [| apply (legal_nonneg n), Hl].
  apply (f_equal (@List.length Z)) in E. cbn [List.length] in E. lia.
Qed.

Lemma dict_wf_set (d : dict) (k : string) (w : Wire) :
  dict_wf g n d -> In k K -> reduced_in g w -> dict_wf g n (dict_set d k w).
Proof.
  intros [Hkeys Hred] Hk Hw. split.
  - rewrite dict_set_keys_same; [exact Hkeys | rewrite Hkeys; exact Hk].
  - intros k' w' Hget. destruct (String.eqb_spec k' k) as [-> | Hne].
    + rewrite dict_get_set_same in Hget. injection Hget as <-. exact Hw.
    + rewrite dict_get_set_other in Hget by exact Hne. apply (Hred k' w' Hget).
Qed.

(** The inner loop of the update, for the key [k] of the ordering [l]. *)
Lemma update_inner (d : dict) (k : string) :
  dict_wf g n d -> In k K ->
  returns (foldM (update_for_choice hs k (decode k)) d (Py.range n))
    (fun d' => dict_wf g n d' /\
               (forall k', k' <> k -> dict_get d' k' = dict_get d k') /\
               val d' k = (val d k + gain d (decode k) (Py.range n)) mod p).
Proof.
  intros Hwf Hk. destruct (key_decode g n k Hk) as [Hl Ek].
  set (l := decode k) in *.
  apply returns_foldM_prefix
    with (Inv := fun pre d' =>
                   dict_wf g n d' /\
                   (forall k', k' <> k -> dict_get d' k' = dict_get d k') /\
                   val d' k = (val d k + gain d l pre) mod p).
  - split; [exact Hwf |]. split; [reflexivity |].
    unfold gain. cbn [zsum]. rewrite Z.add_0_r. symmetry.
    apply Z.mod_small. apply (val_bounds g n Hprime d k Hwf).
  - intros pre c post d' E (Hwf' & Hother & Hval).
    assert (Hc : 0 <= c < n).
    { apply range_in. rewrite E. apply in_or_app. right. left. reflexivity. }
    assert (Hgain : gain d l (pre ++ [c])
                    = gain d l pre + (if existsb (Z.eqb c) l then 0
                                      else hot c * val d (_map_ballot_to_str (c :: l)))).
    { unfold gain. rewrite zsum_app. cbn [zsum]. ring. }
    unfold update_for_choice.
    destruct (existsb (Z.eqb c) l) eqn:Ein.
    + apply returns_ret. split; [exact Hwf' |]. split; [exact Hother |].
      rewrite Hgain, Z.add_0_r. exact Hval.
    + assert (Hnin : ~ In c l).
      { intros H. apply existsb_Zeqb_in in H. rewrite H in Ein. discriminate Ein. }
      pose proof (cons_legal c l Hl Hc Hnin) as Hcl.
      pose proof (legal_key_in g n (c :: l) Hcl) as Hpk.
      set (pk := _map_ballot_to_str (c :: l)) in *.
      assert (Hpkk : pk <> k) by (rewrite Ek; apply cons_key_differs; exact Hl).
      destruct Hwf' as [Hkeys' Hred'].
      assert (Hex : existsb (String.eqb pk) (dict_keys d') = true).
      { apply existsb_string_in. rewrite Hkeys'. exact Hpk. }
      rewrite Hex.
      destruct (dict_wf_item g n d' k (conj Hkeys' Hred') Hk) as (old & Hold & Holdr & Holdv).
      destruct (dict_wf_item g n d' pk (conj Hkeys' Hred') Hpk) as (prev & Hprev & Hprevr & Hprevv).
      destruct (hs_nth c Hc) as (ind & Hind & Hindr & Hindv).
      unfold dict_item. rewrite Hold, Hind, Hprev. cbn [from_option].
      eapply returns_bind; [apply returns_ret_eq |]. intros x ->.
      eapply returns_bind; [apply returns_ret_eq |]. intros x ->.
      eapply returns_bind; [apply returns_ret_eq |]. intros x ->.
      eapply returns_bind;
        [apply (mul_reduced g Hprime ind (W prev) (reduced_in_group g ind Hindr)) |].
      intros moved [Hmr Hmv]. apply returns_ret.
      destruct (add_reduced g Hprime old (W moved) (reduced_in_group g old Holdr))
        as [Hnr Hnv].
      split; [apply dict_wf_set; [exact (conj Hkeys' Hred') | exact Hk | exact Hnr] |].
      split.
      * intros k' Hk'. rewrite dict_get_set_other by exact Hk'. apply Hother, Hk'.
      * unfold val at 1. rewrite dict_get_set_same, Hnv. cbn [int_of].
        rewrite Hmv. cbn [int_of].
        rewrite <- Holdv, Hval, Hindv, Hgain. fold p.
        assert (Eprev : value prev = val d pk).
        { rewrite <- Hprevv. unfold val. rewrite (Hother pk Hpkk). reflexivity. }
        rewrite Eprev. pull_mod. f_equal. ring.
Qed.

(** What the update leaves under the key [k]. *)
Definition updated (d : dict) (k : string) : Z :=
  (val d k + moved_from d (decode k)) mod p.

Lemma update_votes_on_elimination_spec (d : dict) :
  dict_wf g n d ->
  returns (update_votes_on_elimination (mkIRVBallotManager n d) hs)
    (fun bm' => bm_n_choices bm' = n /\ dict_wf g n (mapping bm') /\
                forall k, In k K -> val (mapping bm') k = updated d k).
Proof.
  intros Hwf. unfold update_votes_on_elimination. cbn [mapping bm_n_choices].
  pose proof (init_mapping_nodup n g) as HKnd. fold K in HKnd.
  destruct Hwf as [Hkeys Hred]. rewrite Hkeys. fold K.
  eapply returns_bind.
  - apply returns_foldM_prefix
      with (Inv := fun pre d' =>
                     dict_wf g n d' /\
                     (forall k, In k pre -> val d' k = updated d k) /\
                     (forall k, ~ In k pre -> dict_get d' k = dict_get d k)).
    + split; [exact (conj Hkeys Hred) |]. split; [intros k [] | reflexivity].
    + intros pre k post d' E (Hwf' & Hdone & Htodo).
      assert (Hk : In k K) by (rewrite E; apply in_or_app; right; left; reflexivity).
      assert (Hkpre : ~ In k pre).
      { rewrite E in HKnd. apply NoDup_remove_2 in HKnd.
        intros H. apply HKnd, in_or_app. left. exact H. }
      eapply returns_bind with (P := fun l => l = decode k).
      { intros s. exists (decode k), s.
        split; [apply (read_key g n); exact Hk | reflexivity]. }
      intros l ->.
      eapply returns_weaken; [apply (update_inner d' k Hwf' Hk) |].
      intros d'' (Hwf'' & Hother & Hval).
      destruct (key_decode g n k Hk) as [Hl Ek].
      split; [exact Hwf'' |]. split.
      * intros k' Hk'. apply in_app_or in Hk'. destruct Hk' as [Hk' | [<- | []]].
        -- assert (Hne : k' <> k) by (intros ->; contradiction).
           unfold val. rewrite (Hother k' Hne). apply (Hdone k' Hk').
        -- rewrite Hval, gain_range. unfold updated.
           assert (E1 : val d' k = val d k) by (unfold val; rewrite (Htodo k Hkpre); reflexivity).
           rewrite E1. f_equal. f_equal. unfold moved_from.
           destruct (existsb (Z.eqb cstar) (decode k)) eqn:Ein; [reflexivity |].
           set (pk := _map_ballot_to_str (cstar :: decode k)).
           destruct (in_dec string_dec pk pre) as [Hpre | Hpre].
           ++ rewrite (Hdone pk Hpre). unfold updated, moved_from.
              assert (Hcl : legal_ordering n (cstar :: decode k)).
              { apply cons_legal; [exact Hl | unfold cstar; lia |].
                intros H. apply existsb_Zeqb_in in H. rewrite H in Ein. discriminate Ein. }
              unfold pk. rewrite (decode_key _ (legal_nonneg n _ Hcl)).
              cbn [existsb]. rewrite Z.eqb_refl. cbn [orb].
              rewrite Z.add_0_r. apply Z.mod_small.
              apply (val_bounds g n Hprime d _ (conj Hkeys Hred)).
           ++ unfold val. rewrite (Htodo pk Hpre). reflexivity.
      * intros k' Hk'. assert (Hne : k' <> k).
        { intros ->. apply Hk', in_or_app. right. left. reflexivity. }
        rewrite (Hother k' Hne). apply Htodo. intros H. apply Hk', in_or_app. left. exact H.
  - intros d' (Hwf' & Hdone & _). apply returns_ret. cbn [bm_n_choices mapping].
    split; [reflexivity |]. split; [exact Hwf' | exact Hdone].
Qed.

End IRVUpdate.

(** ** The votes of the choices still in the race *)

Lemma zsum_filter {A} (b : A -> bool) (f : A -> Z) (l : list A) :
  zsum (fun a => if b a then f a else 0) l = zsum f (filter b l).
Proof.
  induction l as [|a l IH]; cbn [zsum filter]; [reflexivity |].
  destruct (b a); cbn [zsum]; rewrite IH; ring.
Qed.

(** The key [k] starts with a choice that [vs] does not flag. *)
Definition live (vs : list Z) (k : string) : bool :=
  match decode k with
  | c :: _ => nth (Z.to_nat c) vs 1 =? 0
  | [] => false
  end.

(** The integer sum of the counts of the keys that start with a choice
    still in the race. *)
Definition remaining (d : dict) (vs : list Z) (keys : list string) : Z :=
  zsum (fun k => if live vs k then val d k else 0) keys.

Section IRVRemaining.

Variable g : WireGroup.
Variable n : Z.
Let p := group_modulus g.
Hypothesis Hprime : Z.prime p.
Let K := dict_keys (init_mapping n g).

Lemma remaining_le_total (d : dict) (vs : list Z) :
  dict_wf g n d -> remaining d vs K <= zsum (val d) K.
Proof.
  intros Hwf. apply zsum_le. intros k _.
  pose proof (val_bounds g n Hprime d k Hwf). destruct (live vs k); lia.
Qed.

Lemma tally_le_remaining (d : dict) (vs : list Z) (c : Z) :
  dict_wf g n d -> nth (Z.to_nat c) vs 1 = 0 -> tally d c K <= remaining d vs K.
Proof.
  intros Hwf Hc. apply zsum_le. intros k _.
  pose proof (val_bounds g n Hprime d k Hwf) as Hb.
  unfold head_is, live. destruct (decode k) as [|c' l]; [lia |].
  destruct (Z.eqb_spec c' c) as [-> | _].
  - rewrite Hc. cbn [Z.eqb]. lia.
  - destruct (nth (Z.to_nat c') vs 1 =? 0); lia.
Qed.

Lemma tally_nonneg (d : dict) (c : Z) : dict_wf g n d -> 0 <= tally d c K.
Proof.
  intros Hwf. apply zsum_nonneg. intros k _.
  pose proof (val_bounds g n Hprime d k Hwf). destruct (head_is c k); lia.
Qed.

Variable jstar : nat.
Hypothesis Hjstar : (jstar < Z.to_nat n)%nat.
Let cstar := Z.of_nat jstar.

Lemma moved_from_nonneg (d : dict) (l : list Z) :
  dict_wf g n d -> 0 <= moved_from jstar d l.
Proof.
  intros Hwf. unfold moved_from. destruct (existsb _ l); [lia |].
  apply (val_bounds g n Hprime d _ Hwf).
Qed.

(** The votes moved in a round all come from keys led by [cstar]. *)
Lemma moved_le_tally (d : dict) :
  dict_wf g n d ->
  zsum (fun k => moved_from jstar d (decode k)) K <= tally d cstar K.
Proof.
  intros Hwf. unfold tally. rewrite zsum_filter.
  set (fresh := fun k => negb (existsb (Z.eqb cstar) (decode k))).
  set (phi := fun k => _map_ballot_to_str (cstar :: decode k)).
  assert (E : zsum (fun k => moved_from jstar d (decode k)) K
              = zsum (val d) (map phi (filter fresh K))).
  { rewrite zsum_map, <- zsum_filter. apply zsum_ext. intros k _.
    unfold moved_from, fresh, phi. fold cstar.
    destruct (existsb (Z.eqb cstar) (decode k)); reflexivity. }
  rewrite E. clear E.
  assert (Hleg : forall k, In k (filter fresh K) -> legal_ordering n (cstar :: decode k)).
  { intros k Hk. apply filter_In in Hk. destruct Hk as [Hk Hf].
    destruct (key_decode g n k Hk) as [Hl _].
    apply cons_legal; [exact Hl | unfold cstar; lia |].
    intros Hin. apply existsb_Zeqb_in in Hin. unfold fresh in Hf.
    rewrite Hin in Hf. discriminate Hf. }
  apply zsum_incl_le.
  - apply NoDup_map_NoDup_ForallPairs.
    + intros k1 k2 Hk1 Hk2 E. unfold phi in E.
      apply map_ballot_to_str_inj in E; [| apply (legal_nonneg n), Hleg, Hk2].
      injection E as E.
      apply filter_In in Hk1, Hk2.
      destruct (key_decode g n k1 (proj1 Hk1)) as [_ E1].
      destruct (key_decode g n k2 (proj1 Hk2)) as [_ E2].
      rewrite E1, E2, E. reflexivity.
    + apply NoDup_filter. apply init_mapping_nodup.
  - intros k' Hk'. apply in_map_iff in Hk'. destruct Hk' as (k & <- & Hk).
    pose proof (Hleg k Hk) as Hl. apply filter_In. split.
    + apply (legal_key_in g n), Hl.
    + unfold head_is, phi. rewrite (decode_key _ (legal_nonneg n _ Hl)).
      apply Z.eqb_refl.
  - intros k _. apply (val_bounds g n Hprime d k Hwf).
Qed.

(** A round does not add votes to the choices still in the race. *)
Lemma remaining_update (d d' : dict) (vs vs' : list Z) :
  dict_wf g n d ->
  (forall k, In k K -> val d' k = updated g jstar d k) ->
  nth jstar vs 1 = 0 ->
  (forall i, nth i vs' 1 = if Nat.eqb i jstar then 1 else nth i vs 1) ->
  remaining d' vs' K <= remaining d vs K.
Proof.
  intros Hwf Hval Hj Hvs'.
  pose proof (p_pos g Hprime) as Hp. fold p in Hp.
  transitivity (zsum (fun k => (if live vs' k then val d k else 0)
                               + moved_from jstar d (decode k)) K).
  - apply zsum_le. intros k Hk.
    pose proof (val_bounds g n Hprime d k Hwf) as Hb.
    pose proof (moved_from_nonneg d (decode k) Hwf) as Hm.
    destruct (live vs' k); [| lia].
    rewrite (Hval k Hk). unfold updated. fold p.
    apply Z.mod_le; lia.
  - rewrite zsum_add.
    pose proof (moved_le_tally d Hwf) as Hle.
    transitivity (zsum (fun k => if live vs' k then val d k else 0) K + tally d cstar K);
      [lia |].
    unfold tally. rewrite <- zsum_add. apply zsum_le. intros k Hk.
    pose proof (val_bounds g n Hprime d k Hwf) as Hb.
    destruct (key_decode g n k Hk) as [Hl _].
    unfold live, head_is. destruct (decode k) as [|c l]; [lia |].
    assert (Hc : 0 <= c).
    { apply (legal_nonneg n) in Hl. inversion Hl. assumption. }
    rewrite Hvs'.
    destruct (Z.eqb_spec c cstar) as [-> | Hne].
    + unfold cstar. rewrite Nat2Z.id, Nat.eqb_refl, Hj. cbn [Z.eqb]. lia.
    + destruct (Nat.eqb_spec (Z.to_nat c) jstar) as [E | _];
        [exfalso; apply Hne; unfold cstar; lia |].
      destruct (nth (Z.to_nat c) vs 1 =? 0); lia.
Qed.

End IRVRemaining.

(** ** One round of an election: the choice to eliminate *)

Lemma combine_values (ws es : list Wire) (f : Z -> Z -> Z) :
  map (fun we => f (value (fst we)) (value (snd we))) (combine ws es)
  = map (fun tv => f (fst tv) (snd tv)) (combine (map value ws) (map value es)).
Proof.
  revert es. induction ws as [|w ws IH]; intros [|e es]; cbn [combine map fst snd];
    try reflexivity.
  rewrite IH. reflexivity.
Qed.

Lemma bit_at (vs : list Z) (j : nat) :
  Forall is_bit_value vs -> is_bit_value (nth j vs 1).
Proof.
  intros H. destruct (Nat.lt_ge_cases j (List.length vs)) as [Hlt | Hge].
  - rewrite Forall_forall in H. apply H, nth_In, Hlt.
  - rewrite nth_overflow by exact Hge. right. reflexivity.
Qed.

(** With the counts [ts] and the flags [vs], a choice still in the race
    whose count is below [p - 1] makes the first minimum of the masked
    counts a choice still in the race. *)
Lemma round_choice (g : WireGroup) (ts vs : list Z) (m : Z) :
  List.length ts = List.length vs ->
  Forall is_bit_value vs ->
  let mk := map (fun tv => masked g (fst tv) (snd tv)) (combine ts vs) in
  In m mk -> (forall x, In x mk -> m <= x) ->
  (exists i, (i < List.length vs)%nat /\ nth i vs 1 = 0
             /\ nth i ts 0 < group_modulus g - 1) ->
  exists j, (j < List.length vs)%nat /\ nth j vs 1 = 0 /\
            first_hot 0 (map (fun v => if v =? m then 1 else 0) mk)
            = one_hot j (List.length vs).
Proof.
  intros Hlen Hbits mk Hin Hmin (i & Hi & Hvi & Hti).
  set (h := fun v : Z => if v =? m then 1 else 0).
  set (ms := map h mk).
  assert (Hmklen : List.length mk = List.length vs).
  { unfold mk. rewrite length_map, length_combine. lia. }
  assert (Hmslen : List.length ms = List.length vs).
  { unfold ms. rewrite length_map. exact Hmklen. }
  assert (Hnth : forall a, (a < List.length vs)%nat ->
                           nth a mk 0 = masked g (nth a ts 0) (nth a vs 1)).
  { intros a Ha. unfold mk.
    rewrite (nth_indep _ 0 (masked g (fst (0, 1)) (snd (0, 1))))
      by (rewrite length_map, length_combine; lia).
    rewrite (map_nth (fun tv => masked g (fst tv) (snd tv))).
    rewrite combine_nth by exact Hlen. reflexivity. }
  assert (Hms : Forall is_bit_value ms).
  { unfold ms. apply Forall_map, Forall_forall. intros x _. unfold h.
    destruct (x =? m); [right | left]; reflexivity. }
  assert (H1 : In 1 ms).
  { unfold ms. apply in_map_iff. exists m. split; [| exact Hin].
    unfold h. rewrite Z.eqb_refl. reflexivity. }
  destruct (first_hot_one_hot ms Hms H1) as (j & Hj & Hjv & Hfh).
  rewrite Hmslen in Hj, Hfh.
  exists j. split; [exact Hj |]. split; [| exact Hfh].
  assert (Hjm : nth j mk 0 = m).
  { unfold ms in Hjv. rewrite (nth_indep _ 0 (h 0)) in Hjv by (rewrite length_map; lia).
    rewrite map_nth in Hjv. unfold h in Hjv.
    destruct (Z.eqb_spec (nth j mk 0) m); [assumption | discriminate Hjv]. }
  rewrite (Hnth j Hj) in Hjm.
  assert (Hle : m <= nth i ts 0).
  { pose proof (Hnth i Hi) as E. rewrite Hvi in E. unfold masked in E at 1.
    cbn [Z.eqb] in E. rewrite <- E. apply Hmin, nth_In. lia. }
  destruct (bit_at vs j Hbits) as [E | E]; [exact E |].
  rewrite E in Hjm. unfold masked in Hjm. cbn [Z.eqb Pos.eqb] in Hjm. lia.
Qed.

Section IRVRounds.

Variable g : WireGroup.
Variable bits : Z.
Variable n : Z.
Let p := group_modulus g.
Hypothesis Hprime : Z.prime p.
Hypothesis Hbits : bits <= bit_length g / 2.
Let K := dict_keys (init_mapping n g).

Lemma get_votes_per_choice_spec (d : dict) :
  dict_wf g n d ->
  returns (get_votes_per_choice (mkIRVBallotManager n d))
    (fun vpc => exists ws, vpc = map Some ws /\ Forall (reduced_in g) ws /\
                           map value ws = map (fun c => tally d c K mod p) (Py.range n)).
Proof.
  intros Hwf. unfold get_votes_per_choice. cbn [bm_n_choices].
  eapply returns_weaken.
  - apply returns_mapM
      with (R := fun c r => exists w, r = Some w /\ reduced_in g w
                                      /\ value w = tally d c K mod p).
    intros c Hc. apply (get_n_ballots_with_first_choice_spec g n Hprime d c Hwf).
    apply range_in. exact Hc.
  - intros vpc HF. induction HF as [|c r cs rs (w & -> & Hw & Hv) _ (ws & -> & Hws & Hvs)].
    + exists []. split; [reflexivity |]. split; [constructor | reflexivity].
    + exists (w :: ws). split; [reflexivity |]. split; [constructor; assumption |].
      cbn [map]. rewrite Hv, Hvs. reflexivity.
Qed.

(** The first-possibility eliminator flags one choice still in the
    race. *)
Lemma eliminate_choice_spec (rnd : Z) (es ws : list Wire) :
  Forall (reduced_in g) ws -> Forall (reduced_in g) es ->
  Forall is_bit_value (map value es) ->
  List.length ws = List.length es ->
  (exists i, (i < List.length es)%nat /\ nth i (map value es) 1 = 0
             /\ nth i (map value ws) 0 < p - 1) ->
  returns (eliminate_choice (EliminateFirstPossibilityEliminator g bits) rnd es
             (map Some ws))
    (fun hs => Forall (reduced_in g) hs /\
               exists j, (j < List.length es)%nat /\ nth j (map value es) 1 = 0 /\
                         map value hs = one_hot j (List.length es)).
Proof.
  intros Hws Hes Hbit Hlen Halive.
  unfold eliminate_choice, compute_min.
  cbn [EliminateFirstPossibilityEliminator elim_group elim_bits break_ties].
  assert (Hes' : Forall (fun e => in_group g e /\ is_bit e) es).
  { rewrite Forall_forall in Hes, Hbit |- *. intros e He. split.
    - apply reduced_in_group, Hes, He.
    - apply (Hbit (value e)). apply in_map. exact He. }
  apply returns_bind
    with (P := fun inds =>
                 exists w out',
                   map value (w :: out')
                   = map (fun we => masked g (value (fst we)) (value (snd we)))
                         (combine ws es) /\
                   inds = map (fun x => gen g (if value x =? zmin_list (value w) (map value out')
                                               then 1 else 0) false) (w :: out')).
  - eapply returns_bind; [apply (masked_votes g Hprime ws es Hws Hes') |].
    intros out [Hout Hvals].
    destruct out as [|w out'].
    + exfalso. destruct Halive as (i & Hi & _).
      apply (f_equal (@List.length Z)) in Hvals.
      rewrite !length_map, length_combine in Hvals. cbn [List.length] in Hvals. lia.
    + eapply returns_weaken; [apply (minimum_spec g Hprime bits Hbits w out' Hout) |].
      intros inds Hinds. exists w, out'. split; [exact Hvals | exact Hinds].
  - intros inds (w & out' & Hvals & ->).
    set (m := zmin_list (value w) (map value out')).
    rewrite combine_values in Hvals.
    eapply returns_weaken.
    + apply (find_first_indicator_spec g Hprime).
      apply Forall_map, Forall_forall. intros x _. split; [reflexivity |].
      unfold is_bit. cbn [gen value]. destruct (value x =? m); [right | left]; reflexivity.
    + intros hs [Hhs Hhv]. split; [exact Hhs |].
      rewrite map_map in Hhv. cbn [gen value] in Hhv.
      rewrite <- (map_map value (fun v => if v =? m then 1 else 0)) in Hhv.
      rewrite Hvals in Hhv.
      rewrite <- (length_map value es).
      destruct (round_choice g (map value ws) (map value es) m) as (j & Hj & Hjv & Hfh).
      * rewrite !length_map. exact Hlen.
      * exact Hbit.
      * rewrite <- Hvals. apply zmin_list_in.
      * rewrite <- Hvals. intros x [<- | Hx];
          [apply (proj1 (zmin_list_le _ _)) | apply (proj2 (zmin_list_le _ _)), Hx].
      * rewrite length_map. exact Halive.
      * exists j. split; [exact Hj |]. split; [exact Hjv |].
        rewrite Hhv. exact Hfh.
Qed.

End IRVRounds.

(** ** Rounds of an election *)

Lemma range_nth (n : Z) (i : nat) :
  (i < Z.to_nat n)%nat -> nth i (Py.range n) 0 = Z.of_nat i.
Proof.
  intros Hi. unfold Py.range. change 0 with (Z.of_nat 0).
  rewrite map_nth, seq_nth by exact Hi. reflexivity.
Qed.

(** The state between two rounds: counts in the field, one flag per
    choice, [r] of them set, and the votes of the choices still in the
    race below [p - 1]. *)
Definition round_state (g : WireGroup) (n : Z) (d : dict) (es : list Wire) (r : Z)
  : Prop :=
  dict_wf g n d /\
  List.length es = Z.to_nat n /\
  Forall (reduced_in g) es /\
  Forall is_bit_value (map value es) /\
  zsum (fun x => x) (map value es) = r /\
  remaining d (map value es) (dict_keys (init_mapping n g)) < group_modulus g - 1.

Definition irv_state (g : WireGroup) (bits n : Z) (self : IRV) (r : Z) : Prop :=
  n_choices self = n /\
  choice_eliminator self = EliminateFirstPossibilityEliminator g bits /\
  exists d, ballotmanager self = Some (mkIRVBallotManager n d) /\
            round_state g n d (ind_eliminated self) r.

Section IRVElection.

Variable g : WireGroup.
Variable bits : Z.
Variable n : Z.
Let p := group_modulus g.
Hypothesis Hprime : Z.prime p.
Hypothesis Hbits : bits <= bit_length g / 2.
Let K := dict_keys (init_mapping n g).

Lemma round_state_alive (d : dict) (es ws : list Wire) (r : Z) :
  round_state g n d es r -> r < n ->
  map value ws = map (fun c => tally d c K mod p) (Py.range n) ->
  exists i, (i < List.length es)%nat /\ nth i (map value es) 1 = 0
            /\ nth i (map value ws) 0 < p - 1.
Proof.
  intros (Hwf & Hlen & Hred & Hbit & Hsum & Hrem) Hr Hws.
  assert (H0 : 0 <= r).
  { rewrite <- Hsum. apply zsum_nonneg. intros x Hx.
    rewrite Forall_forall in Hbit. destruct (Hbit x Hx); lia. }
  destruct (bit_list_has_zero (map value es) Hbit) as (i & Hi & Hiv).
  { rewrite length_map, Hlen, Hsum. lia. }
  rewrite length_map in Hi. exists i. split; [exact Hi |]. split; [exact Hiv |].
  rewrite Hws.
  rewrite (nth_indep _ 0 ((fun c => tally d c K mod p) 0))
    by (rewrite length_map, range_length; lia).
  rewrite (map_nth (fun c => tally d c K mod p)), range_nth by lia.
  pose proof (tally_nonneg g n Hprime d (Z.of_nat i) Hwf) as Hge.
  pose proof (tally_le_remaining g n Hprime d (map value es) (Z.of_nat i) Hwf) as Hle.
  rewrite Nat2Z.id in Hle. specialize (Hle Hiv). fold K in Hge, Hle, Hrem. fold p in Hrem.
  rewrite Z.mod_small; lia.
Qed.

Lemma evaluate_round_spec (self : IRV) (r : Z) :
  irv_state g bits n self r -> r < n ->
  returns (evaluate_round self) (fun self' => irv_state g bits n self' (r + 1)).
Proof.
  intros (Hn & He & d & Hbm & Hst) Hr.
  destruct self as [nc ig ce bmo es rd]. cbn [n_choices choice_eliminator ballotmanager
                                               ind_eliminated] in *.
  subst nc ce bmo. unfold evaluate_round.
  cbn [n_choices choice_eliminator ballotmanager ind_eliminated round irv_group from_option].
  pose proof Hst as (Hwf & Hlen & Hred & Hbit & Hsum & Hrem).
  eapply returns_bind; [apply returns_ret_eq |]. intros bm ->.
  eapply returns_bind; [apply (get_votes_per_choice_spec g n Hprime d Hwf) |].
  intros vpc (ws & -> & Hws & Hwv).
  assert (Hwlen : List.length ws = List.length es).
  { apply (f_equal (@List.length Z)) in Hwv.
    rewrite !length_map, range_length in Hwv. lia. }
  eapply returns_bind.
  { apply (eliminate_choice_spec g bits Hprime Hbits rd es ws Hws Hred Hbit Hwlen).
    apply (round_state_alive d es ws r Hst Hr Hwv). }
  intros hs (Hhs & j & Hj & Hjv & Hhv). rewrite Hlen in Hj, Hhv.
  assert (Hhlen : List.length hs = Z.to_nat n).
  { apply (f_equal (@List.length Z)) in Hhv.
    rewrite length_map, one_hot_length in Hhv. exact Hhv. }
  eapply returns_bind.
  { apply (add_indicators_spec g n es hs Hprime Hlen Hhlen).
    eapply Forall_impl; [| exact Hred]. intros w. apply reduced_in_group. }
  intros es' [Hes' Hev'].
  eapply returns_bind;
    [apply (update_votes_on_elimination_spec g n Hprime hs j Hj Hhlen Hhs Hhv d Hwf) |].
  intros [n' d'] (Hn' & Hwf' & Hval'). cbn [bm_n_choices mapping] in Hn', Hwf', Hval'.
  subst n'. apply returns_ret.
  cbn [irv_state n_choices choice_eliminator ballotmanager ind_eliminated].
  split; [reflexivity |]. split; [reflexivity |].
  exists d'. split; [reflexivity |]. cbn [ind_eliminated].
  rewrite Hhv in Hev'. rewrite <- Hlen, <- (length_map value es) in Hev'.
  destruct (add_one_hot p (map value es) j (p_ge_2 g Hprime) Hbit Hjv)
    as (Hb' & Hs' & Hl' & Hn').
  fold p in Hev'. rewrite <- Hev' in Hb', Hs', Hl', Hn'.
  split; [exact Hwf' |]. split; [rewrite !length_map in Hl'; lia |].
  split; [exact Hes' |]. split; [exact Hb' |]. split; [lia |].
  eapply Z.le_lt_trans; [| exact Hrem].
  apply (remaining_update g n Hprime j Hj d d' (map value es) (map value es')
           Hwf Hval' Hjv Hn').
Qed.

Lemma evaluate_rounds_spec (m : nat) :
  forall (self : IRV) (r : Z),
    irv_state g bits n self r -> r + Z.of_nat m <= n ->
    returns (evaluate_rounds m self)
      (fun final => irv_state g bits n final (r + Z.of_nat m)).
Proof.
  induction m as [|m IH]; intros self r Hst Hle.
  - cbn [evaluate_rounds]. apply returns_ret. rewrite Z.add_0_r. exact Hst.
  - cbn [evaluate_rounds].
    eapply returns_bind; [apply (evaluate_round_spec self r Hst); lia |].
    intros self' Hst'.
    replace (r + Z.of_nat (S m)) with (r + 1 + Z.of_nat m) by lia.
    apply IH; [| lia].
    destruct Hst' as (Hn' & He' & d' & Hbm' & Hrs').
    split; [exact Hn' |]. split; [exact He' |]. exists d'. split; assumption.
Qed.

End IRVElection.

(** ** Elections *)

(** Ballots an election over [n] choices can be run on: the manager is
    one for [n] choices and its counts are field elements. *)
Definition ballots_for (g : WireGroup) (n : Z) (bm : IRVBallotManager) : Prop :=
  bm_n_choices bm = n /\ dict_wf g n (mapping bm).

(** The number of ballots the manager holds. *)
Definition total_votes (bm : IRVBallotManager) : Z :=
  zsum (val (mapping bm)) (dict_keys (mapping bm)).

(** The set-up of the tests: a fresh manager, then one call of
    [add_votes_for_ordering] with [group.gen(count)] per ordering. *)
Definition cast_ballots (g : WireGroup) (n : Z) (votes : list (list Z * Z))
  : M IRVBallotManager :=
  foldM (fun bm oc => add_votes_for_ordering bm (fst oc) (W (gen g (snd oc) false)))
        (IRVBallotManager_create n g) votes.

Definition ballots_of (g : WireGroup) (n : Z) (votes : list (list Z * Z))
  : IRVBallotManager :=
  match cast_ballots g n votes (mkCounters 0 0) with
  | (inr bm, _) => bm
  | (inl _, _) => IRVBallotManager_create n g
  end.

Definition first_possibility_election (g : WireGroup) (bits n : Z)
  (bm : IRVBallotManager) (n_rounds : option Z) : M (list Wire) :=
  evaluate_election (IRV_init n (EliminateFirstPossibilityEliminator g bits) g)
    bm n_rounds.

Definition reduced_wire (g : WireGroup) (w : Wire) : bool :=
  (modulus w =? group_modulus g) && (0 <=? value w) && (value w <? group_modulus g).

Lemma dict_values_reduced (g : WireGroup) (d : dict) :
  forallb (fun kw => reduced_wire g (snd kw)) d = true ->
  forall k w, dict_get d k = Some w -> reduced_in g w.
Proof.
  induction d as [|[k' w'] d IH]; cbn [forallb dict_get snd]; intros H k w Hget;
    [discriminate Hget |].
  apply andb_prop in H. destruct H as [Hw Hd].
  destruct (String.eqb k' k).
  - injection Hget as <-. unfold reduced_wire in Hw.
    apply andb_prop in Hw. destruct Hw as [Hw H3].
    apply andb_prop in Hw. destruct Hw as [H1 H2].
    split; [apply Z.eqb_eq, H1 |]. split; [apply Z.leb_le, H2 | apply Z.ltb_lt, H3].
  - apply (IH Hd k w Hget).
Qed.

Lemma initial_round_state (g : WireGroup) (n : Z) (d : dict) :
  Z.prime (group_modulus g) -> dict_wf g n d ->
  zsum (val d) (dict_keys (init_mapping n g)) < group_modulus g - 1 ->
  round_state g n d (gen_list g (map (fun _ => 0) (Py.range n))) 0.
Proof.
  intros Hprime Hwf Htot. pose proof (p_ge_2 g Hprime) as Hp.
  assert (E : map value (gen_list g (map (fun _ : Z => 0) (Py.range n)))
              = map (fun _ => 0) (Py.range n)).
  { unfold gen_list. rewrite !map_map. reflexivity. }
  split; [exact Hwf |]. split.
  { unfold gen_list. rewrite !length_map. apply range_length. }
  split.
  { unfold gen_list. rewrite map_map. apply Forall_map, Forall_forall.
    intros c _. apply gen_reduced. lia. }
  rewrite E. split.
  { apply Forall_map, Forall_forall. intros c _. left. reflexivity. }
  split.
  { rewrite zsum_map. apply zsum_zero. reflexivity. }
  eapply Z.le_lt_trans; [apply (remaining_le_total g n Hprime d _ Hwf) | exact Htot].
Qed.

(** C8 (with the conditions the code relies on).  Over a prime field,
    with a comparison width the field allows, ballots for [n] choices
    whose number is below [p - 1], and [0 <= n_rounds <= n]:
    [evaluate_election] with the first-possibility eliminator returns
    one indicator per choice, each 0 or 1, with exactly [n_rounds]
    entries equal to 1 and, when [n_rounds = n - 1], exactly one entry
    equal to 0.  The election with 3 choices and the ballot counts
    [0,1,2]: 3, [1,2,0]: 2, [2,1,0]: 1 over the field of 11 elements
    returns the indicators [1, 0, 1]. *)
Theorem C8_irv_elimination_indicators :
  (forall (g : WireGroup) (bits n : Z) (bm : IRVBallotManager) (rounds : option Z),
      Z.prime (group_modulus g) ->
      bits <= bit_length g / 2 ->
      ballots_for g n bm ->
      total_votes bm < group_modulus g - 1 ->
      let n_rounds := match rounds with None => n - 1 | Some r => r end in
      0 <= n_rounds <= n ->
      returns (first_possibility_election g bits n bm rounds)
        (fun inds =>
           List.length inds = Z.to_nat n /\
           Forall is_bit inds /\
           Z.of_nat (count_occ Z.eq_dec (map value inds) 1) = n_rounds /\
           (n_rounds = n - 1 -> count_occ Z.eq_dec (map value inds) 0 = 1%nat))) /\
  (exists inds s',
      first_possibility_election g11 2 3
        (ballots_of g11 3 [([0; 1; 2], 3); ([1; 2; 0], 2); ([2; 1; 0], 1)]) None
        (mkCounters 0 0) = (inr inds, s') /\
      map value inds = [1; 0; 1]).
Proof.
  split.
  - intros g bits n [n' d] rounds Hprime Hbits [Hn Hwf] Htot n_rounds Hr.
    cbn [bm_n_choices mapping] in Hn, Hwf. subst n'.
    unfold total_votes in Htot. cbn [mapping] in Htot.
    rewrite (proj1 Hwf) in Htot.
    unfold first_possibility_election, evaluate_election.
    cbn [IRV_init n_choices irv_group choice_eliminator]. fold n_rounds.
    eapply returns_bind.
    + apply (evaluate_rounds_spec g bits n Hprime Hbits (Z.to_nat n_rounds) _ 0).
      * split; [reflexivity |]. split; [reflexivity |].
        exists d. split; [reflexivity |].
        apply (initial_round_state g n d Hprime Hwf Htot).
      * lia.
    + intros final (_ & _ & d' & _ & (_ & Hlen & Hred & Hbit & Hsum & _)).
      apply returns_ret.
      destruct (bit_list_counts (map value (ind_eliminated final)) Hbit) as [H1 H0].
      rewrite length_map, Hlen in H0.
      split; [exact Hlen |]. split.
      { rewrite Forall_map in Hbit. exact Hbit. }
      split; [lia |]. intros E. lia.
  - eexists. eexists. split; vm_compute; reflexivity.
Qed.

Lemma C8_irv_elimination_indicators_witness :
  returns (first_possibility_election g11 2 3
             (ballots_of g11 3 [([0; 1; 2], 3); ([1; 2; 0], 2); ([2; 1; 0], 1)]) None)
    (fun inds =>
       List.length inds = 3%nat /\
       Forall is_bit inds /\
       Z.of_nat (count_occ Z.eq_dec (map value inds) 1) = 2 /\
       (2 = 3 - 1 -> count_occ Z.eq_dec (map value inds) 0 = 1%nat)).
Proof.
  apply (proj1 C8_irv_elimination_indicators g11 2 3
           (ballots_of g11 3 [([0; 1; 2], 3); ([1; 2; 0], 2); ([2; 1; 0], 1)]) None).
  - exact prime_11.
  - vm_compute. discriminate.
  - split; [reflexivity |]. split; [vm_compute; reflexivity |].
    apply dict_values_reduced. vm_compute. reflexivity.
  - vm_compute. reflexivity.
  - lia.
Defined.

(** C8 as the claim has it fails where the counts reach [p - 1]: with
    the ballot counts [0,1,2]: 1, [1,0,2]: 9, [2,0,1]: 10 over the field
    of 11 elements, choice 0 leaves in the first round, both remaining
    choices then hold 10 = p - 1 votes, which is the value that masks a
    choice that has left, and the second round flags choice 0 again: the
    indicators are [2, 0, 0], with no entry equal to 1 after two
    rounds. *)
Lemma C8_field_too_small :
  exists inds s',
    first_possibility_election g11 2 3
      (ballots_of g11 3 [([0; 1; 2], 1); ([1; 0; 2], 9); ([2; 0; 1], 10)]) None
      (mkCounters 0 0) = (inr inds, s') /\
    map value inds = [2; 0; 0] /\
    count_occ Z.eq_dec (map value inds) 1 = 0%nat.
Proof. eexists. eexists. split; [| split]; vm_compute; reflexivity. Qed.

(* ===================================================================== *)
(** * Further properties of the gates *)
(* ===================================================================== *)

(** ** Counting multiplications *)

(** The counters after [k] counted multiplications. *)
Definition charged (s : Counters) (k : Z) : Counters :=
  mkCounters (n_mul s + k) (n_wires s + k).

(** [charges m k P]: whenever [m] returns, it has counted [k]
    multiplications and its result satisfies [P]. *)
Definition charges {A} (m : M A) (k : Z) (P : A -> Prop) : Prop :=
  forall s a s', m s = (inr a, s') -> s' = charged s k /\ P a.

(** [costs m k P]: from every state of the counters, [m] raises
    nothing, counts [k] multiplications and its result satisfies [P]. *)
Definition costs {A} (m : M A) (k : Z) (P : A -> Prop) : Prop :=
  forall s, exists a, m s = (inr a, charged s k) /\ P a.

Lemma charged_zero (s : Counters) : charged s 0 = s.
Proof. destruct s as [m w]. unfold charged. cbn [n_mul n_wires]. rewrite !Z.add_0_r. reflexivity. Qed.

Lemma charged_add (s : Counters) (a b : Z) : charged (charged s a) b = charged s (a + b).
Proof. unfold charged. cbn [n_mul n_wires]. rewrite !Z.add_assoc. reflexivity. Qed.

Lemma charges_ret {A} (a : A) (P : A -> Prop) : P a -> charges (ret a) 0 P.
Proof.
  intros H s a' s' E. injection E as <- <-. rewrite charged_zero. split; [reflexivity | exact H].
Qed.

Lemma charges_raise {A} (e : exn) (k : Z) (P : A -> Prop) : charges (raise e) k P.
Proof. intros s a s' E. discriminate E. Qed.

Lemma charges_bind {A B} (m : M A) (f : A -> M B) (k1 k2 : Z)
  (P : A -> Prop) (Q : B -> Prop) :
  charges m k1 P -> (forall a, P a -> charges (f a) k2 Q) ->
  charges (bind m f) (k1 + k2) Q.
Proof.
  intros Hm Hf s b s' E. unfold bind in E.
  destruct (m s) as [[e | a] s1] eqn:Em; [discriminate E |].
  destruct (Hm s a s1 Em) as [-> Ha].
  destruct (Hf a Ha _ b s' E) as [-> Hb].
  rewrite charged_add. split; [reflexivity | exact Hb].
Qed.

Lemma charges_weaken {A} (m : M A) (k k' : Z) (P Q : A -> Prop) :
  charges m k P -> k = k' -> (forall a, P a -> Q a) -> charges m k' Q.
Proof.
  intros Hm <- HPQ s a s' E. destruct (Hm s a s' E) as [-> Ha].
  split; [reflexivity | apply HPQ, Ha].
Qed.

Lemma charges_mapM {A B} (f : A -> M B) (k : Z) (P : B -> Prop) (l : list A) :
  (forall a, In a l -> charges (f a) k P) ->
  charges (mapM f l) (k * Z.of_nat (List.length l)) (Forall P).
Proof.
  induction l as [|a l IH]; intros H.
  - cbn [mapM List.length]. rewrite Z.mul_0_r. apply charges_ret. constructor.
  - cbn [mapM]. eapply charges_weaken.
    + eapply charges_bind; [apply H; left; reflexivity |].
      intros b Hb. eapply charges_bind.
      * apply IH. intros a' Ha'. apply H. right. exact Ha'.
      * intros bs Hbs. apply (charges_ret _ (Forall P)). constructor; assumption.
    + cbn [List.length]. rewrite Nat2Z.inj_succ. ring.
    + intros bs Hbs. exact Hbs.
Qed.

Lemma charges_forM_ {A} (f : A -> M unit) (k : Z) (l : list A) :
  (forall a, In a l -> charges (f a) k (fun _ => True)) ->
  charges (forM_ f l) (k * Z.of_nat (List.length l)) (fun _ => True).
Proof.
  induction l as [|a l IH]; intros H.
  - cbn [forM_ List.length]. rewrite Z.mul_0_r. apply charges_ret. exact I.
  - cbn [forM_]. eapply charges_weaken.
    + eapply charges_bind; [apply H; left; reflexivity |].
      intros _ _. apply IH. intros a' Ha'. apply H. right. exact Ha'.
    + cbn [List.length]. rewrite Nat2Z.inj_succ. ring.
    + intros _ _. exact I.
Qed.

Lemma costs_intro {A} (m : M A) (k : Z) (P Q : A -> Prop) :
  returns m P -> charges m k Q -> costs m k (fun a => P a /\ Q a).
Proof.
  intros Hr Hc s. destruct (Hr s) as (a & s' & E & Ha).
  destruct (Hc s a s' E) as [-> Hq]. exists a. split; [exact E | split; assumption].
Qed.

Lemma costs_returns {A} (m : M A) (k : Z) (P : A -> Prop) : costs m k P -> returns m P.
Proof. intros H s. destruct (H s) as (a & E & Ha). exists a, (charged s k). split; assumption. Qed.

Lemma costs_weaken {A} (m : M A) (k : Z) (P Q : A -> Prop) :
  costs m k P -> (forall a, P a -> Q a) -> costs m k Q.
Proof.
  intros H HPQ s. destruct (H s) as (a & E & Ha). exists a. split; [exact E | apply HPQ, Ha].
Qed.

(** What a product counts, and whether it is const. *)
Definition mul_count (b : num) : Z := if nonconst_wire b then 1 else 0.

Lemma charges_mul (a : Wire) (b : num) :
  charges (__mul__ a b) (mul_count b)
    (fun r => is_const r = (if nonconst_wire b then false else is_const a)).
Proof.
  intros s r s' E. unfold __mul__, bind, mul_count in *.
  destruct (nonconst_wire b); cbn [count_mul ret] in E; injection E as <- <-.
  - split; reflexivity.
  - rewrite charged_zero. split; reflexivity.
Qed.

(** ** Sums of wires *)

(** [sum(wires)] of a non-empty list of wires of the group is a wire:
    the sum of the values reduced modulo [p], const when every summand
    is. *)
Lemma py_sum_from (g : WireGroup) (ws : list Wire) (a : Z) (c : bool) :
  fold_left py_add (map W ws) (W (create (a mod group_modulus g) (group_modulus g) c))
  = W (create ((a + zsum value ws) mod group_modulus g) (group_modulus g)
         (c && forallb is_const ws)).
Proof.
  revert a c. induction ws as [|w ws IH]; intros a c; cbn [map fold_left zsum forallb].
  - rewrite Z.add_0_r, andb_true_r. reflexivity.
  - cbn [py_add]. unfold __add__ at 1. cbn [value modulus is_const int_of nonconst_wire].
    rewrite Zplus_mod_idemp_l. rewrite IH. do 2 f_equal.
    + f_equal. ring.
    + destruct (is_const w), c; reflexivity.
Qed.

Lemma py_sum_wires (g : WireGroup) (w : Wire) (ws : list Wire) :
  in_group g w ->
  py_sum (map W (w :: ws))
  = W (create (zsum value (w :: ws) mod group_modulus g) (group_modulus g)
         (forallb is_const (w :: ws))).
Proof.
  intros Hw. unfold py_sum. cbn [map fold_left py_add].
  unfold __radd__, __add__. cbn [int_of nonconst_wire]. rewrite Hw.
  rewrite py_sum_from. cbn [zsum forallb]. do 2 f_equal. f_equal. ring.
Qed.

(** ** Wire arithmetic: canonical residues *)

(** X1.  The results of [+], [-] and [*] on a wire of a group with a
    positive modulus are canonical residues of that group, whatever the
    other operand is; [__neg__] is the exception: it returns
    [modulus - value] as it is, so the negation of a wire of value 0 has
    the value [p], and negating twice gives the wire back. *)
Theorem wire_arithmetic_canonical (g : WireGroup) (a : Wire) (b : num) (n : Z) :
  0 < group_modulus g -> in_group g a ->
  reduced_in g (__add__ a b) /\
  reduced_in g (__sub__ a b) /\
  reduced_in g (__rsub__ a n) /\
  returns (__mul__ a b) (reduced_in g) /\
  (value a = 0 -> value (__neg__ a) = group_modulus g) /\
  __neg__ (__neg__ a) = a.
Proof.
  intros Hp Ha. destruct a as [v m c]. cbv [in_group modulus] in Ha. subst m.
  assert (Hb : forall x, 0 <= x mod group_modulus g < group_modulus g)
    by (intros x; apply Z.mod_pos_bound; exact Hp).
  split; [split; [reflexivity | apply Hb] |].
  split; [split; [reflexivity | apply Hb] |].
  split; [split; [reflexivity | apply Hb] |].
  split.
  - intros s. unfold __mul__, bind.
    destruct (nonconst_wire b); cbn [count_mul ret]; eexists; eexists;
      (split; [reflexivity | split; [reflexivity | apply Hb]]).
  - split.
    + cbn [value __neg__ modulus]. intros ->. ring.
    + unfold __neg__. cbn [value modulus is_const]. f_equal. ring.
Qed.

Lemma wire_arithmetic_canonical_witness :
  reduced_in g11 (__add__ (gen g11 7 false) (Int 9)) /\
  reduced_in g11 (__sub__ (gen g11 7 false) (Int 9)) /\
  reduced_in g11 (__rsub__ (gen g11 7 false) 1) /\
  returns (__mul__ (gen g11 7 false) (Int 9)) (reduced_in g11) /\
  (value (gen g11 7 false) = 0 -> value (__neg__ (gen g11 7 false)) = group_modulus g11) /\
  __neg__ (__neg__ (gen g11 7 false)) = gen g11 7 false.
Proof.
  apply (wire_arithmetic_canonical g11 (gen g11 7 false) (Int 9) 1);
    [reflexivity | reflexivity].
Defined.

(** X2.  [invert] over a prime field: a canonical residue other than 0 gets
    its inverse, a canonical residue, const as the operand is; the wire
    0 raises [ValueError].  In both cases a wire that is not const has
    been counted: the counters move before [pow] is called. *)
Theorem invert_inverse_or_error (g : WireGroup) (a : Wire) (s : Counters) :
  Z.prime (group_modulus g) -> reduced_in g a ->
  let s' := if is_const a then s else charged s 1 in
  (value a <> 0 ->
   exists r, invert a s = (inr r, s') /\ reduced_in g r /\
             (value a * value r) mod group_modulus g = 1 /\
             is_const r = is_const a) /\
  (value a = 0 -> invert a s = (inl (ValueError NotInvertible), s')).
Proof.
  intros Hprime [Ha Hv] s'. subst s'.
  pose proof (p_ge_2 g Hprime) as Hp2.
  destruct a as [v m c]. cbv [in_group modulus] in Ha. subst m. cbn [value is_const] in *.
  split.
  - intros Hne. exists (create (Z.invmod v (group_modulus g)) (group_modulus g) c).
    split.
    + unfold invert, bind. cbn [value modulus is_const].
      destruct c; cbn [ret count_mul];
        rewrite (pow_inv_coprime v (group_modulus g) _
                   (coprime_reduced g Hprime v Hv Hne)); reflexivity.
    + split; [split; [reflexivity | apply Z.mod_pos_bound; lia] |].
      split; [apply (invmod_reduced g Hprime v Hv Hne) | reflexivity].
  - intros ->. unfold invert, bind, Py.pow_inv. cbn [value modulus is_const].
    assert (E : (Z.gcd 0 (group_modulus g) =? 1) = false).
    { rewrite Z.gcd_0_l. apply Z.eqb_neq. lia. }
    destruct c; cbn [ret count_mul]; rewrite E; reflexivity.
Qed.

Lemma invert_inverse_or_error_witness :
  (exists r, invert (gen g11 3 false) (mkCounters 0 0) = (inr r, mkCounters 1 1) /\
             reduced_in g11 r /\ (3 * value r) mod 11 = 1 /\ is_const r = false) /\
  invert (gen g11 0 false) (mkCounters 0 0)
  = (inl (ValueError NotInvertible), mkCounters 1 1).
Proof.
  split.
  - apply (proj1 (invert_inverse_or_error g11 (gen g11 3 false) (mkCounters 0 0)
                    prime_11 (gen_reduced g11 3 false ltac:(cbn; lia))));
      cbn; discriminate.
  - apply (proj2 (invert_inverse_or_error g11 (gen g11 0 false) (mkCounters 0 0)
                    prime_11 (gen_reduced g11 0 false ltac:(cbn; lia))));
      reflexivity.
Defined.

(** ** The assertion gates *)

Lemma assert_equal_result (g : WireGroup) (x y : Wire) (xs ys : list Wire) (s : Counters) :
  in_group g x -> in_group g y ->
  assert_equal g (map W (x :: xs)) (map W (y :: ys)) s
  = ((if zsum value (x :: xs) mod group_modulus g =? zsum value (y :: ys) mod group_modulus g
      then inr tt else inl (ValueError EqualityFails)),
     charged s 1).
Proof.
  intros Hx Hy.
  unfold assert_equal. rewrite (py_sum_wires g x xs Hx), (py_sum_wires g y ys Hy).
  cbv [py_mul bind __mul__ nonconst_wire gen is_const negb count_mul ret int_of
         value modulus].
  rewrite Z.mul_1_r, Zmod_mod.
  destruct (_ =? _); reflexivity.
Qed.

(** X3.  [assert_equal] on two non-empty lists of wires of the group
    compares the sums of the values modulo [p]: it returns when they
    agree and raises [ValueError] when they differ, and in both cases it
    has counted one multiplication (that of the first sum with
    [group.gen(1)]). *)
Theorem assert_equal_sums (g : WireGroup) (xs ys : list Wire) (s : Counters) :
  0 < group_modulus g ->
  xs <> [] -> ys <> [] -> Forall (in_group g) xs -> Forall (in_group g) ys ->
  assert_equal g (map W xs) (map W ys) s
  = ((if zsum value xs mod group_modulus g =? zsum value ys mod group_modulus g
      then inr tt else inl (ValueError EqualityFails)),
     charged s 1).
Proof.
  intros Hp Hxs Hys HFx HFy.
  destruct xs as [|x xs]; [contradiction |]. destruct ys as [|y ys]; [contradiction |].
  inversion HFx as [|? ? Hx _]. inversion HFy as [|? ? Hy _]. subst.
  apply (assert_equal_result g x y xs ys s Hx Hy).
Qed.

Lemma assert_equal_sums_witness :
  assert_equal g11 (map W [gen g11 3 false; gen g11 9 false]) (map W [gen g11 1 false])
    (mkCounters 0 0)
  = (inr tt, mkCounters 1 1) /\
  assert_equal g11 (map W [gen g11 3 false; gen g11 9 false]) (map W [gen g11 2 false])
    (mkCounters 0 0)
  = (inl (ValueError EqualityFails), mkCounters 1 1).
Proof.
  split.
  - apply (assert_equal_sums g11 [gen g11 3 false; gen g11 9 false] [gen g11 1 false]
             (mkCounters 0 0));
      [reflexivity | discriminate | discriminate
      | repeat constructor | repeat constructor].
  - apply (assert_equal_sums g11 [gen g11 3 false; gen g11 9 false] [gen g11 2 false]
             (mkCounters 0 0));
      [reflexivity | discriminate | discriminate
      | repeat constructor | repeat constructor].
Defined.

Lemma bit_product_zero (p v : Z) :
  Z.prime p ->
  ((v * ((p - v + 1) mod p)) mod p = 0 <-> v mod p = 0 \/ v mod p = 1).
Proof.
  intros Hprime.
  pose proof (Z.prime_ge_2 p Hprime) as Hp.
  assert (E : (v * ((p - v + 1) mod p)) mod p = (v * (1 - v)) mod p).
  { pull_mod. apply mod_add_multiple with (k := v). ring. }
  rewrite E, Z.mod_divide by lia. rewrite (Z.divide_prime_mul _ _ _ Hprime).
  rewrite <- !Z.mod_divide by lia.
  split; (intros [H | H]; [left; exact H | right]).
  - assert (E1 : v mod p = (1 - (1 - v)) mod p) by (f_equal; ring).
    rewrite E1, <- Zminus_mod_idemp_r, H, Z.sub_0_r. apply Z.mod_small. lia.
  - rewrite <- Zminus_mod_idemp_r, H. apply Z.mod_0_l. lia.
Qed.

Definition bit_mod (p : Z) (w : Wire) : bool :=
  (value w mod p =? 0) || (value w mod p =? 1).

Lemma assert_bit_result (g : WireGroup) (w : Wire) (s : Counters) :
  Z.prime (group_modulus g) -> in_group g w ->
  assert_bit w s
  = ((if bit_mod (group_modulus g) w then inr tt else inl (ValueError NotABit)),
     if is_const w then s else charged s 1).
Proof.
  intros Hprime Hw. destruct w as [v m c]. cbv [in_group modulus] in Hw. subst m.
  pose proof (bit_product_zero (group_modulus g) v Hprime) as Hiff.
  cbv [assert_bit bind __mul__ __rsub__ __radd__ __add__ __neg__ nonconst_wire
         is_const value modulus int_of ret bit_mod].
  assert (E : ((v * ((group_modulus g - v + 1) mod group_modulus g)) mod group_modulus g =? 0)
              = ((v mod group_modulus g =? 0) || (v mod group_modulus g =? 1))).
  { destruct (Z.eqb_spec ((v * ((group_modulus g - v + 1) mod group_modulus g))
                            mod group_modulus g) 0) as [H | H].
    - apply Hiff in H. symmetry. apply orb_true_iff.
      destruct H as [H | H]; [left | right]; apply Z.eqb_eq; exact H.
    - symmetry. apply orb_false_iff. split; apply Z.eqb_neq; intros H';
        apply H, Hiff; [left | right]; exact H'. }
  destruct c; cbv [negb count_mul]; rewrite E;
    destruct ((v mod group_modulus g =? 0) || (v mod group_modulus g =? 1)); reflexivity.
Qed.

(** X4.  [assert_bit] over a prime field returns for a wire whose value is 0
    or 1 modulo [p] and raises [ValueError] for every other wire; it
    counts one multiplication when the wire is not const, also when it
    raises. *)
Theorem assert_bit_iff (g : WireGroup) (w : Wire) (s : Counters) :
  Z.prime (group_modulus g) -> in_group g w ->
  assert_bit w s
  = ((if (value w mod group_modulus g =? 0) || (value w mod group_modulus g =? 1)
      then inr tt else inl (ValueError NotABit)),
     if is_const w then s else charged s 1).
Proof.
  intros Hprime Hw. rewrite (assert_bit_result g w s Hprime Hw).
  unfold bit_mod. reflexivity.
Qed.

Lemma assert_bit_iff_witness :
  assert_bit (gen g11 1 false) (mkCounters 0 0) = (inr tt, mkCounters 1 1) /\
  assert_bit (gen g11 5 false) (mkCounters 0 0)
  = (inl (ValueError NotABit), mkCounters 1 1).
Proof.
  split.
  - apply (assert_bit_iff g11 (gen g11 1 false) (mkCounters 0 0) prime_11 eq_refl).
  - apply (assert_bit_iff g11 (gen g11 5 false) (mkCounters 0 0) prime_11 eq_refl).
Defined.

(** X5.  [assert_gt] with a width the group allows decides [int(a) >= int(b)]
    and nothing else: it returns whenever [int(a) >= int(b)], however
    many bits the difference has, and raises [ValueError] without
    counting anything when [int(a) < int(b)]. *)
Theorem assert_gt_iff (g : WireGroup) (a b : Wire) (bits : Z) :
  Z.prime (group_modulus g) -> bits <= bit_length g / 2 ->
  in_group g a -> in_group g b ->
  (value a >= value b -> returns (assert_gt g a b bits) (fun _ => True)) /\
  (value a < value b ->
   forall s, assert_gt g a b bits s = (inl (ValueError NotGreater), s)).
Proof.
  intros Hprime Hbits Ha Hb. split.
  - intros Hge. apply (assert_gt_spec g Hprime bits Hbits a b Ha Hb Hge).
  - intros Hlt s. unfold assert_gt.
    destruct (Z.gtb_spec bits (bit_length g / 2)) as [Hgt | _]; [lia |].
    destruct (Z.geb_spec (value a) (value b)) as [Hge | _]; [lia |].
    reflexivity.
Qed.

Lemma assert_gt_iff_witness :
  returns (assert_gt g11 (gen g11 10 false) (gen g11 1 false) 2) (fun _ => True) /\
  assert_gt g11 (gen g11 1 false) (gen g11 10 false) 2 (mkCounters 0 0)
  = (inl (ValueError NotGreater), mkCounters 0 0).
Proof.
  split.
  - apply (proj1 (assert_gt_iff g11 (gen g11 10 false) (gen g11 1 false) 2 prime_11
                    ltac:(vm_compute; discriminate) eq_refl eq_refl)).
    cbn. lia.
  - apply (proj2 (assert_gt_iff g11 (gen g11 1 false) (gen g11 10 false) 2 prime_11
                    ltac:(vm_compute; discriminate) eq_refl eq_refl)).
    cbn. lia.
Defined.

(** ** What the assertion and comparison gates count *)

Lemma py_sum_wire_head (x : Wire) (xs : list num) : exists w, py_sum (W x :: xs) = W w.
Proof.
  unfold py_sum. cbn [fold_left py_add]. generalize (__radd__ x (Int 0)).
  induction xs as [|b xs IH]; intros acc; cbn [fold_left].
  - exists acc. reflexivity.
  - apply IH.
Qed.

Lemma charges_assert_equal_wire (g : WireGroup) (x : Wire) (xs ys : list num) :
  charges (assert_equal g (W x :: xs) ys) 1 (fun _ => True).
Proof.
  intros s a s' E. unfold assert_equal in E.
  destruct (py_sum_wire_head x xs) as [w Hw]. rewrite Hw in E.
  cbv [py_mul bind __mul__ nonconst_wire gen is_const negb count_mul ret] in E.
  destruct (_ =? _) in E; [| discriminate E].
  injection E as _ <-. split; [reflexivity | exact I].
Qed.

Lemma charges_assert_equal_int (g : WireGroup) (n : Z) (ys : list num) :
  charges (assert_equal g [Int n] ys) 0 (fun _ => True).
Proof.
  intros s a s' E.
  cbv [assert_equal py_sum fold_left py_add py_mul __rmul__ bind __mul__ nonconst_wire
         ret] in E.
  destruct (_ =? _) in E; [| discriminate E].
  injection E as _ <-. rewrite charged_zero. split; [reflexivity | exact I].
Qed.

Lemma charges_assert_bit (w : Wire) :
  charges (assert_bit w) (if is_const w then 0 else 1) (fun _ => True).
Proof.
  intros s a s' E.
  cbv [assert_bit bind __mul__ __rsub__ __radd__ __add__ __neg__ nonconst_wire ret
         is_const value modulus int_of] in E.
  destruct w as [v m c]. cbn [is_const] in *.
  destruct c; cbv [negb count_mul] in E;
    destruct (_ =? _) in E; try discriminate E; injection E as _ <-.
  - rewrite charged_zero. split; [reflexivity | exact I].
  - split; [reflexivity | exact I].
Qed.

Lemma charges_pow_inv (x m : Z) : charges (Py.pow_inv x m) 0 (fun _ => True).
Proof.
  intros s a s' E. unfold Py.pow_inv in E.
  destruct (_ =? _) in E; [| discriminate E].
  injection E as _ <-. rewrite charged_zero. split; [reflexivity | exact I].
Qed.

(** [eq_zero]: the two assertions, the product with the helper wire
    and, for a wire that is not const, the product with the result. *)
Lemma charges_eq_zero (g : WireGroup) (w : Wire) :
  charges (comparison.eq_zero g w) (3 + mul_count (W w)) (fun r => is_const r = false).
Proof.
  unfold comparison.eq_zero.
  eapply charges_weaken.
  - eapply charges_bind
      with (P := fun hr => is_const (fst hr) = false /\ is_const (snd hr) = false).
    + destruct (value w =? 0).
      * apply charges_ret. split; reflexivity.
      * eapply charges_weaken.
        -- eapply charges_bind; [apply charges_pow_inv |].
           intros h _. apply (charges_ret _ (fun hr => is_const (fst hr) = false
                                                        /\ is_const (snd hr) = false)).
           split; reflexivity.
        -- reflexivity.
        -- intros hr H. exact H.
    + intros [helper_wire result_wire] [Hh Hr]. cbn [fst snd] in Hh, Hr.
      eapply charges_bind; [apply charges_mul |]. intros t1 _.
      eapply charges_bind; [apply charges_assert_equal_wire |]. intros _ _.
      eapply (charges_bind _ _ 1).
      { eapply charges_weaken; [apply charges_mul | | intros r H; exact H].
        unfold mul_count. cbn [nonconst_wire]. rewrite Hh. reflexivity. }
      intros t2 _.
      eapply charges_bind; [apply charges_assert_equal_wire |]. intros _ _.
      apply (charges_ret _ (fun r => is_const r = false)). exact Hr.
  - ring.
  - intros r H. exact H.
Qed.

(** ** The comparison gates *)

Lemma congruent_iff (p a b : Z) :
  (a + (p - b)) mod p = 0 <-> a mod p = b mod p.
Proof.
  split; intros H.
  - replace a with ((a + (p - b)) + b + (-1) * p) by ring.
    rewrite Z_mod_plus_full, <- Zplus_mod_idemp_l, H. reflexivity.
  - rewrite <- Zplus_mod_idemp_l, H, Zplus_mod_idemp_l.
    replace (b + (p - b)) with p by ring. apply Z_mod_same_full.
Qed.

(** X6.  [eq_zero] over a prime field, on a canonical residue: the indicator
    of [value = 0], a wire that is not const, for three counted
    multiplications and one more when the input is not const.  On
    another representative of 0 (the value [p] that [-group.gen(0)] has)
    it raises [ValueError] before it counts anything: [pow] cannot
    invert it. *)
Theorem eq_zero_indicator (g : WireGroup) (w : Wire) :
  Z.prime (group_modulus g) -> in_group g w ->
  (0 <= value w < group_modulus g ->
   costs (comparison.eq_zero g w) (3 + mul_count (W w))
     (fun r => r = gen g (if value w =? 0 then 1 else 0) false)) /\
  (value w <> 0 -> value w mod group_modulus g = 0 ->
   forall s, comparison.eq_zero g w s = (inl (ValueError NotInvertible), s)).
Proof.
  intros Hprime Hw. pose proof (p_ge_2 g Hprime) as Hp. split.
  - intros Hv. eapply costs_weaken.
    + apply costs_intro; [apply (eq_zero_spec g Hprime w (conj Hw Hv)) |].
      apply charges_eq_zero.
    + intros r [H _]. exact H.
  - intros Hne Hz s. unfold comparison.eq_zero, bind, Py.pow_inv.
    destruct (Z.eqb_spec (value w) 0) as [E | _]; [contradiction |].
    assert (E : Z.gcd (value w) (modulus w) = group_modulus g).
    { rewrite Hw, Z.gcd_comm. apply Z.divide_gcd_iff; [lia |].
      apply Z.mod_divide; [lia | exact Hz]. }
    rewrite E. destruct (Z.eqb_spec (group_modulus g) 1) as [E1 | _]; [lia |].
    reflexivity.
Qed.

Lemma eq_zero_indicator_witness :
  costs (comparison.eq_zero g11 (gen g11 0 false)) (3 + 1)
    (fun r => r = gen g11 1 false) /\
  comparison.eq_zero g11 (__neg__ (gen g11 0 false)) (mkCounters 0 0)
  = (inl (ValueError NotInvertible), mkCounters 0 0).
Proof.
  split.
  - apply (proj1 (eq_zero_indicator g11 (gen g11 0 false) prime_11 eq_refl)).
    cbn. lia.
  - apply (proj2 (eq_zero_indicator g11 (__neg__ (gen g11 0 false)) prime_11 eq_refl)).
    + cbn. discriminate.
    + reflexivity.
Defined.

Lemma eq_mod_spec (g : WireGroup) (a b : Wire) :
  Z.prime (group_modulus g) -> in_group g a -> in_group g b ->
  returns (comparison.eq g a b)
    (fun r => r = gen g (if value a mod group_modulus g =? value b mod group_modulus g
                         then 1 else 0) false).
Proof.
  intros Hprime Ha Hb.
  eapply returns_weaken; [apply (eq_spec g Hprime a b Ha Hb) |].
  intros r ->. f_equal.
  pose proof (congruent_iff (group_modulus g) (value a) (value b)) as Hiff.
  destruct (Z.eqb_spec ((value a + (group_modulus g - value b)) mod group_modulus g) 0)
    as [H | H];
    destruct (Z.eqb_spec (value a mod group_modulus g) (value b mod group_modulus g))
    as [H' | H']; try reflexivity.
  - apply Hiff in H. contradiction.
  - apply Hiff in H'. contradiction.
Qed.

(** X7.  [eq] over a prime field compares two wires of the group modulo
    [p]: it raises nothing and returns the wire [group.gen(1)] when the
    values are congruent and [group.gen(0)] when they are not. *)
Theorem eq_indicator (g : WireGroup) (a b : Wire) :
  Z.prime (group_modulus g) -> in_group g a -> in_group g b ->
  returns (comparison.eq g a b)
    (fun r => r = gen g (if value a mod group_modulus g =? value b mod group_modulus g
                         then 1 else 0) false).
Proof. exact (eq_mod_spec g a b). Qed.

Lemma eq_indicator_witness :
  returns (comparison.eq g11 (gen g11 3 false) (gen g11 14 false))
    (fun r => r = gen g11 1 false).
Proof.
  apply (eq_indicator g11 (gen g11 3 false) (gen g11 14 false) prime_11 eq_refl eq_refl).
Defined.

Lemma eq_zero_multiple_spec (g : WireGroup) (w : Wire) (ws : list Wire) :
  Z.prime (group_modulus g) -> in_group g w ->
  returns (comparison.eq_zero_multiple g (w :: ws))
    (fun r => r = gen g (if zsum value (w :: ws) mod group_modulus g =? 0
                         then 1 else 0) false).
Proof.
  intros Hprime Hw. pose proof (p_ge_2 g Hprime) as Hp.
  set (p := group_modulus g) in *.
  unfold comparison.eq_zero_multiple. rewrite (py_sum_wires g w ws Hw). fold p.
  cbn [value]. set (sv := zsum value (w :: ws) mod p).
  assert (Hsv : 0 <= sv < p) by (apply Z.mod_pos_bound; lia).
  eapply returns_bind; [apply returns_ret_eq |]. intros x ->.
  destruct (Z.eqb_spec sv 0) as [Hz | Hnz].
  - eapply returns_bind; [apply returns_ret_eq |]. intros hr ->.
    eapply returns_bind; [apply (mul_reduced g Hprime (gen g 1 false)); reflexivity |].
    intros t1 [[Ht1 _] Hv1]. eapply returns_bind.
    { apply assert_equal_wires; [exact Ht1 | reflexivity |].
      rewrite Hv1. cbn [gen value int_of]. rewrite Hz. reflexivity. }
    intros _ _. eapply returns_bind.
    { unfold __rmul__. apply (mul_reduced g Hprime (gen g 0 false)). reflexivity. }
    intros t2 [[Ht2 _] Hv2]. eapply returns_bind.
    { apply assert_equal_wires;
        [exact Ht2 | apply (rsub_reduced g Hprime); reflexivity |].
      rewrite Hv2, (proj2 (rsub_reduced g Hprime (gen g 1 false) 1 eq_refl)).
      cbn [gen value int_of]. fold p. pull_mod.
      apply mod_add_multiple with (k := -1). ring. }
    intros _ _. apply returns_ret. reflexivity.
  - eapply returns_bind.
    { eapply returns_bind with (P := fun h => h = Z.invmod sv p).
      - intros s. eexists. eexists. split; [| reflexivity].
        apply pow_inv_coprime, (coprime_reduced g Hprime); assumption.
      - intros h ->. apply returns_ret_eq. }
    intros hr ->.
    eapply returns_bind; [apply (mul_reduced g Hprime (gen g 0 false)); reflexivity |].
    intros t1 [[Ht1 _] Hv1]. eapply returns_bind.
    { apply assert_equal_wires; [exact Ht1 | reflexivity |].
      rewrite Hv1. cbn [gen value int_of]. rewrite Z.mul_0_l. reflexivity. }
    intros _ _. eapply returns_bind.
    { unfold __rmul__.
      apply (mul_reduced g Hprime (gen g (Z.invmod sv p) false)). reflexivity. }
    intros t2 [[Ht2 _] Hv2]. eapply returns_bind.
    { apply assert_equal_wires;
        [exact Ht2 | apply (rsub_reduced g Hprime); reflexivity |].
      rewrite Hv2, (proj2 (rsub_reduced g Hprime (gen g 0 false) 1 eq_refl)).
      cbn [gen value int_of]. fold p.
      rewrite (Z.mul_comm (Z.invmod sv p)).
      pose proof (invmod_reduced g Hprime sv Hsv Hnz) as Hinv. fold p in Hinv.
      rewrite Hinv.
      pull_mod. apply mod_add_multiple with (k := -1). ring. }
    intros _ _. apply returns_ret. reflexivity.
Qed.

Lemma charges_eq_zero_multiple (g : WireGroup) (ws : list Wire) :
  charges (comparison.eq_zero_multiple g ws) 2 (fun r => is_const r = false).
Proof.
  unfold comparison.eq_zero_multiple.
  eapply charges_weaken.
  - eapply charges_bind with (P := fun _ => True).
    + destruct (py_sum (map W ws)); [apply charges_raise | apply charges_ret; exact I].
    + intros sum_value _.
      eapply charges_bind
        with (P := fun hr => is_const (snd hr) = false).
      * destruct (sum_value =? 0).
        -- apply charges_ret. reflexivity.
        -- eapply charges_weaken.
           ++ eapply charges_bind; [apply charges_pow_inv |].
              intros h _. apply (charges_ret _ (fun hr => is_const (snd hr) = false)).
              reflexivity.
           ++ reflexivity.
           ++ intros hr H. exact H.
      * intros [helper_wire result_wire] Hr. cbn [snd] in Hr.
        eapply (charges_bind _ _ 0); [apply charges_mul |]. intros t1 _.
        eapply charges_bind; [apply charges_assert_equal_wire |]. intros _ _.
        eapply (charges_bind _ _ 0); [apply charges_mul |]. intros t2 _.
        eapply charges_bind; [apply charges_assert_equal_wire |]. intros _ _.
        apply (charges_ret _ (fun r => is_const r = false)). exact Hr.
  - reflexivity.
  - intros r H. exact H.
Qed.

(** X8.  [eq_zero_multiple] over a prime field, on a non-empty list of wires
    of the group: the indicator that the values sum to 0 modulo [p],
    for exactly two counted multiplications.  On an empty list [sum] is
    the integer 0, which has no [value]: [AttributeError]. *)
Theorem eq_zero_multiple_indicator (g : WireGroup) (ws : list Wire) :
  Z.prime (group_modulus g) -> Forall (in_group g) ws ->
  (ws <> [] ->
   costs (comparison.eq_zero_multiple g ws) 2
     (fun r => r = gen g (if zsum value ws mod group_modulus g =? 0 then 1 else 0) false))
  /\
  (ws = [] -> forall s, comparison.eq_zero_multiple g ws s = (inl AttributeError, s)).
Proof.
  intros Hprime HF. split.
  - intros Hne. destruct ws as [|w ws]; [contradiction |].
    inversion HF as [|? ? Hw _]. subst.
    eapply costs_weaken.
    + apply costs_intro; [apply (eq_zero_multiple_spec g w ws Hprime Hw) |].
      apply charges_eq_zero_multiple.
    + intros r [H _]. exact H.
  - intros -> s. reflexivity.
Qed.

Lemma eq_zero_multiple_indicator_witness :
  costs (comparison.eq_zero_multiple g11
           [gen g11 3 false; gen g11 6 false; gen g11 2 false]) 2
    (fun r => r = gen g11 1 false) /\
  comparison.eq_zero_multiple g11 [] (mkCounters 0 0)
  = (inl AttributeError, mkCounters 0 0).
Proof.
  split.
  - apply (proj1 (eq_zero_multiple_indicator g11
                    [gen g11 3 false; gen g11 6 false; gen g11 2 false] prime_11
                    ltac:(repeat constructor))).
    discriminate.
  - apply (proj2 (eq_zero_multiple_indicator g11 [] prime_11 ltac:(constructor))).
    reflexivity.
Defined.

(** ** The bit gates *)

Lemma charges_mapM_len {A B} (f : A -> M B) (P : B -> Prop) (l : list A) :
  (forall a, In a l -> charges (f a) 0 P) ->
  charges (mapM f l) 0 (fun bs => Forall P bs /\ List.length bs = List.length l).
Proof.
  induction l as [|a l IH]; intros H.
  - cbn [mapM]. apply charges_ret. split; [constructor | reflexivity].
  - cbn [mapM]. eapply charges_weaken.
    + eapply (charges_bind _ _ 0 (0 + 0)); [apply H; left; reflexivity |].
      intros b Hb. eapply charges_bind.
      * apply IH. intros a' Ha'. apply H. right. exact Ha'.
      * intros bs [Hbs Hlen].
        apply (charges_ret _ (fun bs' => Forall P bs'
                                         /\ List.length bs' = List.length (a :: l))).
        split; [constructor; assumption | cbn [List.length]; rewrite Hlen; reflexivity].
    + reflexivity.
    + intros bs H'. exact H'.
Qed.

Lemma charges_int_of_char (c : ascii) : charges (Py.int_of_char c) 0 (fun _ => True).
Proof.
  intros s a s' E. unfold Py.int_of_char in E.
  destruct (_ && _) in E; [| discriminate E].
  injection E as _ <-. rewrite charged_zero. split; [reflexivity | exact I].
Qed.

Lemma charges_split (g : WireGroup) (w : Wire) (L : Z) :
  charges (split g w (Some L))
    (Z.of_nat (List.length (Py.zfill (Py.drop2 (Py.bin (value w))) L)))
    (fun _ => True).
Proof.
  unfold split. set (bits := Py.zfill (Py.drop2 (Py.bin (value w))) L).
  eapply charges_weaken.
  - eapply (charges_bind _ _ 0 (0 + (1 * Z.of_nat (List.length bits) + 0)))
      with (P := fun out => Forall (fun b => is_const b = false) out
                            /\ List.length out = List.length bits).
    + apply charges_mapM_len. intros c _.
      eapply charges_weaken.
      * eapply charges_bind; [apply charges_int_of_char |].
        intros v _. apply (charges_ret _ (fun b => is_const b = false)). reflexivity.
      * reflexivity.
      * intros b H. exact H.
    + intros out [Hnc Hlen].
      eapply charges_bind; [apply charges_assert_equal_int |]. intros _ _.
      eapply charges_bind; [| intros _ _; apply charges_ret; exact I].
      rewrite <- Hlen. apply charges_forM_. intros b Hb.
      eapply charges_weaken; [apply charges_assert_bit | | intros u H; exact H].
      rewrite Forall_forall in Hnc. rewrite (Hnc b Hb). reflexivity.
  - ring.
  - intros out H. exact H.
Qed.

(** X9.  Over a group of positive modulus, [split] counts exactly one
    multiplication per bit it returns (the bit test of each bit wire; the
    comparison of the weighted sum with the input multiplies an integer
    and is not counted): for a wire of non-negative value that is
    [max(L, len(bin(value)) - 2)]. *)
Theorem split_counts_one_per_bit (g : WireGroup) (w : Wire) (L : Z) :
  0 < group_modulus g -> 0 <= value w -> in_group g w ->
  costs (split g w (Some L)) (Z.max L (binary_length (value w)))
    (fun out => Z.of_nat (List.length out) = Z.max L (binary_length (value w))).
Proof.
  intros _ Hv Hg.
  destruct (bin_digits (value w) Hv) as (_ & Hbits & Hlen & Hhead).
  destruct (zfill_digits _ L Hhead Hbits) as (_ & _ & Hlen').
  rewrite Hlen in Hlen'. rewrite <- Hlen'.
  eapply costs_weaken.
  - apply costs_intro; [apply (split_spec g w L Hv Hg) | apply charges_split].
  - intros out [(H & _ & _) _]. rewrite Hlen'. exact H.
Qed.

Lemma split_counts_one_per_bit_witness :
  costs (split g11 (gen g11 7 false) (Some 5)) 5
    (fun out => Z.of_nat (List.length out) = 5).
Proof.
  apply (split_counts_one_per_bit g11 (gen g11 7 false) 5);
    [reflexivity | cbn; lia | reflexivity].
Defined.

Lemma bit_test_eq (p v : Z) :
  Z.prime p ->
  ((v * ((p - v + 1) mod p)) mod p =? 0) = ((v mod p =? 0) || (v mod p =? 1)).
Proof.
  intros Hprime. pose proof (bit_product_zero p v Hprime) as Hiff.
  destruct (Z.eqb_spec ((v * ((p - v + 1) mod p)) mod p) 0) as [H | H].
  - apply Hiff in H. symmetry. apply orb_true_iff.
    destruct H as [H | H]; [left | right]; apply Z.eqb_eq; exact H.
  - symmetry. apply orb_false_iff. split; apply Z.eqb_neq; intros H';
      apply H, Hiff; [left | right]; exact H'.
Qed.

(** X10.  [verify_bit] over a prime field never raises on a wire of the
    group: it returns the wire [group.gen(1)] when the value is 0 or 1
    modulo [p] (where [assert_bit] returns) and [group.gen(0)] otherwise
    (where [assert_bit] raises). *)
Theorem verify_bit_indicator (g : WireGroup) (w : Wire) :
  Z.prime (group_modulus g) -> in_group g w ->
  returns (verify_bit g w)
    (fun r => r = gen g (if (value w mod group_modulus g =? 0)
                            || (value w mod group_modulus g =? 1)
                         then 1 else 0) false).
Proof.
  intros Hprime Hw. unfold verify_bit.
  eapply returns_bind; [apply (mul_reduced g Hprime w _ Hw) |].
  intros m [Hm Hmv].
  eapply returns_weaken; [apply (eq_zero_spec g Hprime m Hm) |].
  intros r ->. f_equal. rewrite Hmv. cbn [int_of].
  rewrite (proj2 (rsub_reduced g Hprime w 1 Hw)).
  rewrite (bit_test_eq _ _ Hprime). reflexivity.
Qed.

Lemma verify_bit_indicator_witness :
  returns (verify_bit g11 (gen g11 1 false)) (fun r => r = gen g11 1 false) /\
  returns (verify_bit g11 (gen g11 5 false)) (fun r => r = gen g11 0 false).
Proof.
  split.
  - apply (verify_bit_indicator g11 (gen g11 1 false) prime_11 eq_refl).
  - apply (verify_bit_indicator g11 (gen g11 5 false) prime_11 eq_refl).
Defined.

(** Wires of the group that carry a bit. *)
Definition bit_wire (g : WireGroup) (w : Wire) : Prop := in_group g w /\ is_bit w.

Definition is_one (w : Wire) : bool := value w =? 1.

Lemma bits_sum_bounds (g : WireGroup) (ws : list Wire) :
  Forall (bit_wire g) ws -> 0 <= zsum value ws <= Z.of_nat (List.length ws).
Proof.
  induction 1 as [|w ws [_ Hw] _ IH]; cbn [zsum List.length]; [lia |].
  rewrite Nat2Z.inj_succ. destruct Hw as [-> | ->]; lia.
Qed.

Lemma bits_sum_all (g : WireGroup) (ws : list Wire) :
  Forall (bit_wire g) ws ->
  (zsum value ws =? Z.of_nat (List.length ws)) = forallb is_one ws.
Proof.
  induction 1 as [|w ws [_ Hw] HF IH]; cbn [zsum List.length forallb]; [reflexivity |].
  pose proof (bits_sum_bounds g ws HF) as Hb.
  rewrite Nat2Z.inj_succ. unfold is_one at 1. destruct Hw as [-> | ->]; cbn [Z.eqb Pos.eqb andb].
  - apply Z.eqb_neq. lia.
  - rewrite <- IH.
    destruct (Z.eqb_spec (zsum value ws) (Z.of_nat (List.length ws))) as [E | E];
      [apply Z.eqb_eq | apply Z.eqb_neq]; lia.
Qed.

Lemma bits_sum_none (g : WireGroup) (ws : list Wire) :
  Forall (bit_wire g) ws -> (zsum value ws =? 0) = negb (existsb is_one ws).
Proof.
  induction 1 as [|w ws [_ Hw] HF IH]; cbn [zsum existsb]; [reflexivity |].
  pose proof (bits_sum_bounds g ws HF) as Hb.
  unfold is_one at 1. destruct Hw as [-> | ->]; cbn [Z.eqb Pos.eqb orb negb].
  - rewrite <- IH. reflexivity.
  - apply Z.eqb_neq. lia.
Qed.

Lemma and_gate_multiple_spec (g : WireGroup) (ws : list Wire) :
  Z.prime (group_modulus g) -> Forall (bit_wire g) ws ->
  Z.of_nat (List.length ws) < group_modulus g ->
  returns (and_gate_multiple_inputs g ws)
    (fun r => r = gen g (if forallb is_one ws then 1 else 0) false).
Proof.
  intros Hprime HF Hlen. pose proof (p_ge_2 g Hprime) as Hp.
  pose proof (bits_sum_bounds g ws HF) as Hb.
  unfold and_gate_multiple_inputs, comparison.eq_multiple. cbn [map].
  set (n := Z.of_nat (List.length ws)) in *.
  assert (E : exists w ws', ws ++ [__neg__ (gen g n true)] = w :: ws' /\ in_group g w).
  { destruct HF as [|w ws [Hw _] _].
    - eexists. eexists. split; [reflexivity | reflexivity].
    - eexists. eexists. split; [reflexivity | exact Hw]. }
  destruct E as (w & ws' & E & Hw).
  eapply returns_weaken.
  - rewrite E. apply (eq_zero_multiple_spec g w ws' Hprime Hw).
  - intros r ->. f_equal. rewrite <- E, zsum_app. cbn [zsum __neg__ gen value modulus].
    rewrite Z.add_0_r, <- (bits_sum_all g ws HF). fold n.
    destruct (Z.eqb_spec ((zsum value ws + (group_modulus g - n)) mod group_modulus g) 0)
      as [H | H]; destruct (Z.eqb_spec (zsum value ws) n) as [H' | H']; try reflexivity.
    + apply congruent_iff in H. rewrite !Z.mod_small in H by lia. contradiction.
    + exfalso. apply H. apply congruent_iff. rewrite H'. reflexivity.
Qed.

(** X11.  [and_gate] over a prime field, on fewer than [p] wires of the group
    that carry bits: it raises nothing and its value is 1 when every
    wire carries 1 and 0 otherwise (1 for the empty list). *)
Theorem and_gate_all (g : WireGroup) (ws : list Wire) :
  Z.prime (group_modulus g) -> Forall (bit_wire g) ws ->
  Z.of_nat (List.length ws) < group_modulus g ->
  returns (and_gate g ws)
    (fun r => reduced_in g r /\ value r = if forallb is_one ws then 1 else 0).
Proof.
  intros Hprime HF Hlen. pose proof (p_ge_2 g Hprime) as Hp.
  assert (Hmulti : returns (and_gate_multiple_inputs g ws)
                     (fun r => reduced_in g r
                               /\ value r = if forallb is_one ws then 1 else 0)).
  { eapply returns_weaken; [apply (and_gate_multiple_spec g ws Hprime HF Hlen) |].
    intros r ->. split; [| reflexivity].
    apply gen_reduced. destruct (forallb is_one ws); lia. }
  destruct ws as [|a [|b [|c ws]]]; try exact Hmulti.
  unfold and_gate, and_gate_two_inputs.
  inversion HF as [|? ? [Ha Hab] HF']. inversion HF' as [|? ? [Hb Hbb] _]. subst.
  eapply returns_weaken; [apply (mul_reduced g Hprime a (W b) Ha) |].
  intros r [Hr Hv]. split; [exact Hr |]. rewrite Hv. cbn [int_of forallb].
  unfold is_one. destruct Hab as [-> | ->], Hbb as [-> | ->];
    cbn [Z.mul Z.eqb Pos.eqb andb]; apply Z.mod_small; lia.
Qed.

Lemma and_gate_all_witness :
  returns (and_gate g11 [gen g11 1 false; gen g11 1 false; gen g11 1 false])
    (fun r => reduced_in g11 r /\ value r = 1) /\
  returns (and_gate g11 [gen g11 1 false; gen g11 0 false])
    (fun r => reduced_in g11 r /\ value r = 0).
Proof.
  split.
  - apply (and_gate_all g11 [gen g11 1 false; gen g11 1 false; gen g11 1 false] prime_11);
      [repeat constructor; right; reflexivity | cbn; lia].
  - apply (and_gate_all g11 [gen g11 1 false; gen g11 0 false] prime_11);
      [| cbn; lia].
    constructor; [split; [reflexivity | right; reflexivity] |].
    constructor; [split; [reflexivity | left; reflexivity] | constructor].
Defined.

Lemma or_gate_two_spec (g : WireGroup) (a b : Wire) :
  Z.prime (group_modulus g) -> bit_wire g a -> bit_wire g b ->
  returns (or_gate_two_inputs g a b)
    (fun r => reduced_in g r /\ value r = if is_one a || is_one b then 1 else 0).
Proof.
  intros Hprime [Ha Hab] [Hb Hbb]. pose proof (p_ge_2 g Hprime) as Hp.
  unfold or_gate_two_inputs.
  eapply returns_bind; [apply (mul_reduced g Hprime a (W b) Ha) |].
  intros t [[Ht _] Htv]. apply returns_ret.
  destruct (add_reduced g Hprime a (W b) Ha) as [[Hs _] Hsv].
  destruct (sub_reduced g Hprime (__add__ a (W b)) t Hs Ht) as [Hr Hrv].
  split; [exact Hr |]. rewrite Hrv, Hsv, Htv. cbn [int_of].
  transitivity ((value a + value b - value a * value b) mod group_modulus g).
  - pull_mod. apply mod_add_multiple with (k := 1). ring.
  - unfold is_one. destruct Hab as [-> | ->], Hbb as [-> | ->];
      cbn [Z.mul Z.add Z.sub Z.opp Z.eqb Pos.eqb orb Z.pos_sub];
      apply Z.mod_small; lia.
Qed.

Lemma or_gate_multiple_spec (g : WireGroup) (ws : list Wire) :
  Z.prime (group_modulus g) -> Forall (bit_wire g) ws -> ws <> [] ->
  Z.of_nat (List.length ws) < group_modulus g ->
  returns (or_gate_multiple_inputs g ws)
    (fun r => reduced_in g r /\ value r = if existsb is_one ws then 1 else 0).
Proof.
  intros Hprime HF Hne Hlen. pose proof (p_ge_2 g Hprime) as Hp.
  pose proof (bits_sum_bounds g ws HF) as Hb.
  pose proof (bits_sum_none g ws HF) as Hnone.
  destruct ws as [|w ws]; [contradiction |].
  inversion HF as [|? ? [Hw _] _]. subst.
  unfold or_gate_multiple_inputs.
  eapply returns_bind; [apply (eq_zero_multiple_spec g w ws Hprime Hw) |].
  intros r ->. apply returns_ret.
  destruct (rsub_reduced g Hprime
              (gen g (if zsum value (w :: ws) mod group_modulus g =? 0 then 1 else 0) false)
              1 eq_refl) as [Hr Hv].
  split; [exact Hr |]. rewrite Hv. cbn [gen value].
  rewrite (Z.mod_small (zsum value (w :: ws))) by lia. rewrite Hnone.
  destruct (existsb is_one (w :: ws)); cbn [negb].
  - replace (group_modulus g - 0 + 1) with (1 + 1 * group_modulus g) by ring.
    rewrite Z_mod_plus_full. apply Z.mod_small. lia.
  - replace (group_modulus g - 1 + 1) with (group_modulus g) by ring.
    apply Z_mod_same_full.
Qed.

(** X12.  [or_gate] over a prime field, on a non-empty list of fewer than [p]
    wires of the group that carry bits: it raises nothing and its value
    is 1 when some wire carries 1 and 0 otherwise.  On the empty list it
    raises [AttributeError] (where [and_gate] returns 1). *)
Theorem or_gate_any (g : WireGroup) (ws : list Wire) :
  Z.prime (group_modulus g) -> Forall (bit_wire g) ws ->
  Z.of_nat (List.length ws) < group_modulus g ->
  (ws <> [] ->
   returns (or_gate g ws)
     (fun r => reduced_in g r /\ value r = if existsb is_one ws then 1 else 0)) /\
  (ws = [] -> forall s, or_gate g ws s = (inl AttributeError, s)).
Proof.
  intros Hprime HF Hlen. split.
  - intros Hne.
    pose proof (or_gate_multiple_spec g ws Hprime HF Hne Hlen) as Hmulti.
    destruct ws as [|a [|b [|c ws]]]; try exact Hmulti.
    inversion HF as [|? ? Ha HF']. inversion HF' as [|? ? Hb _]. subst.
    eapply returns_weaken; [apply (or_gate_two_spec g a b Hprime Ha Hb) |].
    intros r [Hr Hv]. split; [exact Hr |]. rewrite Hv. cbn [existsb].
    rewrite orb_false_r. reflexivity.
  - intros -> s. reflexivity.
Qed.

Lemma or_gate_any_witness :
  returns (or_gate g11 [gen g11 0 false; gen g11 1 false; gen g11 0 false])
    (fun r => reduced_in g11 r /\ value r = 1) /\
  or_gate g11 [] (mkCounters 0 0) = (inl AttributeError, mkCounters 0 0).
Proof.
  split.
  - apply (proj1 (or_gate_any g11 [gen g11 0 false; gen g11 1 false; gen g11 0 false]
                    prime_11
                    ltac:(constructor; [split; [reflexivity | left; reflexivity] |];
                          constructor; [split; [reflexivity | right; reflexivity] |];
                          constructor; [split; [reflexivity | left; reflexivity] |];
                          constructor)
                    ltac:(cbn; lia))).
    discriminate.
  - apply (proj2 (or_gate_any g11 [] prime_11 ltac:(constructor) ltac:(cbn; lia))).
    reflexivity.
Defined.

Lemma charges_xor (g : WireGroup) (a b : Wire) :
  is_const b = false -> charges (xor_gate_two_inputs g a b) 3 (fun _ => True).
Proof.
  intros Hb.
  assert (Hcb : mul_count (W b) = 1).
  { unfold mul_count. cbn [nonconst_wire]. rewrite Hb. reflexivity. }
  unfold xor_gate_two_inputs, or_gate, and_gate, and_gate_two_inputs, or_gate_two_inputs.
  eapply charges_weaken.
  - eapply (charges_bind _ _ 1 (1 + 1)) with (P := fun _ => True).
    + eapply charges_weaken.
      * eapply charges_bind; [apply charges_mul |].
        intros t _. apply (charges_ret _ (fun _ => True)). exact I.
      * rewrite Hcb. reflexivity.
      * intros r _. exact I.
    + intros or_val _.
      eapply (charges_bind _ _ 1 1) with (P := fun r => is_const r = false).
      * eapply charges_weaken; [apply charges_mul | exact Hcb |].
        intros r H. rewrite H. cbn [nonconst_wire]. rewrite Hb. reflexivity.
      * intros and_val Hand.
        eapply charges_weaken; [apply charges_mul | | intros r _; exact I].
        unfold mul_count, __rsub__, __radd__, __add__, __neg__.
        cbn [nonconst_wire is_const]. rewrite Hand. reflexivity.
  - reflexivity.
  - intros r H. exact H.
Qed.

(** X13.  [xor_gate_two_inputs] over a prime field, on two wires of the group
    that carry bits: its value is 1 when the bits differ and 0 when they
    agree; with a second input that is not const it counts exactly three
    multiplications (one in the OR, one in the AND, one to combine
    them). *)
Theorem xor_gate_two_inputs_bits (g : WireGroup) (a b : Wire) :
  Z.prime (group_modulus g) -> bit_wire g a -> bit_wire g b -> is_const b = false ->
  costs (xor_gate_two_inputs g a b) 3
    (fun r => reduced_in g r /\ value r = if value a =? value b then 0 else 1).
Proof.
  intros Hprime Ha Hb Hcb. pose proof (p_ge_2 g Hprime) as Hp.
  eapply costs_weaken;
    [apply costs_intro; [| apply (charges_xor g a b Hcb)] | intros r [H _]; exact H].
  unfold xor_gate_two_inputs.
  eapply returns_bind; [apply (or_gate_two_spec g a b Hprime Ha Hb) |].
  intros or_val [Hor Horv].
  eapply returns_bind; [apply (mul_reduced g Hprime a (W b) (proj1 Ha)) |].
  intros and_val [Hand Handv].
  eapply returns_weaken;
    [apply (mul_reduced g Hprime or_val _ (reduced_in_group g or_val Hor)) |].
  intros r [Hr Hv]. split; [exact Hr |].
  rewrite Hv. cbn [int_of].
  rewrite (proj2 (rsub_reduced g Hprime and_val 1 (reduced_in_group g and_val Hand))).
  rewrite Horv, Handv. cbn [int_of]. unfold is_one.
  destruct Ha as [_ [-> | ->]], Hb as [_ [-> | ->]];
    cbn [Z.mul Z.eqb Pos.eqb orb]; rewrite ?Zmod_0_l, ?Z.mod_1_l by lia.
  - reflexivity.
  - replace (group_modulus g - 0 + 1) with (1 + 1 * group_modulus g) by ring.
    rewrite Z_mod_plus_full, Z.mod_1_l by lia. apply Z.mod_1_l. lia.
  - replace (group_modulus g - 0 + 1) with (1 + 1 * group_modulus g) by ring.
    rewrite Z_mod_plus_full, Z.mod_1_l by lia. apply Z.mod_1_l. lia.
  - replace (group_modulus g - 1 + 1) with (group_modulus g) by ring.
    rewrite Z_mod_same_full. apply Zmod_0_l.
Qed.

Lemma xor_gate_two_inputs_bits_witness :
  costs (xor_gate_two_inputs g11 (gen g11 1 false) (gen g11 0 false)) 3
    (fun r => reduced_in g11 r /\ value r = 1).
Proof.
  apply (xor_gate_two_inputs_bits g11 (gen g11 1 false) (gen g11 0 false) prime_11);
    [split; [reflexivity | right; reflexivity]
    | split; [reflexivity | left; reflexivity]
    | reflexivity].
Defined.

(** ** Branching and division *)

(** X14.  [if_then_else] and [if_then_set_zero] over a prime field, with a
    condition wire of the group that carries a bit: they raise nothing
    and return a canonical residue, the value of the chosen branch
    reduced modulo [p] (for [if_then_set_zero], 0 when the condition is
    1). *)
Theorem if_then_else_selects (g : WireGroup) (c : Wire) (t : num) (e : Wire) :
  Z.prime (group_modulus g) -> bit_wire g c ->
  returns (if_then_else c t e)
    (fun r => reduced_in g r /\
              value r = (if is_one c then int_of t else value e) mod group_modulus g) /\
  returns (if_then_set_zero c e)
    (fun r => reduced_in g r /\
              value r = (if is_one c then 0 else value e) mod group_modulus g).
Proof.
  intros Hprime [Hc Hb]. split.
  - eapply returns_weaken; [apply (if_then_else_spec g Hprime c t e Hc) |].
    intros r (Hr & H1 & H0). split; [exact Hr |].
    unfold is_one. destruct Hb as [E | E]; rewrite E; cbn [Z.eqb Pos.eqb]; auto.
  - eapply returns_weaken; [apply (if_then_set_zero_spec g Hprime c e Hc) |].
    intros r (Hr & H1 & H0). split; [exact Hr |].
    unfold is_one. destruct Hb as [E | E]; rewrite E; cbn [Z.eqb Pos.eqb];
      rewrite ?Zmod_0_l; auto.
Qed.

Lemma if_then_else_selects_witness :
  returns (if_then_else (gen g11 1 false) (Int 15) (gen g11 7 false))
    (fun r => reduced_in g11 r /\ value r = 4) /\
  returns (if_then_set_zero (gen g11 1 false) (gen g11 7 false))
    (fun r => reduced_in g11 r /\ value r = 0).
Proof.
  apply (if_then_else_selects g11 (gen g11 1 false) (Int 15) (gen g11 7 false) prime_11).
  split; [reflexivity | right; reflexivity].
Defined.

(** X15.  [division] over a prime field: a divisor of value 0 raises
    [ValueError] before anything is counted; every other canonical
    divisor gives a canonical quotient [q] with [q * divisor = dividend]
    modulo [p]. *)
Theorem division_quotient_or_error (g : WireGroup) (a d : Wire) :
  Z.prime (group_modulus g) -> in_group g a -> reduced_in g d ->
  (value d = 0 -> forall s, division a d s = (inl (ValueError DivisorZero), s)) /\
  (value d <> 0 ->
   returns (division a d)
     (fun q => reduced_in g q /\
               (value q * value d) mod group_modulus g = value a mod group_modulus g)).
Proof.
  intros Hprime Ha Hd. split.
  - intros Hz s. unfold division. rewrite Hz. reflexivity.
  - intros Hnz. apply (division_spec g Hprime a d Ha Hd Hnz).
Qed.

Lemma division_quotient_or_error_witness :
  division (gen g11 6 false) (gen g11 0 false) (mkCounters 0 0)
  = (inl (ValueError DivisorZero), mkCounters 0 0) /\
  returns (division (gen g11 6 false) (gen g11 4 false))
    (fun q => reduced_in g11 q /\ (value q * 4) mod 11 = 6 mod 11).
Proof.
  split.
  - apply (proj1 (division_quotient_or_error g11 (gen g11 6 false) (gen g11 0 false)
                    prime_11 eq_refl (gen_reduced g11 0 false ltac:(cbn; lia)))).
    reflexivity.
  - apply (proj2 (division_quotient_or_error g11 (gen g11 6 false) (gen g11 4 false)
                    prime_11 eq_refl (gen_reduced g11 4 false ltac:(cbn; lia)))).
    cbn. discriminate.
Defined.

(** X16.  [division_safe] over a prime field never raises on a canonical
    divisor: a divisor other than 0 gives the quotient, and the divisor
    0 is replaced by 1, so that the result is the dividend itself
    (reduced modulo [p]). *)
Theorem division_safe_total (g : WireGroup) (a d : Wire) :
  Z.prime (group_modulus g) -> in_group g a -> reduced_in g d ->
  returns (division_safe g a d)
    (fun q => reduced_in g q /\
              (value d = 0 -> value q = value a mod group_modulus g) /\
              (value d <> 0 ->
               (value q * value d) mod group_modulus g = value a mod group_modulus g)).
Proof.
  intros Hprime Ha Hd.
  eapply returns_weaken; [apply (division_safe_spec g Hprime a d Ha Hd) |].
  intros q [Hq Hv]. split; [exact Hq |]. split.
  - intros Hz. rewrite Hz in Hv. cbn [Z.eqb] in Hv. rewrite Z.mul_1_r in Hv.
    rewrite <- Hv. symmetry. apply Z.mod_small. apply Hq.
  - intros Hnz. destruct (Z.eqb_spec (value d) 0) as [E | _]; [contradiction | exact Hv].
Qed.

Lemma division_safe_total_witness :
  returns (division_safe g11 (gen g11 6 false) (gen g11 0 false))
    (fun q => reduced_in g11 q /\
              (0 = 0 -> value q = 6 mod 11) /\
              (0 <> 0 -> (value q * 0) mod 11 = 6 mod 11)).
Proof.
  apply (division_safe_total g11 (gen g11 6 false) (gen g11 0 false) prime_11 eq_refl
           (gen_reduced g11 0 false ltac:(cbn; lia))).
Defined.

(** The value a list of weighted wires stands for. *)
Definition weighted_value (wires : list (Z * Wire)) : Z :=
  zsum (fun fw => fst fw * value (snd fw)) wires.

Lemma weighted_sum_from (p : Z) (wires : list (Z * Wire)) (acc : Wire) :
  modulus acc = p -> is_const acc = true ->
  let r := fold_left (fun acc fw => __add__ acc (Int (fst fw * value (snd fw))))
                     wires acc in
  value r mod p = (value acc + weighted_value wires) mod p /\
  modulus r = p /\ is_const r = true.
Proof.
  revert acc. induction wires as [|fw wires IH]; intros acc Hm Hc; cbn [fold_left].
  - unfold weighted_value. cbn [zsum]. rewrite Z.add_0_r. auto.
  - destruct (IH (__add__ acc (Int (fst fw * value (snd fw))))) as (Hv & Hm' & Hc').
    + exact Hm.
    + cbn [__add__ is_const nonconst_wire]. exact Hc.
    + split; [| split; assumption].
      rewrite Hv. cbn [__add__ value int_of]. rewrite Hm.
      unfold weighted_value. cbn [zsum]. rewrite Zplus_mod_idemp_l. f_equal. ring.
Qed.

(** X17.  Over a group of positive modulus
    [r1cs_constraint_single_output] never raises.  Its result is a wire
    of the group that is not const and carries the product of the two
    weighted sums modulo [p]; [Wire.n_mul] grows by exactly one and
    [Wire.n_wires] stays as it is (the product of the two const sums is
    not counted by [Wire.__mul__]; the function counts it itself, in
    [n_mul] only). *)
Theorem r1cs_constraint_product (g : WireGroup) (wires_a wires_b : list (Z * Wire))
  (s : Counters) :
  0 < group_modulus g ->
  exists r,
    r1cs_constraint_single_output g wires_a wires_b s
    = (inr r, mkCounters (n_mul s + 1) (n_wires s)) /\
    value r = (weighted_value wires_a * weighted_value wires_b) mod group_modulus g /\
    modulus r = group_modulus g /\ is_const r = false.
Proof.
  intros _.
  destruct (weighted_sum_from (group_modulus g) wires_a (gen g 0 true) eq_refl eq_refl)
    as (Hva & Hma & Hca).
  destruct (weighted_sum_from (group_modulus g) wires_b (gen g 0 true) eq_refl eq_refl)
    as (Hvb & Hmb & Hcb).
  cbn [gen value] in Hva, Hvb. rewrite Z.add_0_l in Hva, Hvb.
  fold (weighted_sum g wires_a) in Hva, Hma, Hca.
  fold (weighted_sum g wires_b) in Hvb, Hmb, Hcb.
  unfold r1cs_constraint_single_output, __mul__, bind.
  cbn [nonconst_wire]. rewrite Hcb. cbn [negb ret count_mul_only int_of value modulus].
  eexists. split; [reflexivity |]. cbn [value modulus is_const].
  rewrite Hma. split; [| split; reflexivity].
  rewrite Zmult_mod, Hva, Hvb, <- Zmult_mod. reflexivity.
Qed.

Lemma r1cs_constraint_product_witness :
  exists r,
    r1cs_constraint_single_output g11
      [(2, gen g11 3 false); (1, gen g11 4 false)] [(3, gen g11 5 false)]
      (mkCounters 7 9)
    = (inr r, mkCounters (7 + 1) 9) /\
    value r = (weighted_value [(2, gen g11 3 false); (1, gen g11 4 false)]
               * weighted_value [(3, gen g11 5 false)]) mod 11 /\
    modulus r = 11 /\ is_const r = false.
Proof.
  apply (r1cs_constraint_product g11
           [(2, gen g11 3 false); (1, gen g11 4 false)] [(3, gen g11 5 false)]
           (mkCounters 7 9)).
  reflexivity.
Defined.

(** ** The list gates *)

Definition zmax_list (v : Z) (l : list Z) : Z := fold_left Z.max l v.

Lemma zmax_list_ge (l : list Z) (v : Z) :
  v <= zmax_list v l /\ forall x, In x l -> x <= zmax_list v l.
Proof.
  unfold zmax_list. revert v. induction l as [|a l IH]; intros v; cbn [fold_left].
  - split; [lia | intros x []].
  - destruct (IH (Z.max v a)) as [H1 H2]. split; [lia |].
    intros x [<- | Hx]; [lia | apply H2, Hx].
Qed.

Lemma zmax_list_in (l : list Z) (v : Z) : In (zmax_list v l) (v :: l).
Proof.
  unfold zmax_list. revert v. induction l as [|a l IH]; intros v; cbn [fold_left].
  - left. reflexivity.
  - destruct (IH (Z.max v a)) as [H | H].
    + rewrite <- H.
      destruct (Z.max_spec v a) as [[_ E] | [_ E]]; rewrite E;
        [right; left | left]; reflexivity.
    + right. right. exact H.
Qed.

(** [x] is below every value of the list / above every value. *)
Definition least_in (l : list Z) (x : Z) : bool := forallb (fun y => x <=? y) l.
Definition greatest_in (l : list Z) (x : Z) : bool := forallb (fun y => y <=? x) l.

Lemma is_min_least (l : list Z) (m x : Z) :
  In m l -> (forall y, In y l -> m <= y) -> In x l -> (x =? m) = least_in l x.
Proof.
  intros Hm Hle Hx. unfold least_in.
  destruct (Z.eqb_spec x m) as [-> | Hne]; symmetry.
  - apply forallb_forall. intros y Hy. apply Z.leb_le, Hle, Hy.
  - destruct (forallb (fun y => x <=? y) l) eqn:E; [| reflexivity].
    rewrite forallb_forall in E. specialize (E m Hm). apply Z.leb_le in E.
    specialize (Hle x Hx). lia.
Qed.

Lemma is_max_greatest (l : list Z) (m x : Z) :
  In m l -> (forall y, In y l -> y <= m) -> In x l -> (x =? m) = greatest_in l x.
Proof.
  intros Hm Hle Hx. unfold greatest_in.
  destruct (Z.eqb_spec x m) as [-> | Hne]; symmetry.
  - apply forallb_forall. intros y Hy. apply Z.leb_le, Hle, Hy.
  - destruct (forallb (fun y => y <=? x) l) eqn:E; [| reflexivity].
    rewrite forallb_forall in E. specialize (E m Hm). apply Z.leb_le in E.
    specialize (Hle x Hx). lia.
Qed.

Lemma zmin_list_least (v : Z) (l : list Z) (x : Z) :
  In x (v :: l) -> (x =? zmin_list v l) = least_in (v :: l) x.
Proof.
  apply is_min_least; [apply zmin_list_in |].
  intros y [<- | Hy]; [apply (proj1 (zmin_list_le l v)) | apply (proj2 (zmin_list_le l v)), Hy].
Qed.

Lemma zmax_list_greatest (v : Z) (l : list Z) (x : Z) :
  In x (v :: l) -> (x =? zmax_list v l) = greatest_in (v :: l) x.
Proof.
  apply is_max_greatest; [apply zmax_list_in |].
  intros y [<- | Hy]; [apply (proj1 (zmax_list_ge l v)) | apply (proj2 (zmax_list_ge l v)), Hy].
Qed.

Section ListGates.

Variable g : WireGroup.
Variable bits : Z.
Let p := group_modulus g.
Hypothesis Hprime : Z.prime p.
Hypothesis Hbits : bits <= bit_length g / 2.

Lemma eq_reduced_spec (a b : Wire) :
  reduced_in g a -> reduced_in g b ->
  returns (comparison.eq g a b)
    (fun r => r = gen g (if value a =? value b then 1 else 0) false).
Proof.
  intros [Ha Hav] [Hb Hbv].
  eapply returns_weaken; [apply (eq_mod_spec g a b Hprime Ha Hb) |].
  intros r ->. fold p. rewrite !Z.mod_small by assumption. reflexivity.
Qed.

Lemma maximum_spec (w : Wire) (ws : list Wire) :
  Forall (reduced_in g) (w :: ws) ->
  let m := zmax_list (value w) (map value ws) in
  returns (maximum g (w :: ws) bits)
    (fun inds =>
       inds = map (fun x => gen g (if value x =? m then 1 else 0) false) (w :: ws)).
Proof.
  intros Hall m. unfold maximum.
  eapply returns_bind; [apply returns_ret_eq |]. intros max_val ->. fold m.
  assert (Hm : forall x, In x (w :: ws) -> value x <= m).
  { intros x [<- | Hx]; [apply (proj1 (zmax_list_ge _ _)) |].
    apply (proj2 (zmax_list_ge _ _)). apply in_map. exact Hx. }
  assert (Hmr : reduced_in g (gen g m false)).
  { pose proof (zmax_list_in (map value ws) (value w)) as Hin. fold m in Hin.
    change (value w :: map value ws) with (map value (w :: ws)) in Hin.
    apply in_map_iff in Hin. destruct Hin as (x & E & Hx).
    rewrite Forall_forall in Hall. split; [reflexivity |].
    cbn [gen value]. rewrite <- E. apply (Hall x Hx). }
  apply returns_mapM_eq. intros x Hx.
  rewrite Forall_forall in Hall. pose proof (Hall x Hx) as Hxr.
  eapply returns_bind; [apply (eq_reduced_spec x (gen g m false) Hxr Hmr) |].
  intros ind ->.
  eapply returns_bind.
  { apply (assert_gt_spec g Hprime bits Hbits (gen g m false) x eq_refl (proj1 Hxr)).
    cbn [gen value]. pose proof (Hm x Hx). lia. }
  intros _ _. apply returns_ret. reflexivity.
Qed.

Lemma extreme_assertions (f : Wire -> M unit) (ws : list Wire) :
  (forall x, In x ws -> returns (f x) (fun _ => True)) ->
  forall r : Wire, returns (forM_ f ws ;;; ret r) (fun r' => r' = r).
Proof.
  intros H r. eapply returns_bind; [apply returns_forM_; exact H |].
  intros _ _. apply returns_ret. reflexivity.
Qed.

End ListGates.

(** X18.  [minimum] over a prime field, with a width the group allows, on
    canonical residues: it raises nothing on a non-empty list and
    returns one wire per input, [group.gen(1)] where the value is the
    least of the list and [group.gen(0)] elsewhere; every occurrence of
    the least value is marked.  On the empty list it raises
    [ValueError]. *)
Theorem minimum_marks_least (g : WireGroup) (bits : Z) (ws : list Wire) :
  Z.prime (group_modulus g) -> bits <= bit_length g / 2 ->
  Forall (reduced_in g) ws ->
  (ws <> [] ->
   returns (minimum g ws bits)
     (fun inds =>
        inds = map (fun w => gen g (if least_in (map value ws) (value w) then 1 else 0)
                                false) ws)) /\
  (ws = [] -> forall s, minimum g ws bits s = (inl (ValueError EmptySequence), s)).
Proof.
  intros Hprime Hbits Hall. split.
  - intros Hne. destruct ws as [|w ws]; [contradiction |].
    eapply returns_weaken; [apply (minimum_spec g Hprime bits Hbits w ws Hall) |].
    intros inds ->. apply map_ext_in. intros x Hx. f_equal.
    rewrite (zmin_list_least (value w) (map value ws) (value x)); [reflexivity |].
    change (value w :: map value ws) with (map value (w :: ws)). apply in_map, Hx.
  - intros -> s. reflexivity.
Qed.

Lemma minimum_marks_least_witness :
  returns (minimum g11 [gen g11 3 false; gen g11 1 false; gen g11 1 false] 2)
    (fun inds => inds = [gen g11 0 false; gen g11 1 false; gen g11 1 false]) /\
  minimum g11 [] 2 (mkCounters 0 0) = (inl (ValueError EmptySequence), mkCounters 0 0).
Proof.
  split.
  - apply (proj1 (minimum_marks_least g11 2
                    [gen g11 3 false; gen g11 1 false; gen g11 1 false] prime_11
                    ltac:(vm_compute; discriminate)
                    ltac:(repeat constructor; cbn; lia))).
    discriminate.
  - apply (proj2 (minimum_marks_least g11 2 [] prime_11
                    ltac:(vm_compute; discriminate) ltac:(constructor))).
    reflexivity.
Defined.

(** X19.  [maximum] over a prime field, with a width the group allows, on
    canonical residues: it raises nothing on a non-empty list and
    returns one wire per input, [group.gen(1)] where the value is the
    greatest of the list and [group.gen(0)] elsewhere; [ValueError] on
    the empty list. *)
Theorem maximum_marks_greatest (g : WireGroup) (bits : Z) (ws : list Wire) :
  Z.prime (group_modulus g) -> bits <= bit_length g / 2 ->
  Forall (reduced_in g) ws ->
  (ws <> [] ->
   returns (maximum g ws bits)
     (fun inds =>
        inds = map (fun w => gen g (if greatest_in (map value ws) (value w) then 1 else 0)
                                false) ws)) /\
  (ws = [] -> forall s, maximum g ws bits s = (inl (ValueError EmptySequence), s)).
Proof.
  intros Hprime Hbits Hall. split.
  - intros Hne. destruct ws as [|w ws]; [contradiction |].
    eapply returns_weaken; [apply (maximum_spec g bits Hprime Hbits w ws Hall) |].
    intros inds ->. apply map_ext_in. intros x Hx. f_equal.
    rewrite (zmax_list_greatest (value w) (map value ws) (value x)); [reflexivity |].
    change (value w :: map value ws) with (map value (w :: ws)). apply in_map, Hx.
  - intros -> s. reflexivity.
Qed.

Lemma maximum_marks_greatest_witness :
  returns (maximum g11 [gen g11 3 false; gen g11 1 false; gen g11 3 false] 2)
    (fun inds => inds = [gen g11 1 false; gen g11 0 false; gen g11 1 false]) /\
  maximum g11 [] 2 (mkCounters 0 0) = (inl (ValueError EmptySequence), mkCounters 0 0).
Proof.
  split.
  - apply (proj1 (maximum_marks_greatest g11 2
                    [gen g11 3 false; gen g11 1 false; gen g11 3 false] prime_11
                    ltac:(vm_compute; discriminate)
                    ltac:(repeat constructor; cbn; lia))).
    discriminate.
  - apply (proj2 (maximum_marks_greatest g11 2 [] prime_11
                    ltac:(vm_compute; discriminate) ltac:(constructor))).
    reflexivity.
Defined.

(** X20.  [get_minimum_value] and [get_maximum_value] under the same
    conditions, on a non-empty list: they raise nothing and return a
    fresh wire of the group that is not const and carries a value of the
    list, below (above) every value of the list. *)
Theorem extreme_values (g : WireGroup) (bits : Z) (ws : list Wire) :
  Z.prime (group_modulus g) -> bits <= bit_length g / 2 ->
  Forall (reduced_in g) ws -> ws <> [] ->
  returns (get_minimum_value g ws bits)
    (fun r => in_group g r /\ is_const r = false /\
              In (value r) (map value ws) /\ Forall (fun w => value r <= value w) ws) /\
  returns (get_maximum_value g ws bits)
    (fun r => in_group g r /\ is_const r = false /\
              In (value r) (map value ws) /\ Forall (fun w => value w <= value r) ws).
Proof.
  intros Hprime Hbits Hall Hne. destruct ws as [|w ws]; [contradiction |].
  assert (Hg : forall x, In x (w :: ws) -> in_group g x).
  { intros x Hx. rewrite Forall_forall in Hall. apply (Hall x Hx). }
  split.
  - unfold get_minimum_value.
    eapply returns_bind; [apply returns_ret_eq |]. intros min_val ->.
    set (m := fold_left Z.min (map value ws) (value w)).
    assert (Hle : forall x, In x (w :: ws) -> m <= value x).
    { intros x [<- | Hx]; [apply (proj1 (zmin_list_le _ _)) |].
      apply (proj2 (zmin_list_le (map value ws) (value w))). apply in_map, Hx. }
    eapply returns_weaken.
    + apply (extreme_assertions (fun wire => assert_gt g wire (gen g m false) bits)).
      intros x Hx. apply (assert_gt_spec g Hprime bits Hbits x (gen g m false) (Hg x Hx) eq_refl).
      cbn [gen value]. pose proof (Hle x Hx). lia.
    + intros r ->. split; [reflexivity |]. split; [reflexivity |]. split.
      * apply (zmin_list_in (map value ws) (value w)).
      * apply Forall_forall. intros x Hx. apply (Hle x Hx).
  - unfold get_maximum_value.
    eapply returns_bind; [apply returns_ret_eq |]. intros max_val ->.
    set (m := fold_left Z.max (map value ws) (value w)).
    assert (Hge : forall x, In x (w :: ws) -> value x <= m).
    { intros x [<- | Hx]; [apply (proj1 (zmax_list_ge _ _)) |].
      apply (proj2 (zmax_list_ge (map value ws) (value w))). apply in_map, Hx. }
    eapply returns_weaken.
    + apply (extreme_assertions (fun wire => assert_gt g (gen g m false) wire bits)).
      intros x Hx. apply (assert_gt_spec g Hprime bits Hbits (gen g m false) x eq_refl (Hg x Hx)).
      cbn [gen value]. pose proof (Hge x Hx). lia.
    + intros r ->. split; [reflexivity |]. split; [reflexivity |]. split.
      * apply (zmax_list_in (map value ws) (value w)).
      * apply Forall_forall. intros x Hx. apply (Hge x Hx).
Qed.

Lemma extreme_values_witness :
  returns (get_minimum_value g11 [gen g11 3 false; gen g11 1 false] 2)
    (fun r => in_group g11 r /\ is_const r = false /\
              In (value r) [3; 1] /\
              Forall (fun w => value r <= value w) [gen g11 3 false; gen g11 1 false]) /\
  returns (get_maximum_value g11 [gen g11 3 false; gen g11 1 false] 2)
    (fun r => in_group g11 r /\ is_const r = false /\
              In (value r) [3; 1] /\
              Forall (fun w => value w <= value r) [gen g11 3 false; gen g11 1 false]).
Proof.
  apply (extreme_values g11 2 [gen g11 3 false; gen g11 1 false] prime_11);
    [vm_compute; discriminate | repeat constructor; cbn; lia | discriminate].
Defined.

Lemma first_hot_zeros (k : nat) : first_hot 0 (repeat 0 k) = repeat 0 k.
Proof.
  induction k as [|k IH]; [reflexivity |].
  cbn [repeat first_hot]. rewrite Z.mul_0_l, Z.add_0_r, IH. reflexivity.
Qed.

Lemma first_hot_first (k : nat) (rest : list Z) :
  first_hot 0 (repeat 0 k ++ 1 :: rest) = repeat 0 k ++ 1 :: repeat 0 (List.length rest).
Proof.
  induction k as [|k IH].
  - cbn [repeat app first_hot]. rewrite Z.sub_0_r, Z.mul_1_r, Z.add_0_l, first_hot_done.
    reflexivity.
  - cbn [repeat app first_hot]. rewrite Z.mul_0_l, Z.add_0_r, IH. reflexivity.
Qed.

(** X21.  [find_first_indicator] over a prime field, on wires of the group
    that carry bits: it raises nothing and returns canonical residues,
    as many as inputs; when the inputs are [k] zeros, a 1 and some rest,
    the result is 1 at position [k] and 0 everywhere else, and when the
    inputs are all 0 so is the result. *)
Theorem find_first_indicator_first (g : WireGroup) (ws : list Wire) :
  Z.prime (group_modulus g) -> Forall (bit_wire g) ws ->
  returns (find_first_indicator g ws)
    (fun res =>
       Forall (reduced_in g) res /\
       (forall k rest, map value ws = repeat 0 k ++ 1 :: rest ->
                       map value res = repeat 0 k ++ 1 :: repeat 0 (List.length rest)) /\
       (forall k, map value ws = repeat 0 k -> map value res = repeat 0 k)).
Proof.
  intros Hprime HF.
  eapply returns_weaken; [apply (find_first_indicator_spec g Hprime ws HF) |].
  intros res [Hres Hv]. split; [exact Hres |]. split.
  - intros k rest E. rewrite Hv, E. apply first_hot_first.
  - intros k E. rewrite Hv, E. apply first_hot_zeros.
Qed.

Lemma find_first_indicator_first_witness :
  returns (find_first_indicator g11
             [gen g11 0 false; gen g11 1 false; gen g11 1 false; gen g11 0 false])
    (fun res => map value res = [0; 1; 0; 0]).
Proof.
  eapply returns_weaken.
  - apply (find_first_indicator_first g11
             [gen g11 0 false; gen g11 1 false; gen g11 1 false; gen g11 0 false]
             prime_11).
    constructor; [split; [reflexivity | left; reflexivity] |].
    constructor; [split; [reflexivity | right; reflexivity] |].
    constructor; [split; [reflexivity | right; reflexivity] |].
    constructor; [split; [reflexivity | left; reflexivity] | constructor].
  - intros res (_ & H & _). apply (H 1%nat [1; 0]). reflexivity.
Defined.

(** How many wires of the list carry the value of [w] modulo [p]. *)
Definition occurrences (p : Z) (ws : list Wire) (w : Wire) : Z :=
  Z.of_nat (List.length (filter (fun x => value x mod p =? value w mod p) ws)).

(** X22.  [get_n_occurences] over a prime field, on wires of the group: it
    raises nothing and returns a canonical residue, the number of wires
    of the list whose value is congruent to that of [wire], reduced
    modulo [p] (0 for the empty list). *)
Theorem get_n_occurences_counts (g : WireGroup) (ws : list Wire) (w : Wire) :
  Z.prime (group_modulus g) -> Forall (in_group g) ws -> in_group g w ->
  returns (get_n_occurences g ws w)
    (fun r => reduced_in g r /\
              value r = occurrences (group_modulus g) ws w mod group_modulus g).
Proof.
  intros Hprime HF Hw. pose proof (p_ge_2 g Hprime) as Hp.
  unfold get_n_occurences.
  apply returns_foldM_prefix
    with (Inv := fun pre acc =>
                   reduced_in g acc /\
                   value acc = occurrences (group_modulus g) pre w mod group_modulus g).
  - split; [apply gen_reduced; lia | reflexivity].
  - intros pre x post acc E [Hacc Hv].
    assert (Hx : in_group g x).
    { rewrite Forall_forall in HF. apply HF. rewrite E.
      apply in_or_app. right. left. reflexivity. }
    eapply returns_bind; [apply (eq_mod_spec g x w Hprime Hx Hw) |].
    intros ind ->. apply returns_ret.
    destruct (add_reduced g Hprime acc
                (W (gen g (if value x mod group_modulus g =? value w mod group_modulus g
                           then 1 else 0) false))
                (reduced_in_group g acc Hacc)) as [Hr Hrv].
    split; [exact Hr |]. rewrite Hrv, Hv. cbn [int_of gen value].
    rewrite Zplus_mod_idemp_l. f_equal.
    unfold occurrences. rewrite filter_app, length_app. cbn [filter].
    destruct (value x mod group_modulus g =? value w mod group_modulus g);
      cbn [List.length]; lia.
Qed.

Lemma get_n_occurences_counts_witness :
  returns (get_n_occurences g11 [gen g11 2 false; gen g11 5 false; gen g11 2 false]
             (gen g11 2 false))
    (fun r => reduced_in g11 r /\ value r = 2).
Proof.
  apply (get_n_occurences_counts g11 [gen g11 2 false; gen g11 5 false; gen g11 2 false]
           (gen g11 2 false) prime_11);
    [repeat constructor | reflexivity].
Defined.

Lemma forall2_values {A} (R : Wire -> Prop) (h : A -> Z) (l : list A) (bs : list Wire) :
  Forall2 (fun a b => R b /\ value b = h a) l bs ->
  Forall R bs /\ map value bs = map h l.
Proof.
  induction 1 as [|a b l bs [Hb Hv] _ [IH1 IH2]].
  - split; [constructor | reflexivity].
  - split; [constructor; assumption |]. cbn [map]. rewrite Hv, IH2. reflexivity.
Qed.

(** X23.  [get_list_with_index_set] over a prime field, for a canonical index
    and a length of at most [p]: it raises nothing and returns [length]
    canonical residues, 1 at the position the index names and 0
    elsewhere (all 0 when the index is not below the length). *)
Theorem get_list_with_index_set_one_hot (g : WireGroup) (index : Wire) (len : Z) :
  Z.prime (group_modulus g) -> reduced_in g index -> len <= group_modulus g ->
  returns (get_list_with_index_set g index len)
    (fun l => Forall (reduced_in g) l /\
              map value l = map (fun i => if i =? value index then 1 else 0)
                                (Py.range len)).
Proof.
  intros Hprime [Hig Hiv] Hlen. pose proof (p_ge_2 g Hprime) as Hp.
  unfold get_list_with_index_set.
  eapply returns_weaken.
  - apply returns_mapM
      with (R := fun i r => reduced_in g r
                            /\ value r = if i =? value index then 1 else 0).
    intros i Hi. apply range_in in Hi.
    eapply returns_bind; [apply (eq_mod_spec g index (gen g i false) Hprime Hig eq_refl) |].
    intros ind ->. cbn [gen value]. rewrite !Z.mod_small by lia.
    rewrite (Z.eqb_sym (value index) i).
    set (e := if i =? value index then 1 else 0).
    assert (He : e = 0 \/ e = 1) by (subst e; destruct (i =? value index); auto).
    destruct (rsub_reduced g Hprime (gen g e false) 1 eq_refl) as [Hc Hcv].
    cbn [gen value] in Hcv.
    eapply returns_weaken.
    + apply (if_then_set_zero_spec g Hprime _ (gen g 1 false) (reduced_in_group g _ Hc)).
    + intros r (Hr & H1 & H0). split; [exact Hr |].
      destruct He as [E | E].
      * rewrite E. apply H1. rewrite Hcv, E.
        replace (group_modulus g - 0 + 1) with (1 + 1 * group_modulus g) by ring.
        rewrite Z_mod_plus_full. apply Z.mod_small. lia.
      * rewrite E. rewrite H0; [cbn [gen value]; apply Z.mod_small; lia |].
        rewrite Hcv, E.
        replace (group_modulus g - 1 + 1) with (group_modulus g) by ring.
        apply Z_mod_same_full.
  - intros l HF2. apply forall2_values in HF2. exact HF2.
Qed.

Lemma get_list_with_index_set_one_hot_witness :
  returns (get_list_with_index_set g11 (gen g11 2 false) 4)
    (fun l => Forall (reduced_in g11) l /\ map value l = [0; 0; 1; 0]).
Proof.
  apply (get_list_with_index_set_one_hot g11 (gen g11 2 false) 4 prime_11);
    [apply gen_reduced; cbn; lia | cbn; lia].
Defined.

(** ** The ballot manager: keys and counts *)

Lemma split_on_dash_head (r : string) :
  Py.split_on "-" (String "-" r) = EmptyString :: Py.split_on "-" r.
Proof. reflexivity. Qed.

(** X24.  The keys of the ballot manager can be read back: for a list of
    non-negative choices [_map_str_to_ballot] undoes
    [_map_ballot_to_str], and two such lists with the same key are the
    same list.  A list that starts with a negative choice cannot be read
    back: its key starts with the separator, and reading it raises
    [ValueError] on the empty piece in front of it. *)
Theorem ballot_key_round_trip :
  (forall (l : list Z) (s : Counters),
      Forall (fun c => 0 <= c) l ->
      _map_str_to_ballot (_map_ballot_to_str l) s = (inr l, s)) /\
  (forall l1 l2 : list Z,
      Forall (fun c => 0 <= c) l2 ->
      _map_ballot_to_str l1 = _map_ballot_to_str l2 -> l1 = l2) /\
  (forall (c : Z) (l : list Z) (s : Counters),
      c < 0 ->
      _map_str_to_ballot (_map_ballot_to_str (c :: l)) s
      = (inl (ValueError InvalidLiteral), s)).
Proof.
  split; [| split].
  - intros l s Hl. apply map_str_to_ballot_key. exact Hl.
  - intros l1 l2 Hl2 E. apply (map_ballot_to_str_inj l2 Hl2 l1 E).
  - intros c l s Hc. rewrite map_ballot_to_str_cons.
    destruct (str_neg c Hc) as [r Hr]. rewrite Hr.
    unfold _map_str_to_ballot. cbn [String.append String.eqb Ascii.eqb Bool.eqb].
    rewrite split_on_dash_head. reflexivity.
Qed.

Lemma ballot_key_round_trip_witness :
  _map_str_to_ballot (_map_ballot_to_str [2; 0; 11]) (mkCounters 0 0)
  = (inr [2; 0; 11], mkCounters 0 0) /\
  (_map_ballot_to_str [2; 0; 11] = _map_ballot_to_str [2; 0; 11] ->
   [2; 0; 11] = [2; 0; 11]) /\
  _map_str_to_ballot (_map_ballot_to_str [-1; 2]) (mkCounters 0 0)
  = (inl (ValueError InvalidLiteral), mkCounters 0 0).
Proof.
  split; [| split].
  - apply (proj1 ballot_key_round_trip). repeat constructor; lia.
  - apply (proj1 (proj2 ballot_key_round_trip)). repeat constructor; lia.
  - apply (proj2 (proj2 ballot_key_round_trip)). lia.
Defined.

Lemma fold_set_values (P : Wire -> Prop) (v : Wire) (ls : list (list Z)) (d : dict) :
  P v -> Forall (fun kv => P (snd kv)) d ->
  Forall (fun kv => P (snd kv))
    (fold_left (fun d perm => dict_set d (_map_ballot_to_str perm) v) ls d).
Proof.
  intros Hv. revert d. induction ls as [|l ls IH]; intros d Hd; cbn [fold_left].
  - exact Hd.
  - apply IH. apply (dict_set_values P); assumption.
Qed.

Lemma init_mapping_values (n : Z) (g : WireGroup) :
  Forall (fun kv => snd kv = gen g 0 false) (init_mapping n g).
Proof.
  unfold init_mapping. apply (dict_set_values (fun w => w = gen g 0 false)); [| reflexivity].
  generalize (lengths_downwards n).
  assert (H : forall (lens : list nat) (d : dict),
             Forall (fun kv => snd kv = gen g 0 false) d ->
             Forall (fun kv => snd kv = gen g 0 false)
               (fold_left
                  (fun d i =>
                     fold_left (fun d perm => dict_set d (_map_ballot_to_str perm)
                                                       (gen g 0 false))
                               (permutations (Py.range n) i) d)
                  lens d)).
  { induction lens as [|i lens IH]; intros d Hd; cbn [fold_left]; [exact Hd |].
    apply IH. apply (fold_set_values (fun w => w = gen g 0 false)); [reflexivity | exact Hd]. }
  intros lens. apply H. constructor.
Qed.

(** X25.  [IRVBallotManager.create(n_choices, group)]: the keys of the new
    manager are the keys of the duplicate-free lists of choices below
    [n_choices] (the empty list among them), each key once, and every
    count is the wire [group.gen(0)]. *)
Theorem create_all_orderings_zero (n : Z) (g : WireGroup) :
  let bm := IRVBallotManager_create n g in
  bm_n_choices bm = n /\
  NoDup (dict_keys (mapping bm)) /\
  (forall k, In k (dict_keys (mapping bm))
             <-> exists l, legal_ordering n l /\ k = _map_ballot_to_str l) /\
  (forall l, legal_ordering n l ->
             dict_get (mapping bm) (_map_ballot_to_str l) = Some (gen g 0 false)).
Proof.
  cbn [IRVBallotManager_create bm_n_choices mapping].
  split; [reflexivity |]. split; [apply init_mapping_nodup |].
  split; [apply init_mapping_keys |].
  intros l Hl.
  assert (Hin : In (_map_ballot_to_str l) (dict_keys (init_mapping n g))).
  { apply init_mapping_keys. exists l. split; [exact Hl | reflexivity]. }
  apply dict_get_some_iff in Hin. destruct Hin as [w Hw]. rewrite Hw. f_equal.
  apply (dict_get_value (fun w => w = gen g 0 false) _ _ _ (init_mapping_values n g) Hw).
Qed.

Lemma create_all_orderings_zero_witness :
  dict_get (mapping (IRVBallotManager_create 3 g11)) (_map_ballot_to_str [2; 0])
  = Some (gen g11 0 false).
Proof.
  apply (proj2 (proj2 (proj2 (create_all_orderings_zero 3 g11)))).
  split; [repeat constructor; cbn; intuition lia | repeat constructor; lia].
Defined.

(** ** The ballot manager: tallies and the move of votes *)

Lemma first_choice_unknown (g : WireGroup) (n : Z) (d : dict) (c : Z) :
  dict_wf g n d -> ~ (0 <= c < n) ->
  returns (get_n_ballots_with_first_choice (mkIRVBallotManager n d) c)
    (fun r => r = None).
Proof.
  intros Hwf Hc. unfold get_n_ballots_with_first_choice. cbn [mapping].
  rewrite (proj1 Hwf).
  apply returns_foldM with (Inv := fun st : option Wire => st = None); [| reflexivity].
  intros st k Hk ->.
  eapply returns_bind with (P := fun l => l = decode k).
  { intros s. exists (decode k), s. split; [apply (read_key g n); exact Hk | reflexivity]. }
  intros l ->. destruct (key_decode g n k Hk) as [[_ Hall] _].
  destruct (decode k) as [|c' rest]; [apply returns_ret; reflexivity |].
  inversion Hall as [|? ? Hc' _]. subst.
  destruct (Z.eqb_spec c' c) as [-> | _]; [contradiction |].
  apply returns_ret. reflexivity.
Qed.

(** X26.  [get_n_ballots_with_first_choice] over a prime field, on a manager
    for [n] choices with canonical counts: for a choice below [n] it
    returns a canonical wire that carries the sum, modulo [p], of the
    counts of all keys that start with this choice; for any other choice
    it returns [None]. *)
Theorem first_choice_tally (g : WireGroup) (n : Z) (d : dict) (c : Z) :
  Z.prime (group_modulus g) -> dict_wf g n d ->
  (0 <= c < n ->
   returns (get_n_ballots_with_first_choice (mkIRVBallotManager n d) c)
     (fun r => exists w, r = Some w /\ reduced_in g w /\
                         value w = tally d c (dict_keys d) mod group_modulus g)) /\
  (~ (0 <= c < n) ->
   returns (get_n_ballots_with_first_choice (mkIRVBallotManager n d) c)
     (fun r => r = None)).
Proof.
  intros Hprime Hwf. split.
  - intros Hc. rewrite (proj1 Hwf).
    apply (get_n_ballots_with_first_choice_spec g n Hprime d c Hwf Hc).
  - intros Hc. apply (first_choice_unknown g n d c Hwf Hc).
Qed.

Lemma first_choice_tally_witness :
  returns (get_n_ballots_with_first_choice
             (ballots_of g11 3 [([0; 1; 2], 3); ([1; 2; 0], 2); ([0; 2], 4)]) 0)
    (fun r => exists w, r = Some w /\ reduced_in g11 w /\ value w = 7) /\
  returns (get_n_ballots_with_first_choice
             (ballots_of g11 3 [([0; 1; 2], 3); ([1; 2; 0], 2); ([0; 2], 4)]) 5)
    (fun r => r = None).
Proof.
  assert (Hwf : dict_wf g11 3
                  (mapping (ballots_of g11 3 [([0; 1; 2], 3); ([1; 2; 0], 2); ([0; 2], 4)]))).
  { split; [vm_compute; reflexivity |]. apply dict_values_reduced. vm_compute. reflexivity. }
  split.
  - apply (proj1 (first_choice_tally g11 3 _ 0 prime_11 Hwf)). lia.
  - apply (proj2 (first_choice_tally g11 3 _ 5 prime_11 Hwf)). lia.
Defined.

(** X27.  [update_votes_on_elimination] over a prime field, on a manager for
    [n] choices with canonical counts, with indicators that are 1 for
    the choice [c] and 0 for every other choice: it raises nothing, the
    manager keeps its keys and canonical counts, and the count of every
    ordering [l] that does not contain [c] grows by the count that the
    ordering [c :: l] had before the call; the counts of the orderings
    that contain [c] stay as they are. *)
Theorem update_moves_votes (g : WireGroup) (n : Z) (d : dict) (hs : list Wire) (j : nat) :
  Z.prime (group_modulus g) -> dict_wf g n d ->
  (j < Z.to_nat n)%nat -> Forall (reduced_in g) hs ->
  map value hs = one_hot j (Z.to_nat n) ->
  returns (update_votes_on_elimination (mkIRVBallotManager n d) hs)
    (fun bm' =>
       bm_n_choices bm' = n /\ dict_wf g n (mapping bm') /\
       forall l, legal_ordering n l ->
                 val (mapping bm') (_map_ballot_to_str l)
                 = (val d (_map_ballot_to_str l)
                    + (if existsb (Z.eqb (Z.of_nat j)) l then 0
                       else val d (_map_ballot_to_str (Z.of_nat j :: l))))
                   mod group_modulus g).
Proof.
  intros Hprime Hwf Hj Hred Hval.
  assert (Hlen : List.length hs = Z.to_nat n).
  { apply (f_equal (@List.length Z)) in Hval.
    rewrite length_map, one_hot_length in Hval. exact Hval. }
  eapply returns_weaken;
    [apply (update_votes_on_elimination_spec g n Hprime hs j Hj Hlen Hred Hval d Hwf) |].
  intros bm' (Hn & Hwf' & Hupd). split; [exact Hn |]. split; [exact Hwf' |].
  intros l Hl. rewrite (Hupd _ (legal_key_in g n l Hl)).
  unfold updated, moved_from. rewrite (decode_key l (legal_nonneg n l Hl)). reflexivity.
Qed.

Lemma update_moves_votes_witness :
  returns (update_votes_on_elimination
             (mkIRVBallotManager 3
                (mapping (ballots_of g11 3 [([0; 1; 2], 3); ([1; 2; 0], 2); ([2; 1; 0], 1)])))
             [gen g11 0 false; gen g11 0 false; gen g11 1 false])
    (fun bm' => val (mapping bm') (_map_ballot_to_str [1; 0]) = 1 /\
                val (mapping bm') (_map_ballot_to_str [2; 1; 0]) = 1).
Proof.
  eapply returns_weaken.
  - apply (update_moves_votes g11 3 _ [gen g11 0 false; gen g11 0 false; gen g11 1 false]
             2%nat prime_11).
    + split; [vm_compute; reflexivity |]. apply dict_values_reduced. vm_compute. reflexivity.
    + cbn. lia.
    + repeat constructor; cbn; lia.
    + reflexivity.
  - intros bm' (_ & _ & H). split.
    + rewrite (H [1; 0]); [reflexivity |].
      split; [repeat constructor; cbn; intuition lia | repeat constructor; lia].
    + rewrite (H [2; 1; 0]); [reflexivity |].
      split; [repeat constructor; cbn; intuition lia | repeat constructor; lia].
Defined.

(** ** The choice a round eliminates *)

Lemma first_hot_one_hot_first (ms : list Z) :
  Forall is_bit_value ms -> In 1 ms ->
  exists j, (j < List.length ms)%nat /\ nth j ms 0 = 1 /\
            (forall i, (i < j)%nat -> nth i ms 0 = 0) /\
            first_hot 0 ms = one_hot j (List.length ms).
Proof.
  induction 1 as [|w ms Hw Hms IH]; intros Hin; [contradiction |].
  destruct Hw as [-> | ->].
  - destruct Hin as [Hin | Hin]; [discriminate Hin |].
    destruct (IH Hin) as (j & Hj & Hnth & Hfirst & Hfh).
    exists (S j). split; [cbn [List.length]; lia |]. split; [exact Hnth |]. split.
    + intros [|i] Hi; [reflexivity |]. cbn [nth]. apply Hfirst. lia.
    + cbn [first_hot List.length one_hot]. rewrite Z.mul_0_l, Z.add_0_r, Hfh. reflexivity.
  - exists O. split; [cbn [List.length]; lia |]. split; [reflexivity |]. split.
    + intros i Hi. lia.
    + cbn [first_hot List.length one_hot].
      change (0 + 1 * (1 - 0)) with 1. rewrite first_hot_done. reflexivity.
Qed.

(** With the counts [ts] and the flags [vs]: the first minimum of the
    masked counts is the first choice still in the race with the least
    count among the choices still in the race. *)
Lemma round_choice_first (g : WireGroup) (ts vs : list Z) (m : Z) :
  List.length ts = List.length vs ->
  Forall is_bit_value vs ->
  let mk := map (fun tv => masked g (fst tv) (snd tv)) (combine ts vs) in
  In m mk -> (forall x, In x mk -> m <= x) ->
  (exists i, (i < List.length vs)%nat /\ nth i vs 1 = 0
             /\ nth i ts 0 < group_modulus g - 1) ->
  exists j, (j < List.length vs)%nat /\ nth j vs 1 = 0 /\
            (forall i, (i < List.length vs)%nat -> nth i vs 1 = 0 ->
                       nth j ts 0 <= nth i ts 0) /\
            (forall i, (i < j)%nat -> nth i vs 1 = 0 -> nth j ts 0 < nth i ts 0) /\
            first_hot 0 (map (fun v => if v =? m then 1 else 0) mk)
            = one_hot j (List.length vs).
Proof.
  intros Hlen Hbits mk Hin Hmin (i0 & Hi0 & Hvi0 & Hti0).
  set (h := fun v : Z => if v =? m then 1 else 0).
  set (ms := map h mk).
  assert (Hmklen : List.length mk = List.length vs).
  { unfold mk. rewrite length_map, length_combine. lia. }
  assert (Hmslen : List.length ms = List.length vs).
  { unfold ms. rewrite length_map. exact Hmklen. }
  assert (Hnth : forall a, (a < List.length vs)%nat ->
                           nth a mk 0 = masked g (nth a ts 0) (nth a vs 1)).
  { intros a Ha. unfold mk.
    rewrite (nth_indep _ 0 (masked g (fst (0, 1)) (snd (0, 1))))
      by (rewrite length_map, length_combine; lia).
    rewrite (map_nth (fun tv => masked g (fst tv) (snd tv))).
    rewrite combine_nth by exact Hlen. reflexivity. }
  assert (Halive : forall a, (a < List.length vs)%nat -> nth a vs 1 = 0 ->
                             nth a mk 0 = nth a ts 0 /\ m <= nth a ts 0).
  { intros a Ha Hav. pose proof (Hnth a Ha) as E. rewrite Hav in E.
    unfold masked in E at 1. cbn [Z.eqb] in E. split; [exact E |].
    rewrite <- E. apply Hmin, nth_In. lia. }
  assert (Hmsnth : forall a, (a < List.length vs)%nat -> nth a ms 0 = h (nth a mk 0)).
  { intros a Ha. unfold ms.
    rewrite (nth_indep _ 0 (h 0)) by (rewrite length_map; lia). apply map_nth. }
  assert (Hms : Forall is_bit_value ms).
  { unfold ms. apply Forall_map, Forall_forall. intros x _. unfold h.
    destruct (x =? m); [right | left]; reflexivity. }
  assert (H1 : In 1 ms).
  { unfold ms. apply in_map_iff. exists m. split; [| exact Hin].
    unfold h. rewrite Z.eqb_refl. reflexivity. }
  destruct (first_hot_one_hot_first ms Hms H1) as (j & Hj & Hjv & Hfirst & Hfh).
  rewrite Hmslen in Hj, Hfh.
  assert (Hjm : nth j mk 0 = m).
  { rewrite (Hmsnth j Hj) in Hjv. unfold h in Hjv.
    destruct (Z.eqb_spec (nth j mk 0) m); [assumption | discriminate Hjv]. }
  assert (Hjalive : nth j vs 1 = 0).
  { destruct (bit_at vs j Hbits) as [E | E]; [exact E |].
    pose proof (Hnth j Hj) as E'. rewrite E, Hjm in E'. unfold masked in E'.
    cbn [Z.eqb Pos.eqb] in E'.
    destruct (Halive i0 Hi0 Hvi0) as [_ Hle]. lia. }
  destruct (Halive j Hj Hjalive) as [Ejt _]. rewrite Hjm in Ejt.
  exists j. split; [exact Hj |]. split; [exact Hjalive |].
  split; [| split; [| exact Hfh]].
  - intros i Hi Hiv. destruct (Halive i Hi Hiv) as [_ Hle]. lia.
  - intros i Hi Hiv. assert (Hi' : (i < List.length vs)%nat) by lia.
    destruct (Halive i Hi' Hiv) as [Eit Hle].
    pose proof (Hfirst i Hi) as Hz. rewrite (Hmsnth i Hi') in Hz. unfold h in Hz.
    destruct (Z.eqb_spec (nth i mk 0) m) as [E | Hne]; [discriminate Hz |]. lia.
Qed.

Section EliminationValues.

Variable g : WireGroup.
Variable bits : Z.
Let p := group_modulus g.
Hypothesis Hprime : Z.prime p.
Hypothesis Hbits : bits <= bit_length g / 2.

Lemma eliminate_choice_values (rnd : Z) (es ws : list Wire) :
  Forall (reduced_in g) ws -> Forall (reduced_in g) es ->
  Forall is_bit_value (map value es) ->
  List.length ws = List.length es -> es <> [] ->
  returns (eliminate_choice (EliminateFirstPossibilityEliminator g bits) rnd es
             (map Some ws))
    (fun hs =>
       Forall (reduced_in g) hs /\
       exists m,
         let mk := map (fun tv => masked g (fst tv) (snd tv))
                       (combine (map value ws) (map value es)) in
         In m mk /\ (forall x, In x mk -> m <= x) /\
         map value hs = first_hot 0 (map (fun v => if v =? m then 1 else 0) mk)).
Proof.
  intros Hws Hes Hbit Hlen Hne.
  unfold eliminate_choice, compute_min.
  cbn [EliminateFirstPossibilityEliminator elim_group elim_bits break_ties].
  assert (Hes' : Forall (fun e => in_group g e /\ is_bit e) es).
  { rewrite Forall_forall in Hes, Hbit |- *. intros e He. split.
    - apply reduced_in_group, Hes, He.
    - apply (Hbit (value e)). apply in_map. exact He. }
  apply returns_bind
    with (P := fun inds =>
                 exists w out',
                   map value (w :: out')
                   = map (fun we => masked g (value (fst we)) (value (snd we)))
                         (combine ws es) /\
                   inds = map (fun x => gen g (if value x =? zmin_list (value w) (map value out')
                                               then 1 else 0) false) (w :: out')).
  - eapply returns_bind; [apply (masked_votes g Hprime ws es Hws Hes') |].
    intros out [Hout Hvals].
    destruct out as [|w out'].
    + exfalso. apply (f_equal (@List.length Z)) in Hvals.
      rewrite !length_map, length_combine in Hvals. cbn [List.length] in Hvals.
      destruct es; [contradiction | cbn [List.length] in *; lia].
    + eapply returns_weaken; [apply (minimum_spec g Hprime bits Hbits w out' Hout) |].
      intros inds Hinds. exists w, out'. split; [exact Hvals | exact Hinds].
  - intros inds (w & out' & Hvals & ->).
    set (m := zmin_list (value w) (map value out')).
    rewrite combine_values in Hvals.
    eapply returns_weaken.
    + apply (find_first_indicator_spec g Hprime).
      apply Forall_map, Forall_forall. intros x _. split; [reflexivity |].
      unfold is_bit. cbn [gen value]. destruct (value x =? m); [right | left]; reflexivity.
    + intros hs [Hhs Hhv]. split; [exact Hhs |].
      rewrite map_map in Hhv. cbn [gen value] in Hhv.
      rewrite <- (map_map value (fun v => if v =? m then 1 else 0)) in Hhv.
      rewrite Hvals in Hhv.
      exists m. split; [rewrite <- Hvals; apply zmin_list_in |]. split; [| exact Hhv].
      rewrite <- Hvals. intros x [<- | Hx];
        [apply (proj1 (zmin_list_le _ _)) | apply (proj2 (zmin_list_le _ _)), Hx].
Qed.

End EliminationValues.

(** X28.  [eliminate_choice] of the first-possibility eliminator over a prime
    field, with a width the group allows, on canonical counts [ws] and
    flags [es] that are bits, when some choice without flag has a count
    below [p - 1]: the indicators it returns are 1 for a single choice
    [j] and 0 for all others; [j] has no flag, no choice without flag
    has a smaller count, and every earlier choice without flag has a
    larger count. *)
Theorem eliminate_choice_first_least (g : WireGroup) (bits rnd : Z) (es ws : list Wire) :
  Z.prime (group_modulus g) -> bits <= bit_length g / 2 ->
  Forall (reduced_in g) ws -> Forall (reduced_in g) es ->
  Forall is_bit_value (map value es) ->
  List.length ws = List.length es ->
  (exists i, (i < List.length es)%nat /\ nth i (map value es) 1 = 0
             /\ nth i (map value ws) 0 < group_modulus g - 1) ->
  returns (eliminate_choice (EliminateFirstPossibilityEliminator g bits) rnd es
             (map Some ws))
    (fun hs =>
       exists j, (j < List.length es)%nat /\
                 map value hs = one_hot j (List.length es) /\
                 nth j (map value es) 1 = 0 /\
                 (forall i, (i < List.length es)%nat -> nth i (map value es) 1 = 0 ->
                            nth j (map value ws) 0 <= nth i (map value ws) 0) /\
                 (forall i, (i < j)%nat -> nth i (map value es) 1 = 0 ->
                            nth j (map value ws) 0 < nth i (map value ws) 0)).
Proof.
  intros Hprime Hbits Hws Hes Hbit Hlen Halive.
  assert (Hne : es <> []).
  { destruct Halive as (i & Hi & _). destruct es; [cbn in Hi; lia | discriminate]. }
  eapply returns_weaken;
    [apply (eliminate_choice_values g bits Hprime Hbits rnd es ws Hws Hes Hbit Hlen Hne) |].
  intros hs (_ & m & Hin & Hmin & Hv).
  destruct (round_choice_first g (map value ws) (map value es) m)
    as (j & Hj & Hjv & Hleast & Hfirst & Hfh).
  - rewrite !length_map. exact Hlen.
  - exact Hbit.
  - exact Hin.
  - exact Hmin.
  - rewrite length_map. exact Halive.
  - rewrite length_map in Hj, Hleast, Hfh. exists j.
    split; [exact Hj |]. split; [rewrite Hv; exact Hfh |].
    split; [exact Hjv |]. split; [exact Hleast | exact Hfirst].
Qed.

Lemma eliminate_choice_first_least_witness :
  returns (eliminate_choice (EliminateFirstPossibilityEliminator g11 2) 0
             [gen g11 1 false; gen g11 0 false; gen g11 0 false; gen g11 0 false]
             (map Some [gen g11 0 false; gen g11 4 false; gen g11 2 false; gen g11 2 false]))
    (fun hs => map value hs = [0; 0; 1; 0]).
Proof.
  eapply returns_weaken.
  - apply (eliminate_choice_first_least g11 2 0
             [gen g11 1 false; gen g11 0 false; gen g11 0 false; gen g11 0 false]
             [gen g11 0 false; gen g11 4 false; gen g11 2 false; gen g11 2 false]
             prime_11).
    + vm_compute. discriminate.
    + repeat constructor; cbn; lia.
    + repeat constructor; cbn; lia.
    + cbn [map gen value].
      constructor; [right; reflexivity |]. constructor; [left; reflexivity |].
      constructor; [left; reflexivity |]. constructor; [left; reflexivity | constructor].
    + reflexivity.
    + exists 1%nat. cbn. repeat split; lia.
  - intros hs (j & Hj & Hv & Hjv & Hleast & Hfirst). rewrite Hv.
    cbn [List.length] in Hj.
    destruct j as [|[|[|[|j]]]]; [discriminate Hjv | | reflexivity | | lia].
    + specialize (Hleast 2%nat ltac:(cbn; lia) eq_refl). cbn in Hleast. lia.
    + specialize (Hfirst 2%nat ltac:(lia) eq_refl). cbn in Hfirst. lia.
Defined.

(** ** Constraint count of the Montgomery ladder *)

Lemma costs_ret {A} (a : A) (P : A -> Prop) : P a -> costs (ret a) 0 P.
Proof. intros H s. exists a. rewrite charged_zero. split; [reflexivity | exact H]. Qed.

Lemma costs_bind {A B} (m : M A) (f : A -> M B) (k1 k2 : Z)
  (P : A -> Prop) (Q : B -> Prop) :
  costs m k1 P -> (forall a, P a -> costs (f a) k2 Q) -> costs (bind m f) (k1 + k2) Q.
Proof.
  intros Hm Hf s. destruct (Hm s) as (a & Ea & Ha).
  destruct (Hf a Ha (charged s k1)) as (b & Eb & Hb).
  exists b. unfold bind. rewrite Ea, Eb, charged_add. split; [reflexivity | exact Hb].
Qed.

Lemma costs_cost {A} (m : M A) (k k' : Z) (P : A -> Prop) :
  costs m k P -> k = k' -> costs m k' P.
Proof. intros H <-. exact H. Qed.

Lemma costs_foldM {A B} (f : B -> A -> M B) (k : A -> Z) (Inv : B -> Prop)
  (l : list A) :
  (forall b a, Inv b -> costs (f b a) (k a) Inv) ->
  forall b, Inv b -> costs (foldM f b l) (zsum k l) Inv.
Proof.
  intros H. induction l as [|a l IH]; intros b Hb.
  - cbn [foldM zsum]. apply costs_ret. exact Hb.
  - cbn [foldM]. eapply costs_cost.
    + eapply costs_bind; [apply (H b a Hb) |]. intros b' Hb'. apply (IH b' Hb').
    + cbn [zsum]. reflexivity.
Qed.

Definition nonconst (w : Wire) : Prop := is_const w = false.

Lemma nonconst_add_r (a b : Wire) : nonconst b -> nonconst (__add__ a (W b)).
Proof. unfold nonconst. intros H. cbn [__add__ is_const nonconst_wire]. rewrite H. reflexivity. Qed.

Lemma nonconst_add_l (a : Wire) (b : num) : nonconst a -> nonconst (__add__ a b).
Proof.
  unfold nonconst. intros H. cbn [__add__ is_const]. rewrite H.
  destruct (nonconst_wire b); reflexivity.
Qed.

Lemma nonconst_sub_r (a b : Wire) : nonconst b -> nonconst (__sub__ a (W b)).
Proof. intros H. unfold __sub__, neg_num. apply nonconst_add_r. exact H. Qed.

Lemma nonconst_sub_l (a : Wire) (b : num) : nonconst a -> nonconst (__sub__ a b).
Proof. intros H. unfold __sub__. apply nonconst_add_l. exact H. Qed.

Lemma costs_mul_nonconst (a b : Wire) :
  nonconst b -> costs (__mul__ a (W b)) 1 nonconst.
Proof.
  unfold nonconst. intros Hb s. unfold __mul__, bind. cbn [nonconst_wire]. rewrite Hb.
  cbn [negb count_mul ret]. eexists. split; reflexivity.
Qed.

Lemma costs_truediv_int (a : Wire) (n : Z) :
  Z.gcd n (modulus a) = 1 -> costs (__truediv__ a (Int n)) 0 (fun _ => True).
Proof.
  intros Hg s. unfold __truediv__, bind. rewrite (pow_inv_coprime n (modulus a) s Hg).
  unfold ret at 1. unfold __mul__, bind. cbn [nonconst_wire ret].
  eexists. rewrite charged_zero. split; [reflexivity | exact I].
Qed.

Create HintDb nonconst.
#[local] Hint Resolve nonconst_add_r nonconst_add_l nonconst_sub_r nonconst_sub_l : nonconst.

(** One counted product in a chain of them. *)
Ltac count_mul_step :=
  eapply costs_bind;
  [ apply costs_mul_nonconst; solve [eauto 6 with nonconst]
  | let r := fresh "r" in let Hr := fresh "Hr" in intros r Hr ].

Lemma xadd_costs (p q m : Point) :
  nonconst_point p -> nonconst_point q -> nonconst_point m ->
  costs (xadd p q m) 6 nonconst_point.
Proof.
  intros [Hpx Hpz] [Hqx Hqz] [Hmx Hmz]. fold (nonconst (_x p)) in Hpx.
  fold (nonconst (_z p)) in Hpz. fold (nonconst (_x q)) in Hqx.
  fold (nonconst (_z q)) in Hqz. fold (nonconst (_x m)) in Hmx.
  fold (nonconst (_z m)) in Hmz.
  unfold xadd. cbv zeta. eapply costs_cost.
  - do 6 count_mul_step. apply costs_ret. split; assumption.
  - reflexivity.
Qed.

Lemma xdbl_costs (p : Point) (A : Wire) :
  nonconst_point p -> Z.odd (modulus A) = true ->
  costs (xdbl p A) 5 nonconst_point.
Proof.
  intros [Hpx Hpz] Hodd. fold (nonconst (_x p)) in Hpx. fold (nonconst (_z p)) in Hpz.
  unfold xdbl. cbv zeta. eapply costs_cost.
  - do 3 count_mul_step.
    eapply costs_bind.
    { apply costs_truediv_int. cbn [__add__ modulus]. apply gcd_4_odd. exact Hodd. }
    intros a24 _.
    do 2 count_mul_step. apply costs_ret. split; assumption.
  - reflexivity.
Qed.

Lemma costs_mul_int (a : Wire) (n : Z) :
  nonconst a -> costs (__rmul__ a (Int n)) 0 nonconst.
Proof.
  unfold nonconst. intros Ha s. unfold __rmul__, __mul__, bind.
  cbn [nonconst_wire ret]. eexists. rewrite charged_zero. split; [reflexivity | exact Ha].
Qed.

(** What one product [i * w] with the bit counts when [w] is not const:
    one multiplication for a bit that is a wire, none for an [int],
    whose product is the reflected [w.__rmul__(i)]. *)
Definition bit_products (i : num) : Z :=
  match i with W _ => 1 | Int _ => 0 end.

(** The count of one turn of the ladder: one [xadd] (6), two [xdbl] (5
    each) and the six products with the bit. *)
Definition ladder_turn_cost (i : num) : Z := 16 + 6 * bit_products i.

Lemma costs_bit_mul (i : num) (w : Wire) :
  nonconst w -> costs (bit_mul i w) (bit_products i) nonconst.
Proof.
  intros Hw. destruct i as [n | b]; cbn [bit_mul bit_products].
  - apply costs_mul_int. exact Hw.
  - apply costs_mul_nonconst. exact Hw.
Qed.

(** One product with the bit in a chain of them. *)
Ltac count_bit_step :=
  eapply costs_bind;
  [ apply costs_bit_mul; solve [eauto 6 with nonconst]
  | let r := fresh "r" in let Hr := fresh "Hr" in intros r Hr ].

Lemma ladder_step_costs (p : Point) (A : Wire) (st : Point * Point) (i : num) :
  nonconst_point p -> Z.odd (modulus A) = true ->
  nonconst_point (fst st) /\ nonconst_point (snd st) ->
  costs (ladder_step p A st i) (ladder_turn_cost i)
    (fun st' => nonconst_point (fst st') /\ nonconst_point (snd st')).
Proof.
  intros Hp Hodd [H0 H1]. destruct st as [r0 r1]. cbn [fst snd] in H0, H1.
  unfold ladder_step. eapply costs_cost.
  - eapply costs_bind; [apply (xadd_costs r1 r0 p H1 H0 Hp) |].
    intros padd [Hax Haz]. fold (nonconst (_x padd)) in Hax. fold (nonconst (_z padd)) in Haz.
    eapply costs_bind; [apply (xdbl_costs r0 A H0 Hodd) |].
    intros r0_0 [H0x H0z]. fold (nonconst (_x r0_0)) in H0x. fold (nonconst (_z r0_0)) in H0z.
    eapply costs_bind; [apply (xdbl_costs r1 A H1 Hodd) |].
    intros r1_1 [H1x H1z]. fold (nonconst (_x r1_1)) in H1x. fold (nonconst (_z r1_1)) in H1z.
    cbv zeta. do 6 count_bit_step.
    apply costs_ret. unfold nonconst_point. cbn [fst snd set_x set_z _x _z].
    repeat split;
      lazymatch goal with |- is_const ?w = false => change (nonconst w) end;
      eauto 6 with nonconst.
  - unfold ladder_turn_cost. destruct i as [n | b]; cbn [one_minus bit_products]; ring.
Qed.

Lemma zsum_const {A} (f : A -> Z) (c : Z) (l : list A) :
  (forall a, In a l -> f a = c) -> zsum f l = c * Z.of_nat (List.length l).
Proof.
  induction l as [|a l IH]; intros H; cbn [zsum List.length]; [ring |].
  rewrite (H a (or_introl eq_refl)), IH by (intros; apply H; right; assumption).
  rewrite Nat2Z.inj_succ. ring.
Qed.

Lemma tl_map {A B} (f : A -> B) (l : list A) : tl (map f l) = map f (tl l).
Proof. destruct l; reflexivity. Qed.

(** X29.  [ladder] over a group of positive odd modulus, from a point of
    the group whose coordinates are not const: it raises nothing and
    counts exactly 5 multiplications for the first doubling and, for
    every further bit of [k_bits], 16 (one [xadd], two [xdbl]) plus the
    six products with the bit if the bit is a wire.  So a list of wires
    (as [exponent_homogeneous_point] passes) costs 5 + 22 per further
    bit, and a list of [int]s (whose products are reflected to
    [Wire.__rmul__] and not counted) costs 5 + 16 per further bit,
    whatever the values of the bits are and whether [A] is const or
    not. *)
Theorem ladder_counts (g : WireGroup) (p : Point) (A : Wire) :
  0 < group_modulus g -> Z.odd (group_modulus g) = true ->
  point_in g p -> nonconst_point p -> in_group g A ->
  let Q := fun st : Point * Point =>
             nonconst_point (fst st) /\ nonconst_point (snd st) in
  (forall k_bits : list num, Forall (bit_in g) k_bits ->
     costs (ladder k_bits p A) (5 + zsum ladder_turn_cost (tl k_bits)) Q) /\
  (forall bits : list Wire, Forall (in_group g) bits ->
     costs (ladder (map W bits) p A) (5 + 22 * Z.of_nat (List.length (tl bits))) Q) /\
  (forall bits : list Z,
     costs (ladder (map Int bits) p A) (5 + 16 * Z.of_nat (List.length (tl bits))) Q).
Proof.
  intros _ Hodd _ Hp HA Q. rewrite <- HA in Hodd.
  assert (H : forall k_bits : list num,
             costs (ladder k_bits p A) (5 + zsum ladder_turn_cost (tl k_bits)) Q).
  { intros k_bits. unfold ladder. cbv zeta.
    eapply costs_bind; [apply (xdbl_costs p A Hp Hodd) |].
    intros r1 Hr1.
    apply (costs_foldM (ladder_step p A) ladder_turn_cost Q).
    - intros st i Hst. apply (ladder_step_costs p A st i Hp Hodd Hst).
    - split; [exact Hp | exact Hr1]. }
  split; [intros k_bits _; apply H |]. split.
  - intros bits _. eapply costs_cost; [apply H |].
    rewrite tl_map, zsum_map, (zsum_const _ 22); reflexivity.
  - intros bits. eapply costs_cost; [apply H |].
    rewrite tl_map, zsum_map, (zsum_const _ 16); reflexivity.
Qed.

Lemma ladder_counts_witness :
  let Q := fun st : Point * Point =>
             nonconst_point (fst st) /\ nonconst_point (snd st) in
  costs (ladder [Int 1; Int 0; W (gen g13 1 false); Int 1] c7_point (gen g13 3 true))
    59 Q /\
  costs (ladder (map W [gen g13 1 false; gen g13 0 false; gen g13 1 false]) c7_point
           (gen g13 3 true)) 49 Q /\
  costs (ladder (map Int [1; 0; 1]) c7_point (gen g13 3 true)) 37 Q.
Proof.
  destruct (ladder_counts g13 c7_point (gen g13 3 true)) as (H1 & H2 & H3);
    [reflexivity | reflexivity | split; reflexivity | split; reflexivity
    | reflexivity |].
  split; [| split].
  - apply (H1 [Int 1; Int 0; W (gen g13 1 false); Int 1]).
    repeat constructor.
  - apply (H2 [gen g13 1 false; gen g13 0 false; gen g13 1 false]).
    repeat constructor.
  - apply (H3 [1; 0; 1]).
Defined.

(** ** Ballots with a single choice *)

(** A ballot that marks one choice: every entry is 0 or 1 modulo [p]
    and the entries sum to 1 modulo [p]. *)
Definition single_choice (p : Z) (ballot : list Wire) : bool :=
  forallb (bit_mod p) ballot && (zsum value ballot mod p =? 1).

Lemma forM_assert_bit (g : WireGroup) (ws : list Wire) :
  Z.prime (group_modulus g) -> Forall (in_group g) ws ->
  forall s, exists s',
    forM_ assert_bit ws s
    = ((if forallb (bit_mod (group_modulus g)) ws then inr tt
        else inl (ValueError NotABit)), s').
Proof.
  intros Hprime HF. induction HF as [|w ws Hw HF IH]; intros s.
  - exists s. reflexivity.
  - cbn [forM_ forallb]. unfold bind. rewrite (assert_bit_result g w s Hprime Hw).
    destruct (bit_mod (group_modulus g) w); cbn [andb].
    + apply IH.
    + eexists. reflexivity.
Qed.

Lemma assert_equal_empty (g : WireGroup) (y : Wire) (s : Counters) :
  2 <= group_modulus g ->
  assert_equal g [] [W (gen g 1 false)] s = (inl (ValueError EqualityFails), s).
Proof.
  intros Hp.
  cbv [assert_equal py_sum fold_left py_add py_mul __rmul__ __radd__ __mul__ __add__ bind
         nonconst_wire ret int_of gen value modulus is_const].
  rewrite Z.mul_1_l, Zmod_0_l, Z.add_0_r, Z.mod_1_l by lia. reflexivity.
Qed.

(** X30.  [assert_single_choice] over a prime field, on wires of the group:
    it returns exactly for the ballots whose entries are all 0 or 1
    modulo [p] and sum to 1 modulo [p], and raises [ValueError] for
    every other ballot, the empty one included. *)
Theorem assert_single_choice_valid (g : WireGroup) (ballot : list Wire) :
  Z.prime (group_modulus g) -> Forall (in_group g) ballot ->
  (single_choice (group_modulus g) ballot = true ->
   returns (assert_single_choice g ballot) (fun _ => True)) /\
  (single_choice (group_modulus g) ballot = false ->
   forall s, exists m s', assert_single_choice g ballot s = (inl (ValueError m), s')).
Proof.
  intros Hprime HF. pose proof (p_ge_2 g Hprime) as Hp.
  assert (Hsum : forall s, exists s',
             assert_equal g (map W ballot) [W (gen g 1 false)] s
             = ((if zsum value ballot mod group_modulus g =? 1
                 then inr tt else inl (ValueError EqualityFails)), s')).
  { intros s. destruct ballot as [|w ws].
    - exists s. cbn [map zsum]. rewrite Zmod_0_l. cbn [Z.eqb].
      apply (assert_equal_empty g (gen g 1 false) s Hp).
    - inversion HF as [|? ? Hw _]. subst. eexists.
      change [W (gen g 1 false)] with (map W [gen g 1 false]).
      rewrite (assert_equal_result g w (gen g 1 false) ws [] s Hw eq_refl).
      cbn [zsum gen value]. rewrite Z.add_0_r, (Z.mod_1_l (group_modulus g)) by lia.
      reflexivity. }
  unfold single_choice, assert_single_choice. split.
  - intros Hv s. apply andb_prop in Hv. destruct Hv as [Hb He].
    destruct (forM_assert_bit g ballot Hprime HF s) as [s1 E1]. rewrite Hb in E1.
    destruct (Hsum s1) as [s2 E2]. rewrite He in E2.
    exists tt, s2. unfold bind. rewrite E1, E2. split; [reflexivity | exact I].
  - intros Hv s.
    destruct (forM_assert_bit g ballot Hprime HF s) as [s1 E1].
    destruct (Hsum s1) as [s2 E2]. unfold bind. rewrite E1.
    destruct (forallb (bit_mod (group_modulus g)) ballot); cbn [andb] in Hv.
    + rewrite E2, Hv. eexists. eexists. reflexivity.
    + eexists. eexists. reflexivity.
Qed.

Lemma assert_single_choice_valid_witness :
  returns (assert_single_choice g11 [gen g11 0 false; gen g11 1 false; gen g11 0 false])
    (fun _ => True) /\
  (exists m s', assert_single_choice g11 [gen g11 1 false; gen g11 1 false]
                  (mkCounters 0 0) = (inl (ValueError m), s')).
Proof.
  split.
  - apply (proj1 (assert_single_choice_valid g11
                    [gen g11 0 false; gen g11 1 false; gen g11 0 false] prime_11
                    ltac:(repeat constructor))).
    reflexivity.
  - apply (proj2 (assert_single_choice_valid g11 [gen g11 1 false; gen g11 1 false]
                    prime_11 ltac:(repeat constructor))).
    reflexivity.
Defined.
